(** * oc-ralph: orchestration engine, verified against its specification

    A shallow embedding of the deterministic core of the orchestrator
    (state store, dependency resolver, retry executor, issue body composer,
    debounced status reporter, test self-heal coordinator, test result
    aggregator, worktree registry, implementation stage) together with the
    properties its specification states about them and further properties
    read off the code.

    Conventions.  JavaScript strings are Rocq [string]s (UTF-8 bytes), JS
    [Set]/[Map]/plain-object maps are stdpp [gset]/[gmap], and a promise that
    resolves or rejects is an [outcome].  Calls to [logger] are omitted: they
    have no effect on the data the properties speak about. *)

From Stdlib Require Import ZArith List String Ascii Bool Lia Permutation Sorted.
From Stdlib Require Import Relation_Operators Operators_Properties OrdersEx.
From Stdlib Require Import DecimalString.
From Stdlib Require DecimalNat.
From stdpp Require Import gmap strings list fin_maps.

(** ** Shared JavaScript vocabulary *)

Module Js.

(** A thrown [Error]: its [message], and the [shouldRetry] property callers
    may set on it ([None] when the property is absent). *)
Record error := mkError { message : string; shouldRetry : option bool }.

Definition Error (msg : string) : error := mkError msg None.

(** The settlement of an [async] call: a value, or a thrown error. *)
Inductive outcome (A : Type) : Type :=
| Ok (a : A)
| Throw (e : error).
Arguments Ok {A} a.
Arguments Throw {A} e.

(** State-and-exception monad: [await]ed calls thread the world [S]. *)
Definition M (S A : Type) : Type := S -> outcome A * S.

Definition ret {S A} (a : A) : M S A := fun s => (Ok a, s).

Definition bind {S A B} (m : M S A) (k : A -> M S B) : M S B :=
  fun s => match m s with
           | (Ok a, s') => k a s'
           | (Throw e, s') => (Throw e, s')
           end.

Definition throw {S A} (e : error) : M S A := fun s => (Throw e, s).

(** [try { m } catch (e) { h e }] *)
Definition try_catch {S A} (m : M S A) (h : error -> M S A) : M S A :=
  fun s => match m s with
           | (Ok a, s') => (Ok a, s')
           | (Throw e, s') => h e s'
           end.

Definition get {S} : M S S := fun s => (Ok s, s).
Definition put {S} (s : S) : M S unit := fun _ => (Ok tt, s).
Definition modify {S} (f : S -> S) : M S unit := fun s => (Ok tt, f s).

(** [String(n)] / [`${n}`] for a non-negative integer. *)
Definition natToString (n : nat) : string :=
  NilEmpty.string_of_uint (Nat.to_uint n).

(** [hay.indexOf(needle)]: the first position at which [needle] occurs,
    [None] for JS [-1]. *)
Fixpoint indexOf (needle hay : string) : option nat :=
  if String.prefix needle hay then Some 0
  else match hay with
       | EmptyString => None
       | String _ hay' => option_map S (indexOf needle hay')
       end.

(** [hay.includes(needle)] *)
Definition includes (hay needle : string) : bool :=
  match indexOf needle hay with
  | Some _ => true
  | None => false
  end.

(** [s.substring(start, end)] and [s.substring(start)], for indices within
    the string. *)
Definition substring (s : string) (from to : nat) : string :=
  String.substring from (to - from) s.

Definition substringFrom (s : string) (from : nat) : string :=
  String.substring from (String.length s - from) s.

(** [s.toLowerCase()] on the letters A-Z.  Characters outside ASCII are
    bytes above 127 here and are left as they are. *)
Definition toLowerChar (c : ascii) : ascii :=
  let n := nat_of_ascii c in
  if (65 <=? n) && (n <=? 90) then ascii_of_nat (n + 32) else c.

Fixpoint toLowerCase (s : string) : string :=
  match s with
  | EmptyString => EmptyString
  | String c s' => String (toLowerChar c) (toLowerCase s')
  end.

End Js.

Import Js.

Declare Scope js_scope.
Delimit Scope js_scope with js.
Notation "'let*' x := m 'in' k" := (bind m (fun x => k))
  (at level 10, x name, m at level 100, k at level 200) : js_scope.

(** ** State store (StateManager) *)

Module StateManager.

(** The issue tracker as the state store sees it: the label set of every
    existing ticket.  [gh issue view/edit] on a ticket that does not exist
    fails. *)
Abbreviation tracker := (gmap nat (gset string)).

Definition noSuchIssue (issueNumber : nat) : error :=
  Error "gh: could not resolve to an issue".

(** [labelOps.getLabels(repo, issueNumber)] *)
Definition getLabels (issueNumber : nat) : M tracker (gset string) :=
  fun t => match t !! issueNumber with
           | Some ls => (Ok ls, t)
           | None => (Throw (noSuchIssue issueNumber), t)
           end.

(** [labelOps.addLabel(repo, issueNumber, label)] *)
Definition addLabel (issueNumber : nat) (label : string) : M tracker unit :=
  fun t => match t !! issueNumber with
           | Some ls => (Ok tt, <[issueNumber := ls ∪ {[label]}]> t)
           | None => (Throw (noSuchIssue issueNumber), t)
           end.

(** [labelOps.removeLabel(repo, issueNumber, label)] *)
Definition removeLabel (issueNumber : nat) (label : string) : M tracker unit :=
  fun t => match t !! issueNumber with
           | Some ls => (Ok tt, <[issueNumber := ls ∖ {[label]}]> t)
           | None => (Throw (noSuchIssue issueNumber), t)
           end.

Definition stateLabels : list string :=
  [ "oc-ralph:planning";
    "oc-ralph:awaiting-approval";
    "oc-ralph:approved";
    "oc-ralph:implementing";
    "oc-ralph:testing";
    "oc-ralph:completing";
    "oc-ralph:completed";
    "oc-ralph:pr-created";
    "oc-ralph:failed";
    "oc-ralph:rejected";
    "oc-ralph:paused" ]%string.

Definition resumableStates : list string :=
  [ "oc-ralph:planning";
    "oc-ralph:awaiting-approval";
    "oc-ralph:approved";
    "oc-ralph:implementing";
    "oc-ralph:testing";
    "oc-ralph:completing" ]%string.

(** The [for (const stateLabel of stateLabels)] scan of [getCurrentState]:
    the first listed state label the ticket carries, [None] for JS [null]. *)
Definition firstStateLabel (labels : gset string) : option string :=
  find (fun stateLabel => bool_decide (stateLabel ∈ labels)) stateLabels.

Definition getCurrentState (issueNumber : nat) : M tracker (option string) :=
  (let* labels := getLabels issueNumber in
   ret (firstStateLabel labels))%js.

Definition transitionTo (issueNumber : nat) (newState : string) : M tracker unit :=
  (let* currentState := getCurrentState issueNumber in
   let* _ := match currentState with
             | Some cur => removeLabel issueNumber cur
             | None => ret tt
             end in
   addLabel issueNumber newState)%js.

(** [resumableStates.includes(state)], where [state] may be [null]. *)
Definition includesState (states : list string) (state : option string) : bool :=
  match state with
  | Some s => bool_decide (s ∈ states)
  | None => false
  end.

Definition canResume (issueNumber : nat) : M tracker bool :=
  (let* state := getCurrentState issueNumber in
   ret (includesState resumableStates state))%js.

(** A sequence of [transitionTo] calls, each awaited in turn; a call that
    throws leaves the tracker as the failed call left it. *)
Definition runTransitions (calls : list (nat * string)) (t : tracker) : tracker :=
  fold_left (fun t c => snd (transitionTo (fst c) (snd c) t)) calls t.

(** The labels ticket [n] carries ([∅] for a ticket that does not exist). *)
Definition labelsOf (t : tracker) (n : nat) : gset string := default ∅ (t !! n).

Definition isStateLabel (l : string) : Prop := l ∈ stateLabels.

(** The ticket carries at most one state label. *)
Definition atMostOneStateLabel (labels : gset string) : Prop :=
  forall l1 l2, isStateLabel l1 -> isStateLabel l2 ->
                l1 ∈ labels -> l2 ∈ labels -> l1 = l2.

(** The state labels a ticket carries, in vocabulary order. *)
Definition stateLabelsOn (labels : gset string) : list string :=
  filter (fun l => l ∈ labels) stateLabels.

Definition paused : string := "oc-ralph:paused".

(** *** Properties *)

Lemma firstStateLabel_Some labels s :
  firstStateLabel labels = Some s -> isStateLabel s /\ s ∈ labels.
Proof.
  unfold firstStateLabel. intros H. apply find_some in H as [Hin Hb].
  split.
  - apply list_elem_of_In. exact Hin.
  - apply bool_decide_eq_true in Hb. exact Hb.
Qed.

Lemma firstStateLabel_None labels l :
  firstStateLabel labels = None -> isStateLabel l -> l ∉ labels.
Proof.
  unfold firstStateLabel. intros H Hl Hin.
  apply list_elem_of_In in Hl.
  pose proof (find_none _ _ H l Hl) as Hb.
  apply bool_decide_eq_false in Hb. contradiction.
Qed.

Lemma transitionTo_other m newState (t : tracker) n :
  m <> n -> snd (transitionTo m newState t) !! n = t !! n.
Proof.
  intros Hne. unfold transitionTo, getCurrentState, getLabels, bind, ret.
  destruct (t !! m) as [ls|] eqn:Hm; simpl; [|done].
  destruct (firstStateLabel ls) as [cur|]; simpl.
  - unfold removeLabel, addLabel. rewrite Hm. simpl.
    rewrite lookup_insert_eq. simpl.
    by rewrite !lookup_insert_ne.
  - unfold addLabel. rewrite Hm. simpl. by rewrite lookup_insert_ne.
Qed.

(** What one awaited [transitionTo] does to the ticket it addresses. *)
Lemma transitionTo_same n newState (t : tracker) ls :
  t !! n = Some ls ->
  transitionTo n newState t =
    (Ok tt,
     <[n := match firstStateLabel ls with
            | Some cur => (ls ∖ {[cur]}) ∪ {[newState]}
            | None => ls ∪ {[newState]}
            end]> t).
Proof.
  intros Hn. unfold transitionTo, getCurrentState, getLabels, bind, ret.
  rewrite Hn. simpl.
  destruct (firstStateLabel ls) as [cur|]; simpl.
  - unfold removeLabel, addLabel. rewrite Hn. simpl.
    rewrite lookup_insert_eq. simpl. by rewrite insert_insert_eq.
  - unfold addLabel. by rewrite Hn.
Qed.

Lemma transitionTo_missing n newState (t : tracker) :
  t !! n = None -> snd (transitionTo n newState t) = t.
Proof.
  intros Hn. unfold transitionTo, getCurrentState, getLabels, bind.
  by rewrite Hn.
Qed.

Lemma transition_labels_atMostOne ls newState :
  atMostOneStateLabel ls ->
  atMostOneStateLabel
    (match firstStateLabel ls with
     | Some cur => (ls ∖ {[cur]}) ∪ {[newState]}
     | None => ls ∪ {[newState]}
     end).
Proof.
  intros Hone l1 l2 Hs1 Hs2.
  destruct (firstStateLabel ls) as [cur|] eqn:Hcur.
  - apply firstStateLabel_Some in Hcur as [Hsc Hc].
    intros H1 H2.
    assert (Hkey : forall l, isStateLabel l ->
                     l ∈ (ls ∖ {[cur]}) ∪ {[newState]} -> l = newState).
    { intros l Hl Hin. apply elem_of_union in Hin as [Hin|Hin].
      - apply elem_of_difference in Hin as [Hin Hnc].
        exfalso. apply Hnc. apply elem_of_singleton. by apply Hone.
      - by apply elem_of_singleton in Hin. }
    rewrite (Hkey l1 Hs1 H1). by rewrite (Hkey l2 Hs2 H2).
  - intros H1 H2.
    assert (Hkey : forall l, isStateLabel l -> l ∈ ls ∪ {[newState]} -> l = newState).
    { intros l Hl Hin. apply elem_of_union in Hin as [Hin|Hin].
      - exfalso. by apply (firstStateLabel_None ls l).
      - by apply elem_of_singleton in Hin. }
    rewrite (Hkey l1 Hs1 H1). by rewrite (Hkey l2 Hs2 H2).
Qed.

Lemma transitionTo_preserves_atMostOne m newState (t : tracker) n :
  atMostOneStateLabel (labelsOf t n) ->
  atMostOneStateLabel (labelsOf (snd (transitionTo m newState t)) n).
Proof.
  intros Hone. unfold labelsOf in *.
  destruct (decide (m = n)) as [->|Hne].
  - destruct (t !! n) as [ls|] eqn:Hn.
    + rewrite (transitionTo_same n newState t ls Hn). simpl.
      rewrite lookup_insert_eq. simpl. by apply transition_labels_atMostOne.
    + rewrite (transitionTo_missing n newState t Hn). by rewrite Hn.
  - by rewrite transitionTo_other.
Qed.

Lemma runTransitions_preserves_atMostOne calls (t : tracker) n :
  atMostOneStateLabel (labelsOf t n) ->
  atMostOneStateLabel (labelsOf (runTransitions calls t) n).
Proof.
  unfold runTransitions. revert t.
  induction calls as [|[m s] calls IH]; intros t Hone; simpl; [done|].
  apply IH. by apply transitionTo_preserves_atMostOne.
Qed.

(** C6 (as amended).  From a ticket that carries at most one state label,
    after every call of every sequence of [transitionTo] calls the ticket
    still carries at most one state label. *)
Theorem transitionTo_keeps_single_state_label :
  forall (t : tracker) (n : nat) (calls : list (nat * string)) (k : nat),
    atMostOneStateLabel (labelsOf t n) ->
    atMostOneStateLabel (labelsOf (runTransitions (take k calls) t) n).
Proof.
  intros t n calls k Hone. by apply runTransitions_preserves_atMostOne.
Qed.

(** C6 as stated fails for an initial label set that already carries two
    state labels: [transitionTo] removes only the first one it finds. *)
Lemma transitionTo_two_state_labels_counterexample :
  ~ atMostOneStateLabel
      (labelsOf
         (runTransitions [(1, "oc-ralph:approved")]
            {[ 1 := {[ "oc-ralph:planning"; "oc-ralph:testing" ]} ]})
         1).
Proof.
  intros H.
  assert (Heq : "oc-ralph:testing" = "oc-ralph:approved").
  { apply H.
    - unfold isStateLabel, stateLabels. set_solver.
    - unfold isStateLabel, stateLabels. set_solver.
    - vm_compute. done.
    - vm_compute. done. }
  discriminate Heq.
Qed.

Lemma transitionTo_keeps_single_state_label_witness :
  atMostOneStateLabel
    (labelsOf
       (runTransitions
          (take 2 [(1, "oc-ralph:approved"); (1, "oc-ralph:implementing")])
          {[ 1 := {[ "oc-ralph:planning"; "bug" ]} ]})
       1).
Proof.
  apply transitionTo_keeps_single_state_label.
  intros l1 l2 Hs1 Hs2 H1 H2.
  unfold labelsOf in H1, H2. rewrite lookup_singleton_eq in H1, H2. simpl in *.
  unfold isStateLabel, stateLabels in *. set_solver.
Defined.

Lemma firstStateLabel_only labels s :
  isStateLabel s -> s ∈ labels ->
  (forall l, isStateLabel l -> l ∈ labels -> l = s) ->
  firstStateLabel labels = Some s.
Proof.
  intros Hs Hin Honly.
  destruct (firstStateLabel labels) as [c|] eqn:Hc.
  - apply firstStateLabel_Some in Hc as [Hsc Hcin]. f_equal. by apply Honly.
  - exfalso. by apply (firstStateLabel_None labels s).
Qed.

(** C9.  [paused] is an eleventh entry of the state vocabulary scanned by
    [getCurrentState]; on a ticket whose only state label is [paused],
    [getCurrentState] returns it and [canResume] answers [false], as it does
    for the terminal states. *)
Theorem paused_is_a_state_and_refuses_resume :
  forall (t : tracker) (n : nat) (labels : gset string),
    t !! n = Some labels ->
    paused ∈ labels ->
    (forall l, isStateLabel l -> l ∈ labels -> l = paused) ->
    length stateLabels = 11 /\
    (stateLabels !! 10) = Some paused /\
    (paused ∉ resumableStates) /\
    getCurrentState n t = (Ok (Some paused), t) /\
    canResume n t = (Ok false, t).
Proof.
  intros t n labels Hn Hin Honly.
  assert (Hst : isStateLabel paused).
  { unfold isStateLabel, stateLabels, paused. set_solver. }
  pose proof (firstStateLabel_only labels paused Hst Hin Honly) as Hfirst.
  split; [reflexivity|]. split; [reflexivity|].
  split; [unfold resumableStates, paused; set_solver|].
  unfold canResume, getCurrentState, getLabels, bind, ret.
  rewrite Hn. simpl. rewrite Hfirst. split; [reflexivity|].
  simpl. f_equal.
Qed.

Lemma paused_is_a_state_and_refuses_resume_witness :
  getCurrentState 7 {[ 7 := {[ paused; "enhancement" ]} ]}
    = (Ok (Some paused), {[ 7 := {[ paused; "enhancement" ]} ]}) /\
  canResume 7 {[ 7 := {[ paused; "enhancement" ]} ]}
    = (Ok false, {[ 7 := {[ paused; "enhancement" ]} ]}).
Proof.
  assert (H := paused_is_a_state_and_refuses_resume
                 {[ 7 := {[ paused; "enhancement" ]} ]} 7
                 {[ paused; "enhancement" ]}).
  destruct H as (_ & _ & _ & Hget & Hcan).
  - apply lookup_singleton_eq.
  - set_solver.
  - intros l Hl Hin. unfold isStateLabel, stateLabels, paused in *. set_solver.
  - split; assumption.
Defined.

(** *** Reading and writing the state *)

Lemma find_first {A} (f : A -> bool) (l : list A) (x : A) :
  find f l = Some x ->
  exists i, l !! i = Some x /\ f x = true /\
            forall j y, j < i -> l !! j = Some y -> f y = false.
Proof.
  induction l as [|a l IH]; simpl; [done|].
  destruct (f a) eqn:Hfa.
  - intros [= ->]. exists 0. split; [done|]. split; [done|]. intros j y Hj. lia.
  - intros H. destruct (IH H) as (i & Hi & Hfx & Hbefore).
    exists (S i). split; [done|]. split; [done|].
    intros [|j] y Hj Hy; simpl in Hy.
    + by injection Hy as <-.
    + apply (Hbefore j y); [lia|done].
Qed.

(** [getCurrentState] only reads.  It answers [null] exactly when the ticket
    carries no state label; otherwise it answers a state label the ticket
    carries, the one listed first in the vocabulary when there are several.
    On a ticket that does not exist the failure of [getLabels] comes
    through. *)
Theorem getCurrentState_reports_first_listed_state (t : tracker) (n : nat) :
  match t !! n with
  | None => getCurrentState n t = (Throw (noSuchIssue n), t)
  | Some labels =>
      exists state,
        getCurrentState n t = (Ok state, t) /\
        match state with
        | None => forall l, isStateLabel l -> l ∉ labels
        | Some s =>
            s ∈ labels /\
            exists i, stateLabels !! i = Some s /\
                      forall j l, stateLabels !! j = Some l -> l ∈ labels -> i <= j
        end
  end.
Proof.
  unfold getCurrentState, getLabels, bind, ret.
  destruct (t !! n) as [labels|]; [|done].
  exists (firstStateLabel labels). split; [done|].
  destruct (firstStateLabel labels) as [s|] eqn:Hs.
  - unfold firstStateLabel in Hs. apply find_first in Hs as (i & Hi & Hin & Hbefore).
    apply bool_decide_eq_true_1 in Hin. split; [done|].
    exists i. split; [done|]. intros j l Hj Hl.
    destruct (decide (i <= j)) as [|Hlt]; [done|exfalso].
    assert (Hf := Hbefore j l ltac:(lia) Hj).
    by apply bool_decide_eq_false_1 in Hf.
  - intros l Hl. by apply (firstStateLabel_None labels l).
Qed.

(** After [transitionTo(n, s)] on a ticket that carried at most one state
    label, [getCurrentState] answers [s] when [s] belongs to the vocabulary
    and [null] when it does not, and [canResume] answers whether [s] is one
    of the six resumable states. *)
Theorem transitionTo_then_getCurrentState
    (t : tracker) (n : nat) (labels : gset string) (s : string) :
  t !! n = Some labels ->
  atMostOneStateLabel labels ->
  let t' := snd (transitionTo n s t) in
  transitionTo n s t = (Ok tt, t') /\
  getCurrentState n t'
    = (Ok (if bool_decide (s ∈ stateLabels) then Some s else None), t') /\
  canResume n t' = (Ok (bool_decide (s ∈ resumableStates)), t').
Proof.
  intros Hn Hone t'. subst t'.
  rewrite (transitionTo_same n s t labels Hn). cbn [snd].
  split; [done|].
  set (labels' := match firstStateLabel labels with
                  | Some cur => labels ∖ {[cur]} ∪ {[s]}
                  | None => labels ∪ {[s]}
                  end).
  assert (Hin : s ∈ labels').
  { subst labels'. destruct (firstStateLabel labels); set_solver. }
  assert (Honly : forall l, isStateLabel l -> l ∈ labels' -> l = s).
  { intros l Hl Hl'. subst labels'.
    destruct (firstStateLabel labels) as [cur|] eqn:Hcur.
    - apply firstStateLabel_Some in Hcur as [Hsc Hc].
      apply elem_of_union in Hl' as [Hl'|Hl']; [|by apply elem_of_singleton in Hl'].
      apply elem_of_difference in Hl' as [Hl' Hnc].
      exfalso. apply Hnc, elem_of_singleton. by apply Hone.
    - apply elem_of_union in Hl' as [Hl'|Hl']; [|by apply elem_of_singleton in Hl'].
      exfalso. by apply (firstStateLabel_None labels l). }
  assert (Hfirst : firstStateLabel labels'
                   = if bool_decide (s ∈ stateLabels) then Some s else None).
  { destruct (bool_decide (s ∈ stateLabels)) eqn:Hs.
    - apply bool_decide_eq_true_1 in Hs. by apply firstStateLabel_only.
    - apply bool_decide_eq_false_1 in Hs.
      destruct (firstStateLabel labels') as [c|] eqn:Hc; [|done].
      apply firstStateLabel_Some in Hc as [Hsc Hcin].
      exfalso. apply Hs. by rewrite <- (Honly c Hsc Hcin). }
  unfold canResume, getCurrentState, getLabels, bind, ret.
  rewrite !lookup_insert_eq. cbv beta iota. rewrite Hfirst. split; [done|].
  f_equal. f_equal. unfold includesState.
  destruct (bool_decide (s ∈ stateLabels)) eqn:Hs; cbn; [done|].
  apply bool_decide_eq_false_1 in Hs. symmetry. apply bool_decide_eq_false_2.
  intros Hres. apply Hs. unfold resumableStates, stateLabels in *. set_solver.
Qed.

Lemma transitionTo_then_getCurrentState_witness :
  let t : tracker := {[ 3 := {[ "oc-ralph:planning"; "bug" ]} ]} in
  getCurrentState 3 (snd (transitionTo 3 "oc-ralph:failed" t))
    = (Ok (Some "oc-ralph:failed"), snd (transitionTo 3 "oc-ralph:failed" t)) /\
  canResume 3 (snd (transitionTo 3 "oc-ralph:failed" t))
    = (Ok false, snd (transitionTo 3 "oc-ralph:failed" t)).
Proof.
  intros t.
  destruct (transitionTo_then_getCurrentState t 3 {[ "oc-ralph:planning"; "bug" ]}
              "oc-ralph:failed") as (_ & Hget & Hcan).
  - apply lookup_singleton_eq.
  - intros l1 l2 Hs1 Hs2 H1 H2. unfold isStateLabel, stateLabels in *. set_solver.
  - split; [exact Hget|exact Hcan].
Defined.

(** [transitionTo(n, s)] touches nothing but the current state label and
    [s] on ticket [n]: every other label of the ticket stays or stays away,
    every other ticket keeps its labels, and on a ticket that does not exist
    the call throws and changes nothing. *)
Theorem transitionTo_frame (t : tracker) (n : nat) (s : string) :
  (forall m, m <> n -> snd (transitionTo n s t) !! m = t !! m) /\
  match t !! n with
  | None => transitionTo n s t = (Throw (noSuchIssue n), t)
  | Some labels =>
      exists labels',
        snd (transitionTo n s t) !! n = Some labels' /\
        s ∈ labels' /\
        forall l, l <> s -> firstStateLabel labels <> Some l ->
                  (l ∈ labels' <-> l ∈ labels)
  end.
Proof.
  split.
  - intros m Hm. by apply transitionTo_other.
  - destruct (t !! n) as [labels|] eqn:Hn.
    + rewrite (transitionTo_same n s t labels Hn). cbn [snd].
      eexists. split; [apply lookup_insert_eq|].
      destruct (firstStateLabel labels) as [cur|]; split; set_solver.
    + unfold transitionTo, getCurrentState, getLabels, bind. by rewrite Hn.
Qed.

End StateManager.

(** ** Dependency resolver *)

Module DependencyResolver.

(** A task as the resolver reads it: its [id], its [dependencies] ([None]
    when the property is absent) and the rest of the object ([title]). *)
Record task := mkTask {
  id : string;
  dependencies : option (list string);
  title : string
}.

(** [task.dependencies || []] *)
Definition depsOf (t : task) : list string := default [] (dependencies t).

(** The plain object [graph], keyed by task id. *)
Abbreviation graph := (gmap string (list string)).

(** [array.join(sep)] *)
Fixpoint join (sep : string) (l : list string) : string :=
  match l with
  | [] => ""
  | [x] => x
  | x :: l' => x +:+ sep +:+ join sep l'
  end.

(** The two failures of the resolver (the spec's [InvalidDependency] and
    [CyclicDependency]), with the messages the code gives them. *)
Definition invalidDependencyError (taskId depId : string) : error :=
  Error ("Task " +:+ taskId +:+ " depends on non-existent task " +:+ depId).

Definition cyclicDependencyError (missing : list string) : error :=
  Error ("Circular dependency detected or orphaned tasks: " +:+ join ", " missing).

(** First [forEach] of [buildDependencyGraph]: later entries overwrite
    earlier ones with the same id. *)
Definition graphOf (tasks : list task) : graph :=
  fold_left (fun g t => <[id t := depsOf t]> g) tasks ∅.

(** [graph[task.id]] for a key known to be present; [[]] otherwise. *)
Definition graphDeps (g : graph) (taskId : string) : list string :=
  default [] (g !! taskId).

(** Second [forEach]: the first dependency, in task order and then in
    dependency order, that is not a key of the graph. *)
Fixpoint firstInvalid (g : graph) (tasks : list task) : option (string * string) :=
  match tasks with
  | [] => None
  | t :: rest =>
      match find (fun depId => negb (bool_decide (is_Some (g !! depId))))
                 (graphDeps g (id t)) with
      | Some depId => Some (id t, depId)
      | None => firstInvalid g rest
      end
  end.

Definition buildDependencyGraph (tasks : list task) : outcome graph :=
  let g := graphOf tasks in
  match firstInvalid g tasks with
  | Some (taskId, depId) => Throw (invalidDependencyError taskId depId)
  | None => Ok g
  end.

Section Batching.

(** [a.localeCompare(b)]: the collation order of the runtime, negative,
    zero or positive. *)
Variable localeCompare : string -> string -> Z.

Definition idLe (a b : task) : Prop := (localeCompare (id a) (id b) <= 0)%Z.

(** [currentBatch.sort((a, b) => a.id.localeCompare(b.id))]: a stable
    sort, here by insertion. *)
Fixpoint insertById (x : task) (l : list task) : list task :=
  match l with
  | [] => [x]
  | y :: l' =>
      if (localeCompare (id x) (id y) <=? 0)%Z then x :: y :: l'
      else y :: insertById x l'
  end.

Definition sortById (l : list task) : list task := foldr insertById [] l.

(** Batch 0: the tasks whose graph entry is absent or empty. *)
Definition initialBatch (tasks : list task) (g : graph) : list task :=
  List.filter
    (fun t => match g !! id t with
              | None => true
              | Some deps => Nat.eqb (length deps) 0
              end)
    tasks.

(** The next batch: tasks not yet completed whose dependencies all are. *)
Definition nextBatch (tasks : list task) (g : graph) (completed : gset string)
  : list task :=
  List.filter
    (fun t =>
       if bool_decide (id t ∈ completed) then false
       else forallb (fun depId => bool_decide (depId ∈ completed))
                    (graphDeps g (id t)))
    tasks.

(** [currentBatch.forEach(t => completed.add(t.id))] *)
Definition addAll (completed : gset string) (batch : list task) : gset string :=
  fold_left (fun c t => c ∪ {[id t]}) batch completed.

(** The [while (currentBatch.length > 0)] loop.  [None]: the fuel ran out
    before the loop ended. *)
Fixpoint batchLoop (fuel : nat) (tasks : list task) (g : graph)
    (batches : list (list task)) (completed : gset string)
    (currentBatch : list task)
  : option (list (list task) * gset string) :=
  match currentBatch with
  | [] => Some (batches, completed)
  | _ :: _ =>
      match fuel with
      | 0 => None
      | S fuel' =>
          let sorted := sortById currentBatch in
          let batches' := batches ++ [sorted] in
          let completed' := addAll completed sorted in
          batchLoop fuel' tasks g batches' completed'
                    (nextBatch tasks g completed')
      end
  end.

Definition resolveBatchesFuel (fuel : nat) (tasks : list task) (g : graph)
  : option (outcome (list (list task))) :=
  match batchLoop fuel tasks g [] ∅ (initialBatch tasks g) with
  | None => None
  | Some (batches, completed) =>
      if negb (Nat.eqb (size completed) (length tasks)) then
        let missing :=
          List.filter (fun t => negb (bool_decide (id t ∈ completed))) tasks in
        Some (Throw (cyclicDependencyError (map id missing)))
      else Some (Ok batches)
  end.

(** Every pass of the loop completes at least one more task, so one unit of
    fuel per task is enough (see [resolveBatches_total]). *)
Definition resolveBatches (tasks : list task) (g : graph)
  : option (outcome (list (list task))) :=
  resolveBatchesFuel (length tasks) tasks g.

(** [resolve] on tasks that carry their ids: build the graph, then batch. *)
Definition resolve (tasks : list task) : option (outcome (list (list task))) :=
  match buildDependencyGraph tasks with
  | Throw e => Some (Throw e)
  | Ok g => resolveBatches tasks g
  end.

End Batching.

(** The id order used in the examples: code units, lexicographically. *)
Definition codeUnitCompare (a b : string) : Z :=
  match OrdersEx.String_as_OT.compare a b with
  | Lt => (-1)%Z
  | Eq => 0%Z
  | Gt => 1%Z
  end.

(** [x] depends on [y]: some task with id [x] lists [y] as a prerequisite. *)
Definition dependsOn (tasks : list task) (x y : string) : Prop :=
  exists t, t ∈ tasks /\ id t = x /\ y ∈ depsOf t.

Definition knownIds (tasks : list task) : list string := map id tasks.

(** Every prerequisite id is the id of a task of the list. *)
Definition dependenciesKnown (tasks : list task) : Prop :=
  forall t depId, t ∈ tasks -> depId ∈ depsOf t -> depId ∈ knownIds tasks.

(** No task reaches itself along one or more dependency edges. *)
Definition acyclic (tasks : list task) : Prop :=
  forall x, ~ Relation_Operators.clos_trans string (dependsOn tasks) x x.

Example resolve_three_independent :
  resolve codeUnitCompare
    [mkTask "C" None "c"; mkTask "A" (Some []) "a"; mkTask "B" None "b"]
  = Some (Ok [[mkTask "A" (Some []) "a"; mkTask "B" None "b"; mkTask "C" None "c"]]).
Proof. vm_compute. reflexivity. Qed.

Example resolve_chain :
  resolve codeUnitCompare
    [mkTask "C" (Some ["A"; "B"]) "c"; mkTask "B" (Some ["A"]) "b";
     mkTask "A" None "a"; mkTask "D" None "d"]
  = Some (Ok [[mkTask "A" None "a"; mkTask "D" None "d"];
              [mkTask "B" (Some ["A"]) "b"];
              [mkTask "C" (Some ["A"; "B"]) "c"]]).
Proof. vm_compute. reflexivity. Qed.

Example resolve_cycle :
  resolve codeUnitCompare
    [mkTask "A" (Some ["B"]) "a"; mkTask "B" (Some ["A"]) "b"]
  = Some (Throw (cyclicDependencyError ["A"; "B"])).
Proof. vm_compute. reflexivity. Qed.

Example resolve_unknown :
  resolve codeUnitCompare
    [mkTask "A" (Some ["Z"]) "a"; mkTask "B" None "b"]
  = Some (Throw (invalidDependencyError "A" "Z")).
Proof. vm_compute. reflexivity. Qed.

Example resolve_duplicate_ids :
  resolve codeUnitCompare [mkTask "A" None "a1"; mkTask "A" None "a2"]
  = Some (Throw (cyclicDependencyError [])).
Proof. vm_compute. reflexivity. Qed.

(** *** Facts about the graph *)

Lemma graphOf_snoc (l : list task) (t : task) :
  graphOf (l ++ [t]) = <[id t := depsOf t]> (graphOf l).
Proof. unfold graphOf. by rewrite fold_left_app. Qed.

Lemma graphOf_lookup_Some (tasks : list task) (x : string) (deps : list string) :
  graphOf tasks !! x = Some deps ->
  exists t, t ∈ tasks /\ id t = x /\ deps = depsOf t.
Proof.
  induction tasks as [|a l IH] using rev_ind.
  - unfold graphOf. simpl. by rewrite lookup_empty.
  - rewrite graphOf_snoc. destruct (decide (id a = x)) as [Heq|Hne].
    + rewrite Heq, lookup_insert_eq. intros [= <-].
      exists a. split; [|done]. apply elem_of_app. right. by apply list_elem_of_singleton.
    + rewrite lookup_insert_ne by done. intros H.
      destruct (IH H) as (t & Ht & Hid & Hd).
      exists t. split; [|done]. apply elem_of_app. by left.
Qed.

Lemma graphOf_lookup_is_Some (tasks : list task) (x : string) :
  is_Some (graphOf tasks !! x) <-> x ∈ knownIds tasks.
Proof.
  unfold knownIds. split.
  - intros [deps H]. apply graphOf_lookup_Some in H as (t & Ht & Hid & _).
    apply list_elem_of_In, in_map_iff. exists t. split; [done|].
    by apply list_elem_of_In.
  - intros H. apply list_elem_of_In, in_map_iff in H as (t & Hid & Ht).
    apply list_elem_of_In in Ht. revert Ht.
    induction tasks as [|a l IH] using rev_ind.
    + intros Ht. by apply not_elem_of_nil in Ht.
    + intros Ht. rewrite graphOf_snoc.
      destruct (decide (id a = x)) as [Heq|Hne].
      * rewrite Heq, lookup_insert_eq. by eexists.
      * rewrite lookup_insert_ne by done. apply IH.
        apply elem_of_app in Ht as [Ht|Ht]; [done|].
        apply list_elem_of_singleton in Ht. congruence.
Qed.

Lemma graphOf_lookup_NoDup (tasks : list task) (t : task) :
  NoDup (knownIds tasks) -> t ∈ tasks ->
  graphOf tasks !! id t = Some (depsOf t).
Proof.
  unfold knownIds.
  induction tasks as [|a l IH] using rev_ind.
  - intros _ Ht. by apply not_elem_of_nil in Ht.
  - intros Hnd Ht. rewrite graphOf_snoc.
    rewrite map_app in Hnd. apply NoDup_app in Hnd as (Hl & Hdisj & _).
    apply elem_of_app in Ht as [Ht|Ht].
    + assert (id a <> id t) as Hne.
      { intros Heq. apply (Hdisj (id t)).
        - apply list_elem_of_In, in_map. by apply list_elem_of_In.
        - simpl. rewrite Heq. by apply list_elem_of_singleton. }
      rewrite lookup_insert_ne by done. by apply IH.
    + apply list_elem_of_singleton in Ht. subst. by rewrite lookup_insert_eq.
Qed.

Lemma graphDeps_NoDup (tasks : list task) (t : task) :
  NoDup (knownIds tasks) -> t ∈ tasks ->
  graphDeps (graphOf tasks) (id t) = depsOf t.
Proof.
  intros Hnd Ht. unfold graphDeps. by rewrite (graphOf_lookup_NoDup tasks t Hnd Ht).
Qed.

Lemma NoDup_ids_inj (tasks : list task) (t t' : task) :
  NoDup (knownIds tasks) -> t ∈ tasks -> t' ∈ tasks -> id t = id t' -> t = t'.
Proof.
  unfold knownIds. induction tasks as [|a l IH]; intros Hnd Ht Ht' Hid.
  - by apply not_elem_of_nil in Ht.
  - simpl in Hnd. apply NoDup_cons in Hnd as [Ha Hl].
    assert (Hin : forall u, u ∈ l -> id u ∈ map id l).
    { intros u Hu. apply list_elem_of_In, in_map. by apply list_elem_of_In. }
    apply elem_of_cons in Ht as [->|Ht]; apply elem_of_cons in Ht' as [->|Ht'].
    + done.
    + exfalso. apply Ha. rewrite Hid. by apply Hin.
    + exfalso. apply Ha. rewrite <- Hid. by apply Hin.
    + by apply IH.
Qed.

(** *** Facts about sorting a batch *)

Section BatchingFacts.

Variable localeCompare : string -> string -> Z.

Lemma insertById_Permutation (x : task) (l : list task) :
  insertById localeCompare x l ≡ₚ x :: l.
Proof.
  induction l as [|y l IH]; simpl; [done|].
  destruct (localeCompare (id x) (id y) <=? 0)%Z; [done|].
  rewrite IH. apply perm_swap.
Qed.

Lemma sortById_Permutation (l : list task) : sortById localeCompare l ≡ₚ l.
Proof.
  induction l as [|x l IH]; simpl; [done|].
  rewrite insertById_Permutation. by rewrite IH.
Qed.

Lemma sortById_elem_of (l : list task) (t : task) :
  t ∈ sortById localeCompare l <-> t ∈ l.
Proof. by rewrite sortById_Permutation. Qed.

Lemma sortById_nil_inv (l : list task) : sortById localeCompare l = [] -> l = [].
Proof.
  intros H. apply Permutation_nil. rewrite <- H. apply sortById_Permutation.
Qed.

Section Sortedness.

(** A comparator consistent in the sense [Array.prototype.sort] requires:
    any two ids are comparable, and the order is transitive. *)
Hypothesis localeCompare_total :
  forall a b, (localeCompare a b <= 0)%Z \/ (localeCompare b a <= 0)%Z.
Hypothesis localeCompare_trans :
  forall a b c, (localeCompare a b <= 0)%Z -> (localeCompare b c <= 0)%Z ->
                (localeCompare a c <= 0)%Z.

Lemma insertById_sorted (x : task) (l : list task) :
  StronglySorted (idLe localeCompare) l ->
  StronglySorted (idLe localeCompare) (insertById localeCompare x l).
Proof.
  induction l as [|y l IH]; intros Hs; simpl.
  - constructor; [constructor|constructor].
  - apply StronglySorted_inv in Hs as [Hl Hy].
    destruct (localeCompare (id x) (id y) <=? 0)%Z eqn:Hc.
    + apply Z.leb_le in Hc. constructor.
      * by constructor.
      * constructor; [exact Hc|].
        eapply Forall_impl; [exact Hy|]. intros z Hz. unfold idLe in *.
        by eapply localeCompare_trans.
    + apply Z.leb_gt in Hc. constructor; [by apply IH|].
      assert (Hyx : idLe localeCompare y x).
      { unfold idLe. destruct (localeCompare_total (id x) (id y)); [lia|done]. }
      apply Forall_forall. intros z Hz.
      rewrite insertById_Permutation in Hz.
      apply elem_of_cons in Hz as [->|Hz]; [done|].
      rewrite Forall_forall in Hy. by apply Hy.
Qed.

Lemma sortById_sorted (l : list task) :
  StronglySorted (idLe localeCompare) (sortById localeCompare l).
Proof.
  induction l as [|x l IH]; simpl; [constructor|]. by apply insertById_sorted.
Qed.

End Sortedness.

End BatchingFacts.


(** *** Facts about the batching loop *)

Lemma filter_length_lt {A} (p q : A -> bool) (l : list A) (x : A) :
  (forall y, q y = true -> p y = true) ->
  In x l -> p x = true -> q x = false ->
  length (List.filter q l) < length (List.filter p l).
Proof.
  intros Hqp. induction l as [|a l IH]; intros Hin Hp Hq; [destruct Hin|].
  assert (Hle : length (List.filter q l) <= length (List.filter p l)).
  { clear -Hqp. induction l as [|b l IHl]; simpl; [lia|].
    destruct (q b) eqn:Hqb.
    - rewrite (Hqp b Hqb). simpl. lia.
    - destruct (p b); simpl; lia. }
  destruct Hin as [->|Hin]; simpl.
  - rewrite Hp, Hq. simpl. lia.
  - specialize (IH Hin Hp Hq). destruct (q a) eqn:Hqa.
    + rewrite (Hqp a Hqa). simpl. lia.
    + destruct (p a); simpl; lia.
Qed.

Lemma elem_of_addAll (c : gset string) (batch : list task) (x : string) :
  x ∈ addAll c batch <-> x ∈ c \/ x ∈ map id batch.
Proof.
  unfold addAll. revert c. induction batch as [|t batch IH]; intros c; simpl.
  - split; [by left|]. intros [H|H]; [done|]. by apply not_elem_of_nil in H.
  - rewrite IH. rewrite elem_of_union, elem_of_singleton, elem_of_cons. tauto.
Qed.

Section LoopFacts.

Variable localeCompare : string -> string -> Z.
Variable tasks : list task.
Variable g : graph.

Lemma elem_of_nextBatch (c : gset string) (t : task) :
  t ∈ nextBatch tasks g c <->
  t ∈ tasks /\ (id t ∉ c) /\ forall depId, depId ∈ graphDeps g (id t) -> depId ∈ c.
Proof.
  unfold nextBatch. rewrite list_elem_of_In, filter_In, <- list_elem_of_In.
  destruct (bool_decide (id t ∈ c)) eqn:Hc.
  - apply bool_decide_eq_true in Hc. split; [intros [_ [=]]|]. tauto.
  - apply bool_decide_eq_false in Hc. rewrite forallb_forall. split.
    + intros [Ht Hall]. split; [done|]. split; [done|]. intros d Hd.
      apply list_elem_of_In in Hd. eapply bool_decide_eq_true_1, Hall, Hd.
    + intros (Ht & _ & Hall). split; [done|]. intros d Hd.
      apply bool_decide_eq_true_2, Hall. by apply list_elem_of_In.
Qed.

Lemma initialBatch_nextBatch : initialBatch tasks g = nextBatch tasks g ∅.
Proof.
  unfold initialBatch, nextBatch. apply filter_ext. intros t.
  rewrite bool_decide_eq_false_2 by apply not_elem_of_empty.
  unfold graphDeps. destruct (g !! id t) as [[|d deps]|]; simpl; done.
Qed.

Lemma batchLoop_cons (fuel : nat) (bs : list (list task)) (c : gset string)
    (t : task) (rest : list task) :
  batchLoop localeCompare (S fuel) tasks g bs c (t :: rest) =
  batchLoop localeCompare fuel tasks g
    (bs ++ [sortById localeCompare (t :: rest)])
    (addAll c (sortById localeCompare (t :: rest)))
    (nextBatch tasks g (addAll c (sortById localeCompare (t :: rest)))).
Proof. reflexivity. Qed.

(** The number of tasks still to be scheduled. *)
Definition pendingCount (c : gset string) : nat :=
  length (List.filter (fun t => negb (bool_decide (id t ∈ c))) tasks).

Lemma batchLoop_is_Some (fuel : nat) (bs : list (list task)) (c : gset string) :
  pendingCount c <= fuel ->
  is_Some (batchLoop localeCompare fuel tasks g bs c (nextBatch tasks g c)).
Proof.
  revert bs c. induction fuel as [|fuel IH]; intros bs c Hle.
  - destruct (nextBatch tasks g c) as [|t rest] eqn:Hnext; simpl; [by eexists|].
    exfalso. assert (Ht : t ∈ nextBatch tasks g c) by (rewrite Hnext; left).
    apply elem_of_nextBatch in Ht as (Ht & Hc & _).
    unfold pendingCount in Hle.
    assert (Hin : In t (List.filter (fun t => negb (bool_decide (id t ∈ c))) tasks)).
    { apply filter_In. split; [by apply list_elem_of_In|].
      by rewrite bool_decide_eq_false_2. }
    destruct (List.filter _ tasks); [destruct Hin|simpl in Hle; lia].
  - destruct (nextBatch tasks g c) as [|t rest] eqn:Hnext; [by eexists|].
    rewrite batchLoop_cons. apply IH.
    assert (Ht : t ∈ nextBatch tasks g c) by (rewrite Hnext; left).
    apply elem_of_nextBatch in Ht as (Ht & Hc & _).
    set (c' := addAll c (sortById localeCompare (t :: rest))).
    assert (Hc' : id t ∈ c').
    { apply elem_of_addAll. right. apply list_elem_of_In, in_map, list_elem_of_In.
      apply sortById_elem_of. left. }
    assert (Hmono : forall x, x ∈ c -> x ∈ c').
    { intros x Hx. apply elem_of_addAll. by left. }
    unfold pendingCount in *.
    enough (length (List.filter (fun t => negb (bool_decide (id t ∈ c'))) tasks)
            < length (List.filter (fun t => negb (bool_decide (id t ∈ c))) tasks)) by lia.
    apply (filter_length_lt _ _ tasks t).
    + intros y Hy. apply negb_true_iff, bool_decide_eq_false in Hy.
      apply negb_true_iff, bool_decide_eq_false. intros Hyc. by apply Hy, Hmono.
    + by apply list_elem_of_In.
    + by rewrite bool_decide_eq_false_2.
    + by rewrite bool_decide_eq_true_2.
Qed.

(** Induction principle for the loop: a property of (batches, completed)
    kept by one pass holds when the loop ends, and the loop ends only when
    no task is ready. *)
Lemma batchLoop_invariant (P : list (list task) -> gset string -> Prop) :
  (forall bs c,
      P bs c -> nextBatch tasks g c <> [] ->
      P (bs ++ [sortById localeCompare (nextBatch tasks g c)])
        (addAll c (sortById localeCompare (nextBatch tasks g c)))) ->
  forall fuel bs c bs' c',
    P bs c ->
    batchLoop localeCompare fuel tasks g bs c (nextBatch tasks g c) = Some (bs', c') ->
    P bs' c' /\ nextBatch tasks g c' = [].
Proof.
  intros Hstep. induction fuel as [|fuel IH]; intros bs c bs' c' HP Hrun.
  - destruct (nextBatch tasks g c) as [|t rest] eqn:Hnext; simpl in Hrun; [|done].
    injection Hrun as <- <-. done.
  - destruct (nextBatch tasks g c) as [|t rest] eqn:Hnext.
    + injection Hrun as <- <-. done.
    + rewrite batchLoop_cons in Hrun.
      apply IH in Hrun; [done|]. rewrite <- Hnext. apply Hstep; [done|].
      by rewrite Hnext.
Qed.

End LoopFacts.

(** *** What the loop has scheduled *)

Lemma elem_of_ids_concat (bs : list (list task)) (x : string) :
  x ∈ map id (concat bs) <-> exists j b, bs !! j = Some b /\ x ∈ map id b.
Proof.
  induction bs as [|b0 bs IH]; simpl.
  - split; [intros H; by apply not_elem_of_nil in H|]. by intros (j & b & H & _).
  - rewrite map_app, elem_of_app, IH. split.
    + intros [H|(j & b & Hj & Hx)].
      * by exists 0, b0.
      * by exists (S j), b.
    + intros ([|j] & b & Hj & Hx); simpl in Hj.
      * injection Hj as ->. by left.
      * right. by exists j, b.
Qed.

Lemma elem_of_concat_lookup (bs : list (list task)) (i : nat) (b : list task) (t : task) :
  bs !! i = Some b -> t ∈ b -> t ∈ concat bs.
Proof.
  revert i. induction bs as [|b0 bs IH]; intros i Hi Ht; [by rewrite lookup_nil in Hi|].
  simpl. apply elem_of_app. destruct i as [|i]; simpl in Hi.
  - injection Hi as ->. by left.
  - right. by eapply IH.
Qed.

Lemma elem_of_ids (l : list task) (t : task) : t ∈ l -> id t ∈ map id l.
Proof. intros H. apply list_elem_of_In, in_map. by apply list_elem_of_In. Qed.

Lemma elem_of_ids_inv (l : list task) (x : string) :
  x ∈ map id l -> exists t, t ∈ l /\ id t = x.
Proof.
  intros H. apply list_elem_of_In, in_map_iff in H as (t & Hid & Ht).
  exists t. split; [by apply list_elem_of_In|done].
Qed.

Lemma NoDup_ids_filter (f : task -> bool) (l : list task) :
  NoDup (map id l) -> NoDup (map id (List.filter f l)).
Proof.
  induction l as [|a l IH]; simpl; intros Hnd; [constructor|].
  apply NoDup_cons in Hnd as [Ha Hl]. destruct (f a); simpl; [|by apply IH].
  apply NoDup_cons. split; [|by apply IH]. intros Hin. apply Ha.
  apply elem_of_ids_inv in Hin as (t & Ht & Hid). rewrite <- Hid.
  apply elem_of_ids. apply list_elem_of_In in Ht. apply filter_In in Ht as [Ht _].
  by apply list_elem_of_In.
Qed.

Section Scheduled.

Variable localeCompare : string -> string -> Z.
Variable tasks : list task.
Variable g : graph.

(** The state of the loop between two passes: [completed] holds the ids of
    the scheduled tasks, which are tasks of the list; every graph
    dependency of a scheduled task sits in a strictly earlier batch; and no
    id sits in two batches. *)
Definition scheduled (bs : list (list task)) (c : gset string) : Prop :=
  (forall x, x ∈ c <-> x ∈ map id (concat bs)) /\
  (forall t, t ∈ concat bs -> t ∈ tasks) /\
  (forall i b t depId,
      bs !! i = Some b -> t ∈ b -> depId ∈ graphDeps g (id t) ->
      exists j b', j < i /\ bs !! j = Some b' /\ depId ∈ map id b') /\
  (forall i j b b' t t',
      bs !! i = Some b -> bs !! j = Some b' -> t ∈ b -> t' ∈ b' ->
      id t = id t' -> i = j) /\
  (NoDup (knownIds tasks) -> NoDup (map id (concat bs))).

Lemma scheduled_start : scheduled [] ∅.
Proof.
  split; [|split; [|split; [|split]]]; simpl.
  - intros x. split; intros H.
    + by apply not_elem_of_empty in H.
    + by apply not_elem_of_nil in H.
  - intros t H. by apply not_elem_of_nil in H.
  - intros i b t d Hi. by rewrite lookup_nil in Hi.
  - intros i j b b' t t' Hi. by rewrite lookup_nil in Hi.
  - intros _. constructor.
Qed.

Lemma concat_snoc (bs : list (list task)) (b : list task) :
  concat (bs ++ [b]) = concat bs ++ b.
Proof. rewrite concat_app. simpl. by rewrite app_nil_r. Qed.

Lemma scheduled_step (bs : list (list task)) (c : gset string) :
  scheduled bs c ->
  scheduled (bs ++ [sortById localeCompare (nextBatch tasks g c)])
            (addAll c (sortById localeCompare (nextBatch tasks g c))).
Proof.
  intros (Hc & Hsub & Hdeps & Huniq & Hnd).
  set (nb := sortById localeCompare (nextBatch tasks g c)).
  assert (Hnb : forall t, t ∈ nb ->
            t ∈ tasks /\ (id t ∉ c) /\
            forall depId, depId ∈ graphDeps g (id t) -> depId ∈ c).
  { intros t Ht. apply elem_of_nextBatch. by apply (sortById_elem_of localeCompare). }
  assert (Hlast : forall i b, (bs ++ [nb]) !! i = Some b ->
            bs !! i = Some b \/ (i = length bs /\ b = nb)).
  { intros i b Hi. apply lookup_app_Some in Hi as [Hi|[Hlen Hi]]; [by left|right].
    destruct (i - length bs) as [|k] eqn:Hk; simpl in Hi; [|done].
    injection Hi as <-. split; [lia|done]. }
  assert (Hold : forall i b t, bs !! i = Some b -> t ∈ b -> id t ∈ c).
  { intros i b t Hi Ht. apply Hc, elem_of_ids_concat. exists i, b.
    split; [done|]. by apply elem_of_ids. }
  split; [|split; [|split; [|split]]].
  - intros x. rewrite elem_of_addAll, concat_snoc, map_app, elem_of_app, Hc. done.
  - intros t. rewrite concat_snoc, elem_of_app. intros [Ht|Ht]; [by apply Hsub|].
    by apply Hnb.
  - intros i b t d Hi Ht Hd. apply Hlast in Hi as [Hi|[-> ->]].
    + destruct (Hdeps i b t d Hi Ht Hd) as (j & b' & Hj & Hb' & Hin).
      exists j, b'. split; [done|]. split; [|done].
      by apply lookup_app_l_Some.
    + destruct (Hnb t Ht) as (_ & _ & Hall).
      apply Hall, Hc, elem_of_ids_concat in Hd as (j & b' & Hj & Hin).
      exists j, b'. split; [by eapply lookup_lt_Some|].
      split; [by apply lookup_app_l_Some|done].
  - intros i j b b' t t' Hi Hj Ht Ht' Hid.
    apply Hlast in Hi as [Hi|[-> ->]]; apply Hlast in Hj as [Hj|[-> ->]].
    + by eapply Huniq.
    + exfalso. destruct (Hnb t' Ht') as (_ & Hnc & _). apply Hnc.
      rewrite <- Hid. by eapply Hold.
    + exfalso. destruct (Hnb t Ht) as (_ & Hnc & _). apply Hnc.
      rewrite Hid. by eapply Hold.
    + done.
  - intros Hids. rewrite concat_snoc, map_app. apply NoDup_app.
    split; [by apply Hnd|]. split.
    + intros x Hx Hx'. apply Hc in Hx.
      apply elem_of_ids_inv in Hx' as (t & Ht & <-).
      by destruct (Hnb t Ht) as (_ & Hnc & _).
    + unfold nb. rewrite (sortById_Permutation localeCompare).
      by apply NoDup_ids_filter.
Qed.

Lemma batchLoop_scheduled (fuel : nat) (bs : list (list task)) (c : gset string) :
  batchLoop localeCompare fuel tasks g [] ∅ (initialBatch tasks g) = Some (bs, c) ->
  scheduled bs c /\ nextBatch tasks g c = [].
Proof.
  rewrite initialBatch_nextBatch. intros Hrun.
  apply (batchLoop_invariant localeCompare tasks g scheduled) in Hrun; [done| |].
  - intros bs0 c0 H0 _. by apply scheduled_step.
  - apply scheduled_start.
Qed.

Section SortedBatches.

Hypothesis localeCompare_total :
  forall a b, (localeCompare a b <= 0)%Z \/ (localeCompare b a <= 0)%Z.
Hypothesis localeCompare_trans :
  forall a b c, (localeCompare a b <= 0)%Z -> (localeCompare b c <= 0)%Z ->
                (localeCompare a c <= 0)%Z.

Lemma batchLoop_sorted (fuel : nat) (bs : list (list task)) (c : gset string) :
  batchLoop localeCompare fuel tasks g [] ∅ (initialBatch tasks g) = Some (bs, c) ->
  Forall (StronglySorted (idLe localeCompare)) bs.
Proof.
  rewrite initialBatch_nextBatch. intros Hrun.
  apply (batchLoop_invariant localeCompare tasks g
           (fun bs _ => Forall (StronglySorted (idLe localeCompare)) bs)) in Hrun.
  - by destruct Hrun.
  - intros bs0 c0 H0 _. apply Forall_app. split; [done|].
    apply Forall_singleton. by apply sortById_sorted.
  - constructor.
Qed.

End SortedBatches.

End Scheduled.

(** *** Cycles *)

(** In a non-empty finite set whose every member has a successor in the
    set, a transitive relation relates some member to itself. *)
Lemma total_successor_cycle {A} (T : A -> A -> Prop) :
  (forall x y z, T x y -> T y z -> T x z) ->
  forall U : list A,
    U <> [] ->
    (forall x, x ∈ U -> exists y, y ∈ U /\ T x y) ->
    exists x, T x x.
Proof.
  intros Htrans U. induction U as [|x U IH]; intros Hne Hsucc; [done|].
  destruct (Hsucc x) as (w & Hw & Hxw); [left|].
  apply elem_of_cons in Hw as [->|Hw]; [by exists x|].
  apply IH.
  - intros ->. by apply not_elem_of_nil in Hw.
  - intros y Hy. destruct (Hsucc y) as (z & Hz & Hyz); [by right|].
    apply elem_of_cons in Hz as [->|Hz].
    + exists w. split; [done|]. by eapply Htrans.
    + by exists z.
Qed.

Lemma clos_trans_self_step {A} (R : A -> A -> Prop) (x : A) :
  Relation_Operators.clos_trans A R x x ->
  exists y, R x y /\ Relation_Operators.clos_trans A R y y.
Proof.
  intros H. apply Operators_Properties.clos_trans_t1n in H.
  inversion H as [y Hxy|y z Hxy Hyx]; subst.
  - exists x. split; [done|]. by apply Relation_Operators.t_step.
  - exists y. split; [done|].
    apply Operators_Properties.clos_t1n_trans in Hyx.
    eapply Relation_Operators.t_trans; [exact Hyx|].
    by apply Relation_Operators.t_step.
Qed.

Lemma NoDup_of_ids (l : list task) : NoDup (map id l) -> NoDup l.
Proof.
  induction l as [|a l IH]; simpl; intros Hnd; [constructor|].
  apply NoDup_cons in Hnd as [Ha Hl]. apply NoDup_cons. split; [|by apply IH].
  intros Hin. apply Ha. by apply elem_of_ids.
Qed.

Lemma size_list_to_set_le (l : list string) :
  size (list_to_set l : gset string) <= length l.
Proof.
  induction l as [|x l IH].
  - rewrite list_to_set_nil, size_empty. simpl. lia.
  - rewrite list_to_set_cons, size_union_alt, size_singleton. simpl.
    assert (size (list_to_set l ∖ {[x]} : gset string)
            <= size (list_to_set l : gset string)).
    { apply subseteq_size. set_solver. }
    lia.
Qed.

Section Outcome.

Variable localeCompare : string -> string -> Z.
Variable tasks : list task.

Lemma resolveBatches_total (g : graph) :
  is_Some (resolveBatches localeCompare tasks g).
Proof.
  unfold resolveBatches, resolveBatchesFuel.
  destruct (batchLoop_is_Some localeCompare tasks g (length tasks) [] ∅) as [[bs c] Hrun].
  { unfold pendingCount. apply filter_length_le. }
  rewrite initialBatch_nextBatch, Hrun.
  destruct (negb _); by eexists.
Qed.

(** A task the loop left out makes the final size check fail. *)
Lemma unscheduled_size (g : graph) (bs : list (list task)) (c : gset string) (t : task) :
  scheduled tasks g bs c -> t ∈ tasks -> id t ∉ c ->
  size c <> length tasks.
Proof.
  intros (Hc & Hsub & _) Ht Hnc.
  assert (Hss : c ⊂ list_to_set (knownIds tasks)).
  { split.
    - intros x Hx. apply elem_of_list_to_set. apply Hc in Hx.
      apply elem_of_ids_inv in Hx as (u & Hu & <-). apply elem_of_ids. by apply Hsub.
    - intros Hsup. apply Hnc, Hsup, elem_of_list_to_set. by apply elem_of_ids. }
  apply subset_size in Hss.
  pose proof (size_list_to_set_le (knownIds tasks)) as Hle.
  unfold knownIds in Hle. rewrite length_map in Hle. unfold knownIds in Hss. lia.
Qed.

(** With distinct ids, once every task is scheduled the batches are a
    rearrangement of the task list and the size check passes. *)
Lemma all_scheduled (g : graph) (bs : list (list task)) (c : gset string) :
  NoDup (knownIds tasks) ->
  scheduled tasks g bs c ->
  (forall t, t ∈ tasks -> id t ∈ c) ->
  size c = length tasks /\ concat bs ≡ₚ tasks.
Proof.
  intros Hids (Hc & Hsub & _ & _ & Hnd) Hall. split.
  - assert (Heq : c = list_to_set (knownIds tasks)).
    { apply set_eq. intros x. rewrite elem_of_list_to_set. split.
      - intros Hx. apply Hc in Hx.
        apply elem_of_ids_inv in Hx as (u & Hu & <-). apply elem_of_ids. by apply Hsub.
      - intros Hx. apply elem_of_ids_inv in Hx as (u & Hu & <-). by apply Hall. }
    rewrite Heq, size_list_to_set by done. unfold knownIds. by rewrite length_map.
  - apply NoDup_Permutation.
    + apply NoDup_of_ids. by apply Hnd.
    + by apply NoDup_of_ids.
    + intros t. split; [by apply Hsub|]. intros Ht.
      pose proof (Hall t Ht) as Hin. apply Hc in Hin.
      apply elem_of_ids_inv in Hin as (u & Hu & Hid).
      by rewrite <- (NoDup_ids_inj tasks u t Hids (Hsub u Hu) Ht Hid).
Qed.

(** With distinct, known and acyclic dependencies, the loop stops only when
    every task has been scheduled. *)
Lemma acyclic_all_ready (c : gset string) :
  NoDup (knownIds tasks) -> dependenciesKnown tasks -> acyclic tasks ->
  nextBatch tasks (graphOf tasks) c = [] ->
  forall t, t ∈ tasks -> id t ∈ c.
Proof.
  intros Hids Hknown Hacyc Hnext t0 Ht0.
  destruct (decide (id t0 ∈ c)) as [|Hnc]; [done|exfalso].
  set (U := filter (fun x => x ∉ c) (knownIds tasks)).
  destruct (total_successor_cycle
              (Relation_Operators.clos_trans string (dependsOn tasks))
              (fun x y z => Relation_Operators.t_trans _ _ x y z) U) as [x Hx].
  - intros HU. assert (Hin : id t0 ∈ U).
    { apply list_elem_of_filter. split; [done|]. by apply elem_of_ids. }
    rewrite HU in Hin. by apply not_elem_of_nil in Hin.
  - intros x Hx. apply list_elem_of_filter in Hx as [Hxc Hx].
    apply elem_of_ids_inv in Hx as (t & Ht & <-).
    destruct (decide (Forall (fun d => d ∈ c) (depsOf t))) as [Hall|Hnall].
    + exfalso. assert (Hin : t ∈ nextBatch tasks (graphOf tasks) c).
      { apply elem_of_nextBatch. split; [done|]. split; [done|].
        rewrite (graphDeps_NoDup tasks t Hids Ht). by apply Forall_forall. }
      rewrite Hnext in Hin. by apply not_elem_of_nil in Hin.
    + apply not_Forall_Exists in Hnall; [|apply _].
      apply Exists_exists in Hnall as (d & Hd & Hdc). simpl in Hdc.
      exists d. split.
      * apply list_elem_of_filter. split; [done|]. by eapply Hknown.
      * apply Relation_Operators.t_step. by exists t.
  - by apply (Hacyc x).
Qed.

(** A task on a dependency cycle is never scheduled. *)
Lemma cycle_never_scheduled (fuel : nat) (bs : list (list task)) (c : gset string) :
  NoDup (knownIds tasks) ->
  batchLoop localeCompare fuel tasks (graphOf tasks) [] ∅
            (initialBatch tasks (graphOf tasks)) = Some (bs, c) ->
  forall x, Relation_Operators.clos_trans string (dependsOn tasks) x x -> x ∉ c.
Proof.
  intros Hids. rewrite initialBatch_nextBatch. intros Hrun.
  apply (batchLoop_invariant localeCompare tasks (graphOf tasks)
           (fun _ c => forall x,
                Relation_Operators.clos_trans string (dependsOn tasks) x x -> x ∉ c))
    in Hrun; [by destruct Hrun| |].
  - intros bs0 c0 Hinv _ x Hcyc Hx.
    apply elem_of_addAll in Hx as [Hx|Hx]; [by apply (Hinv x)|].
    apply elem_of_ids_inv in Hx as (t & Ht & <-).
    apply (sortById_elem_of localeCompare), elem_of_nextBatch in Ht as (Ht & _ & Hall).
    apply clos_trans_self_step in Hcyc as (y & (t' & Ht' & Hid & Hy) & Hcyc).
    rewrite (NoDup_ids_inj tasks t' t Hids Ht' Ht Hid) in Hy.
    apply (Hinv y Hcyc), Hall. by rewrite (graphDeps_NoDup tasks t Hids Ht).
  - intros x _. apply not_elem_of_empty.
Qed.

End Outcome.

(** *** Validation of the graph *)

Lemma firstInvalid_Some (g : graph) (l : list task) (x depId : string) :
  firstInvalid g l = Some (x, depId) ->
  exists t, t ∈ l /\ id t = x /\ depId ∈ graphDeps g x /\ g !! depId = None.
Proof.
  induction l as [|a l IH]; simpl; [done|].
  destruct (find _ (graphDeps g (id a))) as [d|] eqn:Hfind.
  - intros [= <- <-]. apply find_some in Hfind as [Hin Hb].
    exists a. split; [left|]. split; [done|]. split; [by apply list_elem_of_In|].
    apply negb_true_iff, bool_decide_eq_false in Hb.
    by apply eq_None_not_Some.
  - intros H. destruct (IH H) as (t & Ht & Hrest). exists t. split; [by right|done].
Qed.

Lemma firstInvalid_None (g : graph) (l : list task) :
  firstInvalid g l = None <->
  forall t depId, t ∈ l -> depId ∈ graphDeps g (id t) -> is_Some (g !! depId).
Proof.
  induction l as [|a l IH]; simpl.
  - split; [|done]. intros _ t d Ht. by apply not_elem_of_nil in Ht.
  - destruct (find _ (graphDeps g (id a))) as [d|] eqn:Hfind.
    + split; [done|]. intros Hall. exfalso.
      apply find_some in Hfind as [Hin Hb].
      apply negb_true_iff, bool_decide_eq_false in Hb. apply Hb.
      apply (Hall a d); [left|by apply list_elem_of_In].
    + rewrite IH. split.
      * intros Hall t d Ht Hd. apply elem_of_cons in Ht as [->|Ht]; [|by eapply Hall].
        apply list_elem_of_In in Hd.
        pose proof (find_none _ _ Hfind d Hd) as Hb. simpl in Hb.
        apply negb_false_iff in Hb. by eapply bool_decide_eq_true_1.
      * intros Hall t d Ht Hd. apply (Hall t d); [by right|done].
Qed.

Lemma buildDependencyGraph_known (tasks : list task) :
  NoDup (knownIds tasks) -> dependenciesKnown tasks ->
  buildDependencyGraph tasks = Ok (graphOf tasks).
Proof.
  intros Hids Hknown. unfold buildDependencyGraph.
  assert (H : firstInvalid (graphOf tasks) tasks = None).
  { apply firstInvalid_None. intros t d Ht Hd.
    rewrite (graphDeps_NoDup tasks t Hids Ht) in Hd.
    apply graphOf_lookup_is_Some. by eapply Hknown. }
  by rewrite H.
Qed.

(** A ranking that strictly decreases along every dependency rules out
    cycles. *)
Lemma ranked_acyclic (tasks : list task) (rank : string -> nat) :
  (forall x y, dependsOn tasks x y -> rank y < rank x) -> acyclic tasks.
Proof.
  intros Hrank x Hcyc.
  assert (H : forall a b, clos_trans string (dependsOn tasks) a b -> rank b < rank a).
  { intros a b Hab. induction Hab as [a b Hab|a b c _ IH1 _ IH2]; [by apply Hrank|lia]. }
  specialize (H x x Hcyc). lia.
Qed.

Lemma codeUnitCompare_le (a b : string) :
  (codeUnitCompare a b <= 0)%Z <-> a = b \/ String_as_OT.lt a b.
Proof.
  unfold codeUnitCompare.
  destruct (String_as_OT.compare_spec a b) as [Heq|Hlt|Hgt].
  - split; [by left|lia].
  - split; [by right|lia].
  - split; [lia|]. intros [->|Hlt]; exfalso.
    + by apply (StrictOrder_Irreflexive b).
    + apply (StrictOrder_Irreflexive a). by etransitivity.
Qed.

Lemma codeUnitCompare_total (a b : string) :
  (codeUnitCompare a b <= 0)%Z \/ (codeUnitCompare b a <= 0)%Z.
Proof.
  rewrite !codeUnitCompare_le.
  destruct (String_as_OT.compare_spec a b) as [Heq|Hlt|Hgt]; tauto.
Qed.

Lemma codeUnitCompare_trans (a b c : string) :
  (codeUnitCompare a b <= 0)%Z -> (codeUnitCompare b c <= 0)%Z ->
  (codeUnitCompare a c <= 0)%Z.
Proof.
  rewrite !codeUnitCompare_le. intros [->|Hab] [->|Hbc]; try tauto.
  right. by etransitivity.
Qed.

(** *** The batching theorems *)


Definition chainTasks : list task :=
  [ mkTask "C" (Some ["A"; "B"]) "c"; mkTask "B" (Some ["A"]) "b";
    mkTask "A" None "a"; mkTask "D" None "d" ].

Definition chainRank (x : string) : nat :=
  if String.eqb x "C" then 2 else if String.eqb x "B" then 1 else 0.

Lemma chainTasks_ids_distinct : NoDup (knownIds chainTasks).
Proof.
  unfold knownIds, chainTasks. simpl.
  repeat (apply NoDup_cons; split; [set_solver|]). constructor.
Qed.

Lemma chainTasks_known : dependenciesKnown chainTasks.
Proof.
  intros t d Ht Hd. unfold chainTasks, knownIds in *. simpl.
  repeat (apply elem_of_cons in Ht as [->|Ht]); simpl in Hd;
    try (by apply not_elem_of_nil in Ht); set_solver.
Qed.

Lemma chainTasks_acyclic : acyclic chainTasks.
Proof.
  apply (ranked_acyclic chainTasks chainRank).
  intros x y (t & Ht & <- & Hd). unfold chainTasks in Ht.
  repeat (apply elem_of_cons in Ht as [->|Ht]); simpl in Hd;
    try (by apply not_elem_of_nil in Ht);
    repeat (apply elem_of_cons in Hd as [->|Hd]);
    try (by apply not_elem_of_nil in Hd); vm_compute; lia.
Qed.




Definition cycleTasks : list task :=
  [ mkTask "A" (Some ["B"]) "a"; mkTask "B" (Some ["A"]) "b" ].



(** *** When the resolver succeeds *)

Lemma size_list_to_set_NoDup (l : list string) :
  size (list_to_set l : gset string) = length l -> NoDup l.
Proof.
  induction l as [|x l IH]; [constructor|].
  rewrite list_to_set_cons. cbn [length]. intros Hsize.
  pose proof (size_list_to_set_le l) as Hle.
  destruct (decide (x ∈ l)) as [Hin|Hnin].
  - exfalso.
    assert (Heq : ({[x]} ∪ list_to_set l : gset string) = list_to_set l).
    { apply set_eq. intros y. rewrite elem_of_union, elem_of_singleton,
        elem_of_list_to_set. split; [intros [->|?]; done|by right]. }
    rewrite Heq in Hsize. lia.
  - rewrite size_union, size_singleton in Hsize.
    + apply NoDup_cons. split; [done|]. apply IH. lia.
    + intros y Hy Hy'. apply elem_of_singleton in Hy as ->.
      by apply elem_of_list_to_set in Hy'.
Qed.

Section Success.

Variable localeCompare : string -> string -> Z.
Variable tasks : list task.

Lemma resolve_total : is_Some (resolve localeCompare tasks).
Proof.
  unfold resolve. destruct (buildDependencyGraph tasks); [|by eexists].
  apply resolveBatches_total.
Qed.

(** What a successful run went through. *)
Lemma resolve_Ok_inv (batches : list (list task)) :
  resolve localeCompare tasks = Some (Ok batches) ->
  exists c,
    firstInvalid (graphOf tasks) tasks = None /\
    batchLoop localeCompare (length tasks) tasks (graphOf tasks) [] ∅
              (initialBatch tasks (graphOf tasks)) = Some (batches, c) /\
    size c = length tasks.
Proof.
  unfold resolve, buildDependencyGraph.
  destruct (firstInvalid (graphOf tasks) tasks) as [[x d]|] eqn:Hinv; [done|].
  unfold resolveBatches, resolveBatchesFuel.
  destruct (batchLoop _ _ _ _ _ _ _) as [[bs c]|] eqn:Hrun; [|done].
  destruct (Nat.eqb (size c) (length tasks)) eqn:Hsize; simpl; [|done].
  intros [= <-]. exists c. split; [done|]. split; [done|].
  by apply Nat.eqb_eq.
Qed.

(** A successful run had pairwise distinct ids and completed every task. *)
Lemma resolve_Ok_distinct (batches : list (list task)) (c : gset string) :
  scheduled tasks (graphOf tasks) batches c ->
  size c = length tasks ->
  NoDup (knownIds tasks) /\ forall t, t ∈ tasks -> id t ∈ c.
Proof.
  intros Hsched Hsize.
  assert (Hall : forall t, t ∈ tasks -> id t ∈ c).
  { intros t Ht. destruct (decide (id t ∈ c)) as [|Hnc]; [done|].
    by destruct (unscheduled_size tasks _ _ _ t Hsched Ht Hnc). }
  split; [|done].
  destruct Hsched as (Hc & Hsub & _).
  assert (Heq : c = list_to_set (knownIds tasks)).
  { apply set_eq. intros x. rewrite elem_of_list_to_set. split.
    - intros Hx. apply Hc in Hx.
      apply elem_of_ids_inv in Hx as (u & Hu & <-). apply elem_of_ids. by apply Hsub.
    - intros Hx. apply elem_of_ids_inv in Hx as (u & Hu & <-). by apply Hall. }
  apply size_list_to_set_NoDup. rewrite <- Heq, Hsize.
  unfold knownIds. by rewrite length_map.
Qed.

End Success.

Lemma resolve_Ok_iff
    (localeCompare : string -> string -> Z) (tasks : list task) :
  (exists batches, resolve localeCompare tasks = Some (Ok batches))
  <-> NoDup (knownIds tasks) /\ dependenciesKnown tasks /\ acyclic tasks.
Proof.
  split.
  - intros [batches Hres].
    apply resolve_Ok_inv in Hres as (c & Hvalid & Hrun & Hsize).
    pose proof (batchLoop_scheduled _ _ _ _ _ _ Hrun) as [Hsched _].
    destruct (resolve_Ok_distinct tasks batches c Hsched Hsize) as [Hids Hall].
    split; [done|]. split.
    + intros t d Ht Hd. apply graphOf_lookup_is_Some.
      apply (proj1 (firstInvalid_None _ _) Hvalid t d Ht).
      by rewrite (graphDeps_NoDup tasks t Hids Ht).
    + intros x Hcyc.
      apply (cycle_never_scheduled localeCompare tasks _ _ _ Hids Hrun x Hcyc).
      apply clos_trans_self_step in Hcyc as (y & (t & Ht & <- & _) & _).
      by apply Hall.
  - intros (Hids & Hknown & Hacyc).
    unfold resolve. rewrite (buildDependencyGraph_known tasks Hids Hknown).
    unfold resolveBatches, resolveBatchesFuel.
    destruct (batchLoop_is_Some localeCompare tasks (graphOf tasks) (length tasks) [] ∅)
      as [[bs c] Hrun].
    { unfold pendingCount. apply filter_length_le. }
    rewrite <- initialBatch_nextBatch in Hrun. rewrite Hrun.
    apply batchLoop_scheduled in Hrun as [Hsched Hnext].
    pose proof (acyclic_all_ready tasks c Hids Hknown Hacyc Hnext) as Hall.
    destruct (all_scheduled tasks _ bs c Hids Hsched Hall) as [Hsize _].
    rewrite Hsize, Nat.eqb_refl. by exists bs.
Qed.


(** *** The shape of the batches *)

Section Shape.

Variable localeCompare : string -> string -> Z.
Variable tasks : list task.
Variable g : graph.

Lemma batchLoop_nonempty (fuel : nat) (bs : list (list task)) (c : gset string) :
  batchLoop localeCompare fuel tasks g [] ∅ (initialBatch tasks g) = Some (bs, c) ->
  Forall (fun b => b <> []) bs.
Proof.
  rewrite initialBatch_nextBatch. intros Hrun.
  apply (batchLoop_invariant localeCompare tasks g
           (fun bs _ => Forall (fun b => b <> []) bs)) in Hrun; [by destruct Hrun| |].
  - intros bs0 c0 Hinv Hne. apply Forall_app. split; [done|].
    apply Forall_singleton. intros Hnil. by apply sortById_nil_inv in Hnil.
  - constructor.
Qed.

(** The batch before last is what made the tasks of the last batch ready. *)
Definition pacedBy (bs : list (list task)) (c : gset string) : Prop :=
  (forall i b t,
      bs !! S i = Some b -> t ∈ b ->
      exists b' depId, bs !! i = Some b' /\ depId ∈ graphDeps g (id t)
                       /\ depId ∈ map id b') /\
  (forall bs0 final,
      bs = bs0 ++ [final] ->
      forall t, t ∈ tasks -> id t ∉ c ->
        (forall depId, depId ∈ graphDeps g (id t) -> depId ∈ c) ->
        exists depId, depId ∈ graphDeps g (id t) /\ depId ∈ map id final).

Lemma not_ready_has_open_dependency (c : gset string) (t : task) :
  t ∈ tasks -> id t ∉ c -> t ∉ nextBatch tasks g c ->
  exists depId, depId ∈ graphDeps g (id t) /\ depId ∉ c.
Proof.
  intros Ht Hc Hnot.
  destruct (decide (Forall (fun d => d ∈ c) (graphDeps g (id t)))) as [Hall|Hnall].
  - exfalso. apply Hnot, elem_of_nextBatch. split; [done|]. split; [done|].
    by apply Forall_forall.
  - apply not_Forall_Exists in Hnall; [|apply _].
    apply Exists_exists in Hnall as (d & Hd & Hdc). by exists d.
Qed.

Lemma batchLoop_paced (fuel : nat) (bs : list (list task)) (c : gset string) :
  batchLoop localeCompare fuel tasks g [] ∅ (initialBatch tasks g) = Some (bs, c) ->
  pacedBy bs c.
Proof.
  rewrite initialBatch_nextBatch. intros Hrun.
  apply (batchLoop_invariant localeCompare tasks g pacedBy) in Hrun;
    [by destruct Hrun| |].
  - intros bs0 c0 [Hpaced Hfinal] Hne.
    set (batch := sortById localeCompare (nextBatch tasks g c0)).
    assert (Hin : forall t, t ∈ batch <-> t ∈ nextBatch tasks g c0)
      by (intros t; apply sortById_elem_of).
    split.
    + intros i b t Hi Ht.
      destruct (decide (S i < length bs0)) as [Hlt|Hge].
      * rewrite lookup_app_l in Hi by done.
        destruct (Hpaced i b t Hi Ht) as (b' & d & Hb' & Hd).
        exists b', d. split; [|done]. rewrite lookup_app_l by lia. done.
      * assert (Hlen : S i = length bs0).
        { apply lookup_lt_Some in Hi. rewrite length_app in Hi. simpl in Hi. lia. }
        rewrite lookup_app_r, Hlen, Nat.sub_diag in Hi by lia.
        injection Hi as <-.
        destruct (lookup_lt_is_Some_2 bs0 i) as [final Hfin]; [lia|].
        assert (Hsplit : bs0 = take i bs0 ++ [final]).
        { rewrite <- (take_drop i bs0) at 1. f_equal.
          rewrite (drop_S _ _ _ Hfin), drop_ge by lia. done. }
        apply Hin, elem_of_nextBatch in Ht as (Ht & Hc0 & Hall).
        destruct (Hfinal _ _ Hsplit t Ht Hc0 Hall) as (d & Hd & Hdin).
        exists final, d. split; [|done]. rewrite lookup_app_l by lia. done.
    + intros bs1 final Heq t Ht Hc Hall.
      apply app_inj_tail in Heq as [<- <-].
      assert (Hc0 : id t ∉ c0).
      { intros Hx. apply Hc, elem_of_addAll. by left. }
      assert (Hnot : t ∉ nextBatch tasks g c0).
      { intros Hx. apply Hc, elem_of_addAll. right. apply elem_of_ids. by apply Hin. }
      destruct (not_ready_has_open_dependency c0 t Ht Hc0 Hnot) as (d & Hd & Hdc).
      exists d. split; [done|].
      specialize (Hall d Hd). apply elem_of_addAll in Hall as [?|?]; done.
  - split.
    + intros i b t Hi. by rewrite lookup_nil in Hi.
    + intros bs0 final Heq. by destruct bs0.
Qed.

End Shape.

Lemma concat_length_ge {A} (bs : list (list A)) :
  Forall (fun b => b <> []) bs -> length bs <= length (concat bs).
Proof.
  induction 1 as [|b bs Hb _ IH]; [done|].
  simpl. rewrite length_app. destruct b; [done|]. simpl. lia.
Qed.

(** No batch the resolver returns is empty, and there are at most as many
    batches as tasks. *)
Theorem resolve_batches_nonempty
    (localeCompare : string -> string -> Z) (tasks : list task)
    (batches : list (list task)) :
  resolve localeCompare tasks = Some (Ok batches) ->
  Forall (fun b => b <> []) batches /\ length batches <= length tasks.
Proof.
  intros Hres. apply resolve_Ok_inv in Hres as (c & _ & Hrun & Hsize).
  pose proof (batchLoop_nonempty _ _ _ _ _ _ Hrun) as Hne.
  split; [done|].
  pose proof (batchLoop_scheduled _ _ _ _ _ _ Hrun) as [Hsched _].
  destruct (resolve_Ok_distinct tasks batches c Hsched Hsize) as [Hids Hall].
  destruct (all_scheduled tasks _ batches c Hids Hsched Hall) as [_ Hperm].
  rewrite <- (Permutation_length Hperm). by apply concat_length_ge.
Qed.

Lemma resolve_batches_nonempty_witness :
  exists batches,
    resolve codeUnitCompare chainTasks = Some (Ok batches) /\
    Forall (fun b => b <> []) batches /\ length batches <= length chainTasks.
Proof.
  eexists. split; [vm_compute; reflexivity|].
  apply (resolve_batches_nonempty codeUnitCompare chainTasks).
  vm_compute. reflexivity.
Defined.

(** Every task runs as early as its prerequisites allow: the first batch
    holds exactly the tasks without prerequisites, and a task of any later
    batch has a prerequisite in the batch just before it. *)
Theorem resolve_schedules_as_early_as_possible
    (localeCompare : string -> string -> Z) (tasks : list task)
    (batches : list (list task)) :
  resolve localeCompare tasks = Some (Ok batches) ->
  (forall b t, batches !! 0 = Some b -> t ∈ b <-> t ∈ tasks /\ depsOf t = []) /\
  (forall i b t,
     batches !! S i = Some b -> t ∈ b ->
     exists b' t', batches !! i = Some b' /\ t' ∈ b' /\ id t' ∈ depsOf t).
Proof.
  intros Hres. apply resolve_Ok_inv in Hres as (c & _ & Hrun & Hsize).
  pose proof (batchLoop_scheduled _ _ _ _ _ _ Hrun) as [Hsched _].
  destruct (resolve_Ok_distinct tasks batches c Hsched Hsize) as [Hids Hall].
  pose proof (batchLoop_paced _ _ _ _ _ _ Hrun) as [Hpaced _].
  split.
  - intros b t Hb.
    assert (Hfirst : forall u, u ∈ b <-> u ∈ initialBatch tasks (graphOf tasks)).
    { destruct (initialBatch tasks (graphOf tasks)) as [|t0 rest] eqn:Hinit.
      - destruct (length tasks); simpl in Hrun; injection Hrun as <- _; done.
      - destruct (length tasks) as [|fuel] eqn:Hlen.
        + apply nil_length_inv in Hlen. subst tasks. done.
        + rewrite batchLoop_cons in Hrun.
          assert (Hpre : forall fuel bs c cur bs' c',
                     batchLoop localeCompare fuel tasks (graphOf tasks) bs c cur
                       = Some (bs', c') -> bs `prefix_of` bs').
          { clear. intros fuel. induction fuel as [|fuel IH]; intros bs c cur bs' c'.
            - destruct cur; simpl; [|done]. by intros [= <- _].
            - destruct cur as [|t rest]; simpl; [by intros [= <- _]|].
              intros H. apply IH in H. etransitivity; [|exact H].
              by apply prefix_app_r. }
          apply Hpre in Hrun as [k ->].
          assert (Hb' : Some (sortById localeCompare (t0 :: rest)) = Some b)
            by exact Hb.
          apply (inj Some) in Hb'. subst b.
          intros u. apply sortById_elem_of. }
    rewrite Hfirst. unfold initialBatch. rewrite list_elem_of_In, filter_In,
      <- list_elem_of_In.
    split.
    + intros [Ht Hempty]. split; [done|].
      rewrite (graphOf_lookup_NoDup tasks t Hids Ht) in Hempty.
      apply Nat.eqb_eq in Hempty. by apply nil_length_inv.
    + intros [Ht Hempty]. split; [done|].
      rewrite (graphOf_lookup_NoDup tasks t Hids Ht), Hempty. done.
  - intros i b t Hi Ht.
    destruct (Hpaced i b t Hi Ht) as (b' & d & Hb' & Hd & Hin).
    apply elem_of_ids_inv in Hin as (t' & Ht' & Hid).
    exists b', t'. split; [done|]. split; [done|].
    assert (Htt : t ∈ tasks).
    { destruct Hsched as (_ & Hsub & _). apply Hsub.
      exact (elem_of_concat_lookup _ _ _ _ Hi Ht). }
    rewrite Hid. by rewrite (graphDeps_NoDup tasks t Hids Htt) in Hd.
Qed.

Lemma resolve_schedules_as_early_as_possible_witness :
  exists batches,
    resolve codeUnitCompare chainTasks = Some (Ok batches) /\
    (forall b t, batches !! 0 = Some b -> t ∈ b <-> t ∈ chainTasks /\ depsOf t = []) /\
    (forall i b t,
       batches !! S i = Some b -> t ∈ b ->
       exists b' t', batches !! i = Some b' /\ t' ∈ b' /\ id t' ∈ depsOf t).
Proof.
  eexists. split; [vm_compute; reflexivity|].
  apply (resolve_schedules_as_early_as_possible codeUnitCompare chainTasks).
  vm_compute. reflexivity.
Defined.

(** *** Cycle validation ([validateNoCycles]) *)

Definition circularDependencyError (node : string) : error :=
  Error ("Circular dependency detected involving task: " +:+ node).

(** The two sets of [validateNoCycles]. *)
Record searchState := mkSearchState {
  visited : gset string;
  recursionStack : gset string
}.

(** The [for (const neighbor of neighbors)] loop of [hasCycle(node)] and
    what follows it; [visit] is the recursive call. *)
Fixpoint neighborsLoop (visit : string -> searchState -> option (bool * searchState))
    (node : string) (neighbors : list string) (st : searchState)
  : option (bool * searchState) :=
  match neighbors with
  | [] => Some (false, mkSearchState (visited st) (recursionStack st ∖ {[node]}))
  | neighbor :: rest =>
      if bool_decide (neighbor ∈ visited st) then
        if bool_decide (neighbor ∈ recursionStack st) then Some (true, st)
        else neighborsLoop visit node rest st
      else
        match visit neighbor st with
        | None => None
        | Some (true, st') => Some (true, st')
        | Some (false, st') => neighborsLoop visit node rest st'
        end
  end.

(** [hasCycle(node)]; [None] when the recursion is deeper than [fuel]. *)
Fixpoint hasCycle (fuel : nat) (g : graph) (node : string) (st : searchState)
  : option (bool * searchState) :=
  match fuel with
  | 0 => None
  | S fuel' =>
      neighborsLoop (hasCycle fuel' g) node (graphDeps g node)
        (mkSearchState (visited st ∪ {[node]}) (recursionStack st ∪ {[node]}))
  end.

(** The [for (const node of Object.keys(graph))] loop. *)
Fixpoint visitKeys (fuel : nat) (g : graph) (keys : list string) (st : searchState)
  : option (outcome bool) :=
  match keys with
  | [] => Some (Ok true)
  | node :: rest =>
      if bool_decide (node ∈ visited st) then visitKeys fuel g rest st
      else
        match hasCycle fuel g node st with
        | None => None
        | Some (true, _) => Some (Throw (circularDependencyError node))
        | Some (false, st') => visitKeys fuel g rest st'
        end
  end.

(** Every string that is a key of the graph, is listed as a prerequisite, or
    is one of [keys]. *)
Definition allNodes (keys : list string) (g : graph) : gset string :=
  list_to_set keys
  ∪ list_to_set (concat (map (fun kv => fst kv :: snd kv) (map_to_list g))).

(** [validateNoCycles(graph)], where [keys] is [Object.keys(graph)] in the
    order the runtime enumerates it.  The recursion visits a node at most
    once, so it is never deeper than the number of nodes. *)
Definition validateNoCycles (keys : list string) (g : graph) : option (outcome bool) :=
  visitKeys (S (size (allNodes keys g))) g keys (mkSearchState ∅ ∅).

Definition diamond : graph :=
  {[ "a" := ["b"; "c"]; "b" := ["d"]; "c" := ["d"]; "d" := [] ]}.

Example validateNoCycles_diamond :
  validateNoCycles ["a"; "b"; "c"; "d"] diamond = Some (Ok true).
Proof. vm_compute. reflexivity. Qed.

Example validateNoCycles_loop :
  validateNoCycles ["x"; "a"; "b"; "c"]
    {[ "x" := []; "a" := ["b"]; "b" := ["c"]; "c" := ["b"] ]}
  = Some (Throw (circularDependencyError "a")).
Proof. vm_compute. reflexivity. Qed.

Example validateNoCycles_self :
  validateNoCycles ["a"] {[ "a" := ["a"] ]}
  = Some (Throw (circularDependencyError "a")).
Proof. vm_compute. reflexivity. Qed.

(** [v] is listed as a prerequisite under the key [u]. *)
Definition edge (g : graph) (u v : string) : Prop := v ∈ graphDeps g u.

Definition onCycle (g : graph) (x : string) : Prop := clos_trans string (edge g) x x.

(** Some node on a cycle can be reached from [u] along the edges. *)
Definition reachesCycle (g : graph) (u : string) : Prop :=
  exists x, clos_refl_trans string (edge g) u x /\ onCycle g x.

Lemma clos_trans_first_step {A} (R : A -> A -> Prop) (x z : A) :
  clos_trans A R x z -> exists y, R x y /\ clos_refl_trans A R y z.
Proof.
  intros H. apply clos_trans_t1n in H. destruct H as [y Hxy|y z Hxy Hyz].
  - exists y. split; [done|]. apply rt_refl.
  - exists y. split; [done|]. by apply clos_t_clos_rt, clos_t1n_trans.
Qed.

Lemma allNodes_key (keys : list string) (g : graph) (x : string) :
  x ∈ keys -> x ∈ allNodes keys g.
Proof.
  intros H. unfold allNodes. apply elem_of_union. left.
  by apply elem_of_list_to_set.
Qed.

Lemma allNodes_edge (keys : list string) (g : graph) (u v : string) :
  edge g u v -> v ∈ allNodes keys g.
Proof.
  unfold edge, graphDeps. intros Hv.
  destruct (g !! u) as [deps|] eqn:Hu; [|by apply not_elem_of_nil in Hv].
  unfold allNodes. apply elem_of_union. right.
  apply elem_of_list_to_set, list_elem_of_In, in_concat.
  exists (u :: deps). split.
  - apply in_map_iff. exists (u, deps). split; [done|].
    apply list_elem_of_In. by apply elem_of_map_to_list.
  - right. by apply list_elem_of_In.
Qed.

Section Search.

Variable g : graph.
Variable U : gset string.
Hypothesis U_edges : forall u v, edge g u v -> v ∈ U.

(** The nodes whose visit has finished. *)
Definition finished (st : searchState) : gset string :=
  visited st ∖ recursionStack st.

(** What holds between any two steps of the search: the nodes on the
    recursion stack have been visited, and the finished nodes have all their
    prerequisites finished and lie on no cycle. *)
Record searchInv (st : searchState) : Prop := {
  inv_stack : recursionStack st ⊆ visited st;
  inv_nodes : visited st ⊆ U;
  inv_closed : forall u v, u ∈ finished st -> edge g u v -> v ∈ finished st;
  inv_acyclic : forall u, u ∈ finished st -> ~ onCycle g u
}.

Lemma finished_reach (st : searchState) (u x : string) :
  searchInv st -> u ∈ finished st -> clos_refl_trans string (edge g) u x ->
  x ∈ finished st.
Proof.
  intros Hinv Hu Hreach. apply clos_rt_rt1n in Hreach.
  induction Hreach as [|a b c Hab _ IH]; [done|].
  apply IH. by apply (inv_closed st Hinv a b).
Qed.

Lemma finished_no_cycle (st : searchState) (u : string) :
  searchInv st -> u ∈ finished st -> ~ reachesCycle g u.
Proof.
  intros Hinv Hu (x & Hreach & Hcyc).
  apply (inv_acyclic st Hinv x); [|done]. by apply (finished_reach st u x).
Qed.

(** What a call [hasCycle(node)] from state [st] promises. *)
Definition visitResult (node : string) (st : searchState)
    (r : bool * searchState) : Prop :=
  if fst r then reachesCycle g node
  else searchInv (snd r) /\ recursionStack (snd r) = recursionStack st /\
       visited st ⊆ visited (snd r) /\ node ∈ visited (snd r).

Definition visitSpec (fuel : nat)
    (visit : string -> searchState -> option (bool * searchState)) : Prop :=
  forall node st,
    searchInv st -> node ∉ visited st -> node ∈ U ->
    (forall s, s ∈ recursionStack st -> clos_refl_trans string (edge g) s node) ->
    size (U ∖ visited st) <= fuel ->
    exists r, visit node st = Some r /\ visitResult node st r.

Lemma neighborsLoop_spec (fuel : nat)
    (visit : string -> searchState -> option (bool * searchState)) (node : string) :
  visitSpec fuel visit ->
  forall (neighbors : list string) (st : searchState),
    searchInv st -> node ∈ recursionStack st ->
    (forall s, s ∈ recursionStack st -> clos_refl_trans string (edge g) s node) ->
    (forall v, v ∈ neighbors -> edge g node v) ->
    (forall v, edge g node v -> v ∈ neighbors \/ v ∈ finished st) ->
    size (U ∖ visited st) <= fuel ->
    exists r,
      neighborsLoop visit node neighbors st = Some r /\
      if fst r then reachesCycle g node
      else searchInv (snd r) /\
           recursionStack (snd r) = recursionStack st ∖ {[node]} /\
           visited st ⊆ visited (snd r).
Proof.
  intros Hvisit. induction neighbors as [|v rest IH];
    intros st Hinv Hnode Hpath Hedges Hdone Hfuel.
  - eexists. split; [reflexivity|]. cbn [fst snd visited recursionStack].
    split; [|done].
    assert (Hfin : finished (mkSearchState (visited st) (recursionStack st ∖ {[node]}))
                   = finished st ∪ {[node]}).
    { unfold finished. cbn [visited recursionStack].
      pose proof (inv_stack st Hinv) as Hsub.
      apply set_eq. intros x. destruct (decide (x = node)) as [->|Hne]; set_solver. }
    split.
    + cbn [recursionStack visited]. pose proof (inv_stack st Hinv). set_solver.
    + exact (inv_nodes st Hinv).
    + intros u w. rewrite !Hfin. intros Hu Huw.
      apply elem_of_union in Hu as [Hu|Hu].
      * apply elem_of_union_l. by apply (inv_closed st Hinv u w).
      * apply elem_of_singleton in Hu as ->. apply elem_of_union_l.
        destruct (Hdone w Huw) as [Hin|Hin]; [by apply not_elem_of_nil in Hin|done].
    + intros u. rewrite Hfin. intros Hu Hcyc.
      apply elem_of_union in Hu as [Hu|Hu]; [by apply (inv_acyclic st Hinv u)|].
      apply elem_of_singleton in Hu as ->.
      apply clos_trans_first_step in Hcyc as (w & Hw & Hback).
      assert (Hfw : w ∈ finished st).
      { destruct (Hdone w Hw) as [Hin|Hin]; [by apply not_elem_of_nil in Hin|done]. }
      pose proof (finished_reach st w node Hinv Hfw Hback) as Hn.
      unfold finished in Hn. set_solver.
  - assert (Hv : edge g node v) by (apply Hedges; left).
    cbn [neighborsLoop].
    destruct (bool_decide (v ∈ visited st)) eqn:Hvis.
    + apply bool_decide_eq_true_1 in Hvis.
      destruct (bool_decide (v ∈ recursionStack st)) eqn:Hstk.
      * apply bool_decide_eq_true_1 in Hstk.
        eexists. split; [reflexivity|]. cbn [fst].
        exists v. split; [by apply rt_step|].
        eapply clos_rt_t; [exact (Hpath v Hstk)|]. by apply t_step.
      * apply bool_decide_eq_false_1 in Hstk.
        apply IH; try done.
        -- intros w Hw. apply Hedges. by right.
        -- intros w Hw. destruct (Hdone w Hw) as [Hin|Hin]; [|by right].
           apply elem_of_cons in Hin as [->|Hin]; [|by left].
           right. unfold finished. set_solver.
    + apply bool_decide_eq_false_1 in Hvis.
      destruct (Hvisit v st Hinv Hvis (U_edges node v Hv)) as ([b st'] & Hrun & Hres).
      { intros s Hs. eapply rt_trans; [by apply Hpath|]. by apply rt_step. }
      { done. }
      rewrite Hrun. unfold visitResult in Hres. cbn [fst snd] in Hres.
      destruct b.
      * eexists. split; [reflexivity|]. cbn [fst].
        destruct Hres as (x & Hreach & Hcyc). exists x. split; [|done].
        eapply rt_trans; [apply rt_step; exact Hv|exact Hreach].
      * destruct Hres as (Hinv' & Hstk' & Hsub & Hvin).
        destruct (IH st') as (r & Hr & Hpost); try done.
        -- by rewrite Hstk'.
        -- intros s Hs. apply Hpath. by rewrite <- Hstk'.
        -- intros w Hw. apply Hedges. by right.
        -- intros w Hw. unfold finished. rewrite Hstk'.
           destruct (Hdone w Hw) as [Hin|Hin].
           ++ apply elem_of_cons in Hin as [->|Hin]; [|by left].
              right. apply elem_of_difference. split; [done|].
              intros Hstk. apply Hvis. by apply (inv_stack st Hinv).
           ++ right. unfold finished in Hin. set_solver.
        -- etransitivity; [|exact Hfuel]. apply subseteq_size. set_solver.
        -- exists r. split; [done|]. destruct (fst r); [done|].
           destruct Hpost as (H1 & H2 & H3). split; [done|]. split; [|set_solver].
           by rewrite H2, Hstk'.
Qed.

Lemma hasCycle_spec (fuel : nat) : visitSpec fuel (hasCycle fuel g).
Proof.
  induction fuel as [|fuel IH]; intros node st Hinv Hnew HU Hpath Hfuel.
  - exfalso. apply Nat.le_0_r, size_empty_iff in Hfuel.
    assert (Hin : node ∈ U ∖ visited st) by set_solver.
    rewrite Hfuel in Hin. by apply not_elem_of_empty in Hin.
  - cbn [hasCycle].
    set (st1 := mkSearchState (visited st ∪ {[node]}) (recursionStack st ∪ {[node]})).
    assert (Hfin1 : finished st1 = finished st).
    { unfold finished, st1. cbn [visited recursionStack].
      pose proof (inv_stack st Hinv). set_solver. }
    assert (Hinv1 : searchInv st1).
    { split.
      - unfold st1. cbn. pose proof (inv_stack st Hinv). set_solver.
      - unfold st1. cbn. pose proof (inv_nodes st Hinv). set_solver.
      - rewrite Hfin1. apply (inv_closed st Hinv).
      - rewrite Hfin1. apply (inv_acyclic st Hinv). }
    assert (Hsize : size (U ∖ visited st1) <= fuel).
    { assert (Hlt : U ∖ visited st1 ⊂ U ∖ visited st).
      { unfold st1. cbn [visited]. set_solver. }
      apply subset_size in Hlt. lia. }
    destruct (neighborsLoop_spec fuel (hasCycle fuel g) node IH
                (graphDeps g node) st1) as (r & Hr & Hpost); try done.
    + unfold st1. cbn. set_solver.
    + intros s Hs. unfold st1 in Hs. cbn in Hs.
      apply elem_of_union in Hs as [Hs|Hs]; [by apply Hpath|].
      apply elem_of_singleton in Hs as ->. apply rt_refl.
    + intros v Hv. by left.
    + exists r. split; [done|]. unfold visitResult.
      destruct (fst r); [done|]. destruct Hpost as (H1 & H2 & H3).
      split; [done|]. unfold st1 in H2, H3. cbn in H2, H3.
      split; [|set_solver].
      rewrite H2. pose proof (inv_stack st Hinv). set_solver.
Qed.

(** The loop over the keys, started with an empty recursion stack: either
    every key gets visited without a cycle being found, or the loop throws
    at the first key from which a cycle can be reached. *)
Lemma visitKeys_spec (fuel : nat) :
  size U <= fuel ->
  forall (keys : list string) (st : searchState),
    searchInv st -> recursionStack st = ∅ ->
    (forall k, k ∈ keys -> k ∈ U) ->
    (visitKeys fuel g keys st = Some (Ok true) /\
     exists st', searchInv st' /\ recursionStack st' = ∅ /\
                 visited st ⊆ visited st' /\
                 forall k, k ∈ keys -> k ∈ visited st')
    \/
    (exists before node after,
        keys = before ++ node :: after /\
        visitKeys fuel g keys st = Some (Throw (circularDependencyError node)) /\
        reachesCycle g node /\
        forall k, k ∈ before -> ~ reachesCycle g k).
Proof.
  intros Hfuel. induction keys as [|k keys IH]; intros st Hinv Hstk HU.
  - left. split; [done|]. exists st. split; [done|]. split; [done|]. split; [done|].
    intros k Hk. by apply not_elem_of_nil in Hk.
  - cbn [visitKeys].
    assert (Hrest : forall k', k' ∈ keys -> k' ∈ U) by (intros; apply HU; by right).
    assert (Hstep : forall st',
               searchInv st' -> recursionStack st' = ∅ -> visited st ⊆ visited st' ->
               k ∈ visited st' ->
               (visitKeys fuel g keys st' = Some (Ok true) /\
                exists st'', searchInv st'' /\ recursionStack st'' = ∅ /\
                             visited st ⊆ visited st'' /\
                             forall k', k' ∈ k :: keys -> k' ∈ visited st'')
               \/
               (exists before node after,
                   k :: keys = before ++ node :: after /\
                   visitKeys fuel g keys st'
                     = Some (Throw (circularDependencyError node)) /\
                   reachesCycle g node /\
                   forall k', k' ∈ before -> ~ reachesCycle g k')).
    { intros st' Hinv' Hstk' Hsub Hk.
      destruct (IH st' Hinv' Hstk' Hrest)
        as [(Hrun & st'' & H1 & H2 & H3 & H4)
           |(before & node & after & Heq & Hrun & Hcyc & Hbefore)].
      - left. split; [done|]. exists st''. split; [done|]. split; [done|].
        split; [set_solver|].
        intros k' Hk'. apply elem_of_cons in Hk' as [->|Hk']; [set_solver|by apply H4].
      - right. exists (k :: before), node, after. split; [by rewrite Heq|].
        split; [done|]. split; [done|].
        intros k' Hk'. apply elem_of_cons in Hk' as [->|Hk']; [|by apply Hbefore].
        apply (finished_no_cycle st' k Hinv'). unfold finished. rewrite Hstk'.
        set_solver. }
    destruct (bool_decide (k ∈ visited st)) eqn:Hvis.
    + apply bool_decide_eq_true_1 in Hvis. by apply Hstep.
    + apply bool_decide_eq_false_1 in Hvis.
      destruct (hasCycle_spec fuel k st Hinv Hvis) as ([b st'] & Hrun & Hres).
      { apply HU. by left. }
      { intros s Hs. rewrite Hstk in Hs. by apply not_elem_of_empty in Hs. }
      { etransitivity; [|exact Hfuel]. apply subseteq_size. set_solver. }
      rewrite Hrun. unfold visitResult in Hres. cbn [fst snd] in Hres.
      destruct b.
      * right. exists [], k, keys. split; [done|]. split; [done|]. split; [done|].
        intros k' Hk'. by apply not_elem_of_nil in Hk'.
      * destruct Hres as (Hinv' & Hstk' & Hsub & Hk). apply Hstep; try done.
        by rewrite Hstk'.
Qed.

End Search.

Lemma validateNoCycles_spec (keys : list string) (g : graph) :
  (forall x, is_Some (g !! x) -> x ∈ keys) ->
  (validateNoCycles keys g = Some (Ok true) /\ forall x, ~ onCycle g x)
  \/
  (exists before node after,
      keys = before ++ node :: after /\
      validateNoCycles keys g = Some (Throw (circularDependencyError node)) /\
      reachesCycle g node /\
      forall k, k ∈ before -> ~ reachesCycle g k).
Proof.
  intros Hkeys. unfold validateNoCycles.
  destruct (visitKeys_spec g (allNodes keys g) (allNodes_edge keys g)
              (S (size (allNodes keys g))) ltac:(lia) keys (mkSearchState ∅ ∅))
    as [(Hrun & st & Hinv & Hstk & _ & Hall)|Hthrow].
  - split; cbn; set_solver.
  - done.
  - intros k Hk. by apply allNodes_key.
  - left. split; [done|]. intros x Hcyc.
    apply (inv_acyclic g (allNodes keys g) st Hinv x); [|done].
    unfold finished. rewrite Hstk.
    apply elem_of_difference. split; [|apply not_elem_of_empty].
    apply Hall, Hkeys.
    apply clos_trans_first_step in Hcyc as (y & Hy & _).
    unfold edge, graphDeps in Hy.
    destruct (g !! x); [by eexists|by apply not_elem_of_nil in Hy].
  - by right.
Qed.


Lemma diamond_keys (x : string) :
  is_Some (diamond !! x) -> x ∈ ["a"; "b"; "c"; "d"].
Proof.
  unfold diamond. intros Hx.
  repeat (apply lookup_insert_is_Some in Hx as [<-|[_ Hx]]; [set_solver|]).
  apply lookup_singleton_is_Some in Hx as <-. set_solver.
Qed.


Lemma edge_graphOf (tasks : list task) (x y : string) :
  NoDup (knownIds tasks) -> edge (graphOf tasks) x y <-> dependsOn tasks x y.
Proof.
  intros Hids. unfold edge, dependsOn, graphDeps. split.
  - intros Hy. destruct (graphOf tasks !! x) as [deps|] eqn:Hx;
      [|by apply not_elem_of_nil in Hy].
    apply graphOf_lookup_Some in Hx as (t & Ht & Hid & ->). by exists t.
  - intros (t & Ht & <- & Hy). by rewrite (graphOf_lookup_NoDup tasks t Hids Ht).
Qed.

Lemma onCycle_graphOf (tasks : list task) (x : string) :
  NoDup (knownIds tasks) ->
  onCycle (graphOf tasks) x <-> clos_trans string (dependsOn tasks) x x.
Proof.
  intros Hids. unfold onCycle.
  assert (H : forall a b, clos_trans string (edge (graphOf tasks)) a b
                          <-> clos_trans string (dependsOn tasks) a b).
  { intros a b. split; intros Hab.
    - induction Hab as [a b Hab|a b c _ IH1 _ IH2].
      + apply t_step. by apply edge_graphOf.
      + by eapply t_trans.
    - induction Hab as [a b Hab|a b c _ IH1 _ IH2].
      + apply t_step. by apply edge_graphOf.
      + by eapply t_trans. }
  apply H.
Qed.




(** What the batches of a successful run look like to a caller that runs
    them one after the other. *)
Lemma resolve_Ok_dependency_order
    (localeCompare : string -> string -> Z) (tasks : list task)
    (batches : list (list task)) :
  resolve localeCompare tasks = Some (Ok batches) ->
  concat batches ≡ₚ tasks
  /\ (forall i j b b' t t',
        batches !! i = Some b -> batches !! j = Some b' -> t ∈ b -> t' ∈ b' ->
        id t = id t' -> i = j)
  /\ (forall i b t depId,
        batches !! i = Some b -> t ∈ b -> depId ∈ depsOf t ->
        exists j b' t', j < i /\ batches !! j = Some b' /\ t' ∈ b' /\ id t' = depId).
Proof.
  intros Hres. apply resolve_Ok_inv in Hres as (c & Hvalid & Hrun & Hsize).
  pose proof (batchLoop_scheduled _ _ _ _ _ _ Hrun) as [Hsched _].
  destruct (resolve_Ok_distinct tasks batches c Hsched Hsize) as [Hids Hall].
  destruct (all_scheduled tasks _ batches c Hids Hsched Hall) as [_ Hperm].
  destruct Hsched as (Hc & Hsub & Hdeps & Huniq & _).
  split; [done|]. split; [done|].
  intros i b t d Hi Ht Hd.
  assert (Htt : t ∈ tasks) by (apply Hsub; exact (elem_of_concat_lookup _ _ _ _ Hi Ht)).
  rewrite <- (graphDeps_NoDup tasks t Hids Htt) in Hd.
  destruct (Hdeps i b t d Hi Ht Hd) as (j & b' & Hj & Hb' & Hin).
  apply elem_of_ids_inv in Hin as (t' & Ht' & Hid). by exists j, b', t'.
Qed.

End DependencyResolver.

(** ** Retry executor (RetryManager) *)

Module RetryManager.

(** [config.execution.retry] *)
Record retryConfig := mkRetryConfig {
  maxAttempts : nat;
  backoffMultiplier : Z;
  initialDelayMs : Z
}.

(** The [context] argument; [maxRetries] is the only property that steers
    the loop ([None] when absent). *)
Record context := mkContext { maxRetries : option nat }.

(** What the executor does to the outside world, in order: a call of the
    thunk with the attempt number, or a sleep of so many milliseconds. *)
Inductive event :=
| Call (attempt : nat)
| Sleep (delayMs : Z).

Definition nonRetryablePatterns : list string :=
  [ "rate limit"; "quota exceeded"; "authentication"; "not found";
    "permission denied" ]%string.

(** [isRetryable(error)]: only the message is consulted. *)
Definition isRetryable (e : error) : bool :=
  let errorMessage := toLowerCase (message e) in
  negb (existsb (fun pattern => includes errorMessage pattern) nonRetryablePatterns).

Section Executor.

Variable A : Type.
Variable config : retryConfig.

(** [fn(attempt)]: how the thunk settles when called for the given attempt. *)
Variable fn : nat -> outcome A.

(** [baseDelay * Math.pow(multiplier, attempt - 1)] *)
Definition calculateBackoff (attempt : nat) : Z :=
  (initialDelayMs config * backoffMultiplier config ^ (Z.of_nat attempt - 1))%Z.

(** [context.maxRetries || this.config.maxAttempts] *)
Definition effectiveMaxAttempts (ctx : context) : nat :=
  match maxRetries ctx with
  | Some (S n) => S n
  | _ => maxAttempts config
  end.

Definition emit (ev : event) : M (list event) unit :=
  fun trace => (Ok tt, trace ++ [ev]).

(** The code after the loop: [lastError] is [null] when the loop body never
    ran, and reading its message then throws. *)
Definition exhausted (maxAttempts : nat) (lastError : option error)
  : M (list event) A :=
  match lastError with
  | Some e =>
      throw (Error ("Failed after " +:+ natToString maxAttempts
                      +:+ " attempts: " +:+ message e))
  | None => throw (Error "Cannot read properties of null (reading 'message')")
  end.

(** [for (let attempt = 1; attempt <= maxAttempts; attempt++)], with
    [remaining = maxAttempts + 1 - attempt] iterations still allowed by the
    loop condition. *)
Fixpoint attemptLoop (maxAttempts remaining attempt : nat)
    (lastError : option error) : M (list event) A :=
  match remaining with
  | 0 => exhausted maxAttempts lastError
  | S remaining' =>
      (let* _ := emit (Call attempt) in
       match fn attempt with
       | Ok result => ret result
       | Throw e =>
           if negb (isRetryable e) then throw e
           else if maxAttempts <=? attempt then exhausted maxAttempts (Some e)
           else
             let* _ := emit (Sleep (calculateBackoff attempt)) in
             attemptLoop maxAttempts remaining' (S attempt) (Some e)
       end)%js
  end.

Definition executeWithRetry (ctx : context) : outcome A * list event :=
  let maxAttempts := effectiveMaxAttempts ctx in
  attemptLoop maxAttempts maxAttempts 1 None [].

End Executor.

(** The delays slept, in order, and their total. *)
Definition sleepsOf (trace : list event) : list Z :=
  flat_map (fun ev => match ev with Sleep d => [d] | Call _ => [] end) trace.

Definition attemptsOf (trace : list event) : list nat :=
  flat_map (fun ev => match ev with Call k => [k] | Sleep _ => [] end) trace.

Definition totalDelay (trace : list event) : Z :=
  fold_right Z.add 0%Z (sleepsOf trace).

Definition defaultConfig : retryConfig := mkRetryConfig 3 2 1000.

Example retry_succeeds_on_third :
  executeWithRetry nat defaultConfig
    (fun k => if k <? 3 then Throw (Error "ECONNRESET") else Ok 42)
    (mkContext None)
  = (Ok 42, [Call 1; Sleep 1000; Call 2; Sleep 2000; Call 3]).
Proof. vm_compute. reflexivity. Qed.

Example retry_exhausted :
  executeWithRetry nat defaultConfig (fun k => Throw (Error "ECONNRESET"))
    (mkContext None)
  = (Throw (Error "Failed after 3 attempts: ECONNRESET"),
     [Call 1; Sleep 1000; Call 2; Sleep 2000; Call 3]).
Proof. vm_compute. reflexivity. Qed.

Example retry_not_retryable :
  executeWithRetry nat defaultConfig
    (fun k => Throw (Error "GitHub API Rate Limit hit")) (mkContext None)
  = (Throw (Error "GitHub API Rate Limit hit"), [Call 1]).
Proof. vm_compute. reflexivity. Qed.

(** *** Properties *)

Section ExecutorFacts.

Variable A : Type.
Variable config : retryConfig.
Variable fn : nat -> outcome A.

(** The trace of [k] attempts of which the first [k - 1] were followed by
    a sleep: call 1, sleep, call 2, sleep, ..., call [k]. *)
Definition retriedTrace (from k : nat) : list event :=
  flat_map (fun j => [Call j; Sleep (calculateBackoff config j)]) (seq from (k - from))
  ++ [Call k].

(** The delay slept before attempt [j], for [j >= 2]. *)
Definition delayBefore (j : nat) : Z :=
  (initialDelayMs config * backoffMultiplier config ^ (Z.of_nat j - 2))%Z.

Definition failsRetryably (j : nat) : Prop :=
  exists e, fn j = Throw e /\ isRetryable e = true.

Lemma attemptLoop_succeeds (M n : nat) :
  forall (a k : nat) (lastError : option error) (trace : list event) (v : A),
    k = a + n -> k <= M ->
    (forall j, a <= j < k -> failsRetryably j) ->
    fn k = Ok v ->
    attemptLoop A config fn M (M + 1 - a) a lastError trace
    = (Ok v, trace ++ retriedTrace a k).
Proof.
  induction n as [|n IH]; intros a k lastError trace v Hk HkM Hfail Hok.
  - assert (Hka : k = a) by lia. clear Hk. subst k.
    replace (M + 1 - a) with (S (M - a)) by lia. simpl.
    unfold bind, emit, ret. rewrite Hok. unfold retriedTrace.
    by rewrite Nat.sub_diag.
  - destruct (Hfail a) as (e & He & Hretry); [lia|].
    replace (M + 1 - a) with (S (M + 1 - S a)) by lia. simpl.
    unfold bind at 1. unfold emit at 1. rewrite He, Hretry. simpl.
    destruct (M <=? a) eqn:HMa; [apply Nat.leb_le in HMa; lia|].
    unfold bind at 1. unfold emit at 1.
    rewrite (IH (S a) k (Some e) _ v); try done; try lia.
    + f_equal. unfold retriedTrace.
      replace (k - a) with (S (k - S a)) by lia. simpl.
      by rewrite <- !app_assoc.
    + intros j Hj. apply Hfail. lia.
Qed.

Lemma attemptLoop_exhausts (M n : nat) :
  forall (a : nat) (lastError : option error) (trace : list event) (eLast : error),
    M = a + n ->
    (forall j, a <= j <= M -> failsRetryably j) ->
    fn M = Throw eLast ->
    attemptLoop A config fn M (M + 1 - a) a lastError trace
    = (Throw (Error ("Failed after " +:+ natToString M +:+ " attempts: "
                       +:+ message eLast)),
       trace ++ retriedTrace a M).
Proof.
  induction n as [|n IH]; intros a lastError trace eLast HM Hfail Hlast.
  - assert (HMa : a = M) by lia. clear HM. subst a.
    replace (M + 1 - M) with 1 by lia. simpl.
    unfold bind, emit. rewrite Hlast.
    destruct (Hfail M) as (e & He & Hretry); [lia|].
    rewrite Hlast in He. injection He as <-. rewrite Hretry. simpl.
    rewrite Nat.leb_refl. unfold exhausted, throw, retriedTrace.
    by rewrite Nat.sub_diag.
  - destruct (Hfail a) as (e & He & Hretry); [lia|].
    replace (M + 1 - a) with (S (M + 1 - S a)) by lia. simpl.
    unfold bind at 1. unfold emit at 1. rewrite He, Hretry. simpl.
    destruct (M <=? a) eqn:HMa; [apply Nat.leb_le in HMa; lia|].
    unfold bind at 1. unfold emit at 1.
    rewrite (IH (S a) (Some e) _ eLast); try done; try lia.
    + f_equal. unfold retriedTrace.
      replace (M - a) with (S (M - S a)) by lia. simpl.
      by rewrite <- !app_assoc.
    + intros j Hj. apply Hfail. lia.
Qed.

Lemma attemptsOf_retriedTrace (from k : nat) :
  from <= k -> attemptsOf (retriedTrace from k) = seq from (S (k - from)).
Proof.
  intros Hle. rewrite seq_S. replace (from + (k - from)) with k by lia.
  unfold retriedTrace, attemptsOf.
  generalize (k - from) as n. intros n. clear Hle. revert from.
  induction n as [|n IH]; intros from; [reflexivity|].
  cbn [seq flat_map app]. f_equal. apply IH.
Qed.

Lemma sleepsOf_retriedTrace (from k : nat) :
  sleepsOf (retriedTrace from k)
  = map delayBefore (seq (S from) (k - from)).
Proof.
  unfold retriedTrace, sleepsOf.
  remember (k - from) as n eqn:Hn. clear Hn. revert from.
  induction n as [|n IH]; intros from; [reflexivity|].
  cbn [seq flat_map app map]. f_equal; [|apply IH].
  unfold calculateBackoff, delayBefore. f_equal. f_equal. lia.
Qed.

End ExecutorFacts.



Lemma isRetryable_false_iff (e : error) :
  isRetryable e = false <->
  exists pattern, pattern ∈ nonRetryablePatterns /\
                  includes (toLowerCase (message e)) pattern = true.
Proof.
  unfold isRetryable. rewrite negb_false_iff, existsb_exists.
  split; intros (p & Hp & Hinc); exists p; (split; [|done]);
    by apply list_elem_of_In.
Qed.

(** C8 (as amended).  With [M >= 1] attempts allowed, a thunk whose first
    failure carries a message that contains, in any letter case, one of the
    five non-retryable patterns makes the executor call it exactly once and
    rethrow that very error, without sleeping and without wrapping. *)
Theorem executeWithRetry_non_retryable_short_circuits :
  forall (A : Type) (config : retryConfig) (fn : nat -> outcome A) (ctx : context)
         (e : error),
    1 <= effectiveMaxAttempts config ctx ->
    fn 1 = Throw e ->
    (exists pattern, pattern ∈ nonRetryablePatterns /\
                     includes (toLowerCase (message e)) pattern = true) ->
    executeWithRetry A config fn ctx = (Throw e, [Call 1]) /\
    attemptsOf [Call 1] = [1] /\ sleepsOf [Call 1] = [].
Proof.
  intros A config fn ctx e HM Hthrow Hmatch.
  apply isRetryable_false_iff in Hmatch.
  split; [|done]. unfold executeWithRetry.
  destruct (effectiveMaxAttempts config ctx) as [|M]; [lia|].
  simpl. unfold bind, emit. rewrite Hthrow, Hmatch. reflexivity.
Qed.

Lemma executeWithRetry_non_retryable_short_circuits_witness :
  executeWithRetry nat defaultConfig
    (fun k => Throw (Error "GitHub API Rate Limit hit")) (mkContext None)
  = (Throw (Error "GitHub API Rate Limit hit"), [Call 1]).
Proof.
  apply (executeWithRetry_non_retryable_short_circuits nat defaultConfig
           (fun k => Throw (Error "GitHub API Rate Limit hit")) (mkContext None)
           (Error "GitHub API Rate Limit hit")).
  - unfold effectiveMaxAttempts. simpl. lia.
  - reflexivity.
  - exists "rate limit". split; [|reflexivity].
    unfold nonRetryablePatterns. apply elem_of_cons. by left.
Defined.

(** C8 as stated fails for the caller-set flag: an error marked
    [shouldRetry = false] whose message matches no pattern is retried up to
    the limit, with sleeps, and is wrapped at exhaustion. *)
Lemma executeWithRetry_ignores_shouldRetry_counterexample :
  let e := mkError "session hung" (Some false) in
  shouldRetry e = Some false /\
  executeWithRetry nat defaultConfig (fun _ => Throw e) (mkContext None)
  = (Throw (Error "Failed after 3 attempts: session hung"),
     [Call 1; Sleep 1000; Call 2; Sleep 2000; Call 3]).
Proof. split; [reflexivity|]. vm_compute. reflexivity. Qed.

(** *** Every run of the executor *)

Section EveryRun.

Variable A : Type.
Variable config : retryConfig.
Variable fn : nat -> outcome A.

(** How a run that made [k] attempts ended. *)
Definition endedAt (M k : nat) (r : outcome A) : Prop :=
  (exists v, fn k = Ok v /\ r = Ok v) \/
  (exists e, fn k = Throw e /\ isRetryable e = false /\ r = Throw e) \/
  (exists e, fn k = Throw e /\ isRetryable e = true /\ k = M /\
             r = Throw (Error ("Failed after " +:+ natToString M
                                 +:+ " attempts: " +:+ message e))).

Lemma attemptLoop_step (M remaining a : nat) (lastError : option error) :
  attemptLoop A config fn M (S remaining) a lastError
  = (let* _ := emit (Call a) in
     match fn a with
     | Ok result => ret result
     | Throw e =>
         if negb (isRetryable e) then throw e
         else if M <=? a then exhausted A M (Some e)
         else
           let* _ := emit (Sleep (calculateBackoff config a)) in
           attemptLoop A config fn M remaining (S a) (Some e)
     end)%js.
Proof. reflexivity. Qed.

Lemma attemptLoop_every_run (M : nat) :
  forall (n a : nat) (lastError : option error) (trace : list event),
    a + n = M -> 1 <= a ->
    exists k r,
      a <= k <= M /\
      (forall j, a <= j < k -> failsRetryably A fn j) /\
      attemptLoop A config fn M (S n) a lastError trace
        = (r, trace ++ retriedTrace config a k) /\
      endedAt M k r.
Proof.
  induction n as [|n IH]; intros a lastError trace HM Ha.
  - assert (a = M) by lia. subst a.
    exists M. cbn [attemptLoop]. unfold bind at 1. unfold emit at 1.
    unfold retriedTrace. rewrite Nat.sub_diag. cbn [seq flat_map app].
    destruct (fn M) as [v|e] eqn:Hfn.
    + exists (Ok v). split; [lia|]. split; [intros; lia|]. split; [done|].
      left. by exists v.
    + destruct (isRetryable e) eqn:Hretry; cbn [negb].
      * rewrite Nat.leb_refl. eexists. split; [lia|]. split; [intros; lia|].
        split; [reflexivity|]. right. right. by exists e.
      * exists (Throw e). split; [lia|]. split; [intros; lia|]. split; [done|].
        right. left. by exists e.
  - rewrite attemptLoop_step. unfold bind at 1. unfold emit at 1.
    destruct (fn a) as [v|e] eqn:Hfn.
    + exists a, (Ok v). split; [lia|]. split; [intros; lia|].
      unfold retriedTrace. rewrite Nat.sub_diag. split; [done|].
      left. by exists v.
    + destruct (isRetryable e) eqn:Hretry; cbn [negb].
      * destruct (M <=? a) eqn:HMa; [apply Nat.leb_le in HMa; lia|].
        unfold bind at 1. unfold emit at 1.
        destruct (IH (S a) (Some e) ((trace ++ [Call a]) ++ [Sleep (calculateBackoff config a)]))
          as (k & r & Hk & Hfail & Hrun & Hend); [lia|lia|].
        exists k, r. split; [lia|]. split.
        { intros j Hj. destruct (decide (j = a)) as [->|Hne].
          - by exists e.
          - apply Hfail. lia. }
        split; [|done]. rewrite Hrun. f_equal. unfold retriedTrace.
        replace (k - a) with (S (k - S a)) by lia. cbn [seq flat_map app].
        by rewrite <- !app_assoc.
      * exists a, (Throw e). split; [lia|]. split; [intros; lia|].
        unfold retriedTrace. rewrite Nat.sub_diag. split; [done|].
        right. left. by exists e.
Qed.

(** The sleeps of a run add up geometrically. *)
Lemma totalDelay_retriedTrace (k : nat) :
  1 <= k ->
  ((backoffMultiplier config - 1) * totalDelay (retriedTrace config 1 k)
   = initialDelayMs config * (backoffMultiplier config ^ (Z.of_nat k - 1) - 1))%Z.
Proof.
  intros Hk. unfold totalDelay. rewrite sleepsOf_retriedTrace.
  replace k with (S (k - 1)) at 2 by lia.
  replace (Z.of_nat (S (k - 1)) - 1)%Z with (Z.of_nat (k - 1)) by lia.
  generalize (k - 1) as n. clear Hk. intros n.
  induction n as [|n IH].
  - cbn. lia.
  - rewrite seq_S, map_app, fold_right_app. cbn [map fold_right].
    assert (Hsum : forall (l : list Z) (d : Z),
               fold_right Z.add (d + 0)%Z l = (fold_right Z.add 0%Z l + d)%Z).
    { intros l d. induction l as [|x l IHl]; cbn; lia. }
    rewrite Hsum. unfold delayBefore at 2.
    replace (Z.of_nat (2 + n) - 2)%Z with (Z.of_nat n) by lia.
    replace (Z.of_nat (S n)) with (Z.of_nat n + 1)%Z by lia.
    rewrite Z.pow_add_r by lia. rewrite Z.pow_1_r.
    rewrite Z.mul_add_distr_l, IH. ring.
Qed.

End EveryRun.

(** Whatever the thunk does, a run of the executor is one of four things.
    With no attempt allowed ([maxAttempts] 0 and no positive [maxRetries])
    the thunk is never called and the executor fails reading the message of
    a [null] error.  Otherwise the thunk is called for the attempts
    [1 .. k] in order, for some [k] up to the limit, with one sleep between
    consecutive attempts and none after the last; every attempt before the
    [k]-th failed with a retryable error, and the [k]-th attempt either
    succeeded (its value is returned), or failed with a non-retryable error
    (rethrown as it is), or was the last allowed attempt (its error is
    wrapped). *)
Theorem executeWithRetry_every_run
    (A : Type) (config : retryConfig) (fn : nat -> outcome A) (ctx : context) :
  let M := effectiveMaxAttempts config ctx in
  (M = 0 /\
   executeWithRetry A config fn ctx
   = (Throw (Error "Cannot read properties of null (reading 'message')"), []))
  \/
  (exists k r,
      1 <= k <= M /\
      executeWithRetry A config fn ctx = (r, retriedTrace config 1 k) /\
      attemptsOf (retriedTrace config 1 k) = seq 1 k /\
      length (sleepsOf (retriedTrace config 1 k)) = k - 1 /\
      (forall j, 1 <= j < k -> failsRetryably A fn j) /\
      endedAt A fn M k r).
Proof.
  intros M. unfold executeWithRetry. fold M.
  destruct M as [|n] eqn:HM; [left; by split|right].
  destruct (attemptLoop_every_run A config fn (S n) n 1 None [])
    as (k & r & Hk & Hfail & Hrun & Hend); [lia|lia|].
  exists k, r. split; [done|]. split; [done|]. split; [|split; [|done]].
  - rewrite attemptsOf_retriedTrace by lia. f_equal. lia.
  - rewrite sleepsOf_retriedTrace, length_map, length_seq. done.
Qed.



End RetryManager.

(** ** Issue body composer (IssueBodyManager) *)

Module IssueBodyManager.

Definition nl : string := String (ascii_of_nat 10) EmptyString.

Definition orchestrationStart : string := "<!-- oc-ralph-orchestration-start -->".
Definition orchestrationEnd : string := "<!-- oc-ralph-orchestration-end -->".
Definition orchestrationHeading : string := "# 🤖 oc-ralph Orchestration".
Definition statusTableHeading : string := "## 📈 Live Status Table".

(** The specification object written by the architect agent.  The two
    optional lists are [None] when the property is absent. *)
Record specification := mkSpecification {
  requirements : list string;
  acceptance_criteria : list string;
  technical_approach : string;
  edge_cases : option (list string);
  dependencies : option (list string);
  estimated_complexity : string
}.

Record implementationTask := mkImplementationTask {
  implementationTitle : string;
  implementationComplexity : string
}.

Record testTask := mkTestTask { testTitle : string; testType : string }.

Record issueRef := mkIssueRef { issueNumber : nat }.

Record plan := mkPlan {
  approved : bool;
  implementationTasks : list implementationTask;
  implementationIssues : list issueRef;
  testTasks : list testTask;
  testIssues : list issueRef
}.

(** [array.join(sep)] *)
Fixpoint join (sep : string) (l : list string) : string :=
  match l with
  | [] => ""
  | [x] => x
  | x :: l' => x +:+ sep +:+ join sep l'
  end.

(** [s.split('\n')] *)
Fixpoint splitLines (s : string) : list string :=
  match s with
  | EmptyString => [EmptyString]
  | String c s' =>
      if Ascii.eqb c (ascii_of_nat 10) then EmptyString :: splitLines s'
      else match splitLines s' with
           | line :: lines => String c line :: lines
           | [] => [String c EmptyString]
           end
  end.

(** [xs.map(x => `- ${x}`).join('\n')] *)
Definition bulletList (xs : list string) : string :=
  join nl (map (fun x => "- " +:+ x) xs).

(** [xs?.map(x => `- ${x}`).join('\n') || fallback] *)
Definition bulletListOr (xs : option (list string)) (fallback : string) : string :=
  match xs with
  | None => fallback
  | Some l => if String.eqb (bulletList l) "" then fallback else bulletList l
  end.

Definition buildSpecSection (spec : specification) : string :=
  "## 📋 Technical Specification" +:+ nl +:+ nl +:+
  "### Requirements" +:+ nl +:+
  bulletList (requirements spec) +:+ nl +:+ nl +:+
  "### Acceptance Criteria" +:+ nl +:+
  bulletList (acceptance_criteria spec) +:+ nl +:+ nl +:+
  "### Technical Approach" +:+ nl +:+
  technical_approach spec +:+ nl +:+ nl +:+
  "### Edge Cases" +:+ nl +:+
  bulletListOr (edge_cases spec) "None specified" +:+ nl +:+ nl +:+
  "### Dependencies" +:+ nl +:+
  bulletListOr (dependencies spec) "None" +:+ nl +:+ nl +:+
  "### Estimated Complexity" +:+ nl +:+
  "**" +:+ estimated_complexity spec +:+ "**".

Definition buildOriginalRequestSection (originalRequest : string) : string :=
  let lines := splitLines originalRequest in
  let quotedLines := map (fun line => "> " +:+ line) lines in
  "> **📌 Original Request**" +:+ nl +:+ "> " +:+ nl +:+ join nl quotedLines.

(** The two [forEach] loops of [buildPlanSection]; [issues[i].issueNumber]
    throws when the issue list is shorter than the task list. *)
Fixpoint implementationLines (i : nat) (tasks : list implementationTask)
    (issues : list issueRef) : outcome string :=
  match tasks with
  | [] => Ok ""
  | task :: tasks' =>
      match issues !! i with
      | None => Throw (Error "Cannot read properties of undefined (reading 'issueNumber')")
      | Some issue =>
          match implementationLines (S i) tasks' issues with
          | Throw e => Throw e
          | Ok rest =>
              Ok (natToString (i + 1) +:+ ". **" +:+ implementationTitle task
                    +:+ "** (#" +:+ natToString (issueNumber issue) +:+ ") - "
                    +:+ implementationComplexity task +:+ " complexity" +:+ nl
                    +:+ rest)
          end
      end
  end.

Fixpoint testLines (i : nat) (tasks : list testTask) (issues : list issueRef)
  : outcome string :=
  match tasks with
  | [] => Ok ""
  | task :: tasks' =>
      match issues !! i with
      | None => Throw (Error "Cannot read properties of undefined (reading 'issueNumber')")
      | Some issue =>
          match testLines (S i) tasks' issues with
          | Throw e => Throw e
          | Ok rest =>
              Ok (natToString (i + 1) +:+ ". **" +:+ testTitle task
                    +:+ "** (#" +:+ natToString (issueNumber issue) +:+ ") - "
                    +:+ testType task +:+ nl +:+ rest)
          end
      end
  end.

Definition buildPlanSection (p : plan) : outcome string :=
  let statusText := if approved p then "✅ Approved" else "⏳ Awaiting Approval" in
  let section := "## 📊 Implementation Plan" +:+ nl +:+ nl in
  let section := section +:+ "The planning phase has completed. Status: **"
                   +:+ statusText +:+ "**" +:+ nl +:+ nl in
  let section :=
    if approved p then section
    else section +:+ "Add label `oc-ralph:approved` to proceed with implementation."
           +:+ nl +:+ nl in
  let section := section +:+ "### Implementation Tasks ("
                   +:+ natToString (length (implementationTasks p)) +:+ ")" +:+ nl in
  match implementationLines 0 (implementationTasks p) (implementationIssues p) with
  | Throw e => Throw e
  | Ok implLines =>
      let section := section +:+ implLines in
      let section := section +:+ nl +:+ "### Test Tasks ("
                       +:+ natToString (length (testTasks p)) +:+ ")" +:+ nl in
      match testLines 0 (testTasks p) (testIssues p) with
      | Throw e => Throw e
      | Ok tLines => Ok (section +:+ tLines)
      end
  end.

(** JS truthiness of a possibly absent string. *)
Definition truthy (s : option string) : bool :=
  match s with
  | Some s => negb (String.eqb s "")
  | None => false
  end.

Definition separator : string := nl +:+ "---" +:+ nl +:+ nl.

(** [build(spec, plan, originalRequest, statusTable, planningStatus)];
    [planningStatus] is an object of which only the presence matters. *)
Definition build (spec : option specification) (p : option plan)
    (originalRequest statusTable : option string) (planningStatus : bool)
  : outcome string :=
  let body := orchestrationStart +:+ nl in
  let body := body +:+ orchestrationHeading +:+ nl +:+ nl in
  let body := match spec with
              | Some sp => body +:+ buildSpecSection sp
              | None => body
              end in
  let body := if truthy originalRequest
              then (body +:+ separator)
                     +:+ buildOriginalRequestSection (default "" originalRequest)
              else body in
  match match p with
        | Some pl =>
            match buildPlanSection pl with
            | Throw e => Throw e
            | Ok section => Ok ((body +:+ separator) +:+ section)
            end
        | None => Ok body
        end with
  | Throw e => Throw e
  | Ok body =>
      let body := if truthy statusTable || planningStatus
                  then (body +:+ separator)
                         +:+ (if truthy statusTable then default "" statusTable else "")
                  else body in
      Ok (body +:+ nl +:+ orchestrationEnd)
  end.

(** [updateStatusTable(currentBody, newStatusTable)].  [indexOf] gives
    [None] for [-1], and [substring(-1)] is the whole string. *)
Definition updateStatusTable (currentBody newStatusTable : string) : string :=
  match indexOf statusTableHeading currentBody with
  | None =>
      match indexOf orchestrationEnd currentBody with
      | None => currentBody +:+ nl +:+ nl +:+ newStatusTable
      | Some endIdx =>
          substring currentBody 0 endIdx +:+ nl +:+ newStatusTable +:+ nl +:+ nl
            +:+ substringFrom currentBody endIdx
      end
  | Some startIdx =>
      let tail := match indexOf orchestrationEnd currentBody with
                  | None => currentBody
                  | Some endIdx => substringFrom currentBody endIdx
                  end in
      substring currentBody 0 startIdx +:+ newStatusTable +:+ nl +:+ nl +:+ tail
  end.

(** [hay.lastIndexOf(needle)] *)
Fixpoint lastIndexOf (needle hay : string) : option nat :=
  match hay with
  | EmptyString => if String.prefix needle hay then Some 0 else None
  | String _ hay' =>
      match lastIndexOf needle hay' with
      | Some i => Some (S i)
      | None => if String.prefix needle hay then Some 0 else None
      end
  end.

(** The text outside the orchestration block of a body: what precedes the
    start marker that opens the block and what follows the end marker that
    closes it; [None] when the body has no such pair. *)
Definition outsideMarkers (body : string) : option (string * string) :=
  match indexOf orchestrationStart body, lastIndexOf orchestrationEnd body with
  | Some i, Some j =>
      Some (substring body 0 i,
            substringFrom body (j + String.length orchestrationEnd))
  | _, _ => None
  end.

Definition sampleSpec : specification :=
  mkSpecification ["Add login"] ["User can log in"] "Use sessions" None (Some []) "low".

Definition samplePlan : plan :=
  mkPlan false [mkImplementationTask "Login form" "low"] [mkIssueRef 12]
         [mkTestTask "Login works" "integration"] [mkIssueRef 13].

Example build_then_update :
  match build (Some sampleSpec) (Some samplePlan) (Some "Please add login")
              (Some (statusTableHeading +:+ nl +:+ "| old |")) false with
  | Ok body =>
      outsideMarkers body = Some ("", "") /\
      outsideMarkers (updateStatusTable body (statusTableHeading +:+ nl +:+ "| new |"))
        = Some ("", "")
  | Throw _ => False
  end.
Proof. vm_compute. split; reflexivity. Qed.

(** *** Facts about strings *)

Lemma string_app_cons (x : ascii) (a b : string) :
  String x a +:+ b = String x (a +:+ b).
Proof. reflexivity. Qed.

Lemma string_app_nil_l (b : string) : "" +:+ b = b.
Proof. reflexivity. Qed.

Lemma string_app_assoc (a b c : string) : (a +:+ b) +:+ c = a +:+ (b +:+ c).
Proof.
  induction a as [|x a IH]; [reflexivity|]. rewrite !string_app_cons. by rewrite IH.
Qed.

Lemma string_app_nil_r (a : string) : a +:+ "" = a.
Proof.
  induction a as [|x a IH]; [reflexivity|]. rewrite string_app_cons. by rewrite IH.
Qed.

Lemma string_length_app (a b : string) :
  String.length (a +:+ b) = String.length a + String.length b.
Proof.
  induction a as [|x a IH]; [reflexivity|]. rewrite string_app_cons. simpl.
  by rewrite IH.
Qed.

Lemma prefix_app (a b : string) : String.prefix a (a +:+ b) = true.
Proof.
  induction a as [|x a IH]; [by destruct b|]. rewrite string_app_cons. simpl.
  destruct (ascii_dec x x); [exact IH|done].
Qed.

Lemma prefix_short (needle hay : string) :
  String.length hay < String.length needle -> String.prefix needle hay = false.
Proof.
  revert hay. induction needle as [|x needle IH]; intros hay Hlt; [simpl in Hlt; lia|].
  destruct hay as [|y hay]; [reflexivity|]. cbn.
  destruct (ascii_dec x y); [|done]. apply IH. simpl in Hlt. lia.
Qed.

Lemma indexOf_prefix (needle hay : string) :
  String.prefix needle hay = true -> indexOf needle hay = Some 0.
Proof. intros H. destruct hay; unfold indexOf; by rewrite H. Qed.

Lemma indexOf_cons (needle : string) (c : ascii) (hay : string) :
  indexOf needle (String c hay)
  = if String.prefix needle (String c hay) then Some 0
    else option_map S (indexOf needle hay).
Proof. reflexivity. Qed.

(** The first occurrence of [needle] in a string that contains it comes no
    later than any given occurrence. *)
Lemma indexOf_app_needle (needle x y : string) :
  exists e, indexOf needle (x +:+ needle +:+ y) = Some e /\ e <= String.length x.
Proof.
  induction x as [|c x (e & He & Hle)].
  - exists 0. split; [|simpl; lia].
    rewrite string_app_nil_l. apply indexOf_prefix, prefix_app.
  - rewrite string_app_cons, indexOf_cons.
    destruct (String.prefix needle (String c (x +:+ needle +:+ y))).
    + exists 0. split; [done|lia].
    + exists (S e). rewrite He. split; [done|simpl; lia].
Qed.

Lemma substring_0_app (a b : string) (n : nat) :
  String.substring 0 (String.length a + n) (a +:+ b) = a +:+ String.substring 0 n b.
Proof.
  induction a as [|x a IH]; [reflexivity|]. rewrite string_app_cons. simpl.
  by rewrite IH.
Qed.

Lemma substring_all (y : string) : String.substring 0 (String.length y) y = y.
Proof. induction y as [|c y IH]; [reflexivity|]. simpl. by rewrite IH. Qed.

Lemma substring_to_end_app (x y : string) (n : nat) :
  n <= String.length x ->
  String.substring n (String.length (x +:+ y) - n) (x +:+ y)
  = String.substring n (String.length x - n) x +:+ y.
Proof.
  revert n. induction x as [|c x IH]; intros n Hn.
  - simpl in Hn. assert (n = 0) as -> by lia.
    rewrite string_app_nil_l, Nat.sub_0_r. simpl. apply substring_all.
  - destruct n as [|n].
    + rewrite !Nat.sub_0_r.
      pose proof (substring_0_app (String c x) y (String.length y)) as H.
      rewrite <- string_length_app in H. rewrite H.
      by rewrite !substring_all.
    + rewrite string_app_cons. simpl. apply IH. simpl in Hn. lia.
Qed.

Lemma substring_at_end (s : string) : String.substring (String.length s) 0 s = "".
Proof. induction s as [|c s IH]; [reflexivity|]. simpl. exact IH. Qed.

Lemma lastIndexOf_cons (needle : string) (c : ascii) (hay : string) :
  lastIndexOf needle (String c hay)
  = match lastIndexOf needle hay with
    | Some i => Some (S i)
    | None => if String.prefix needle (String c hay) then Some 0 else None
    end.
Proof. reflexivity. Qed.

Lemma lastIndexOf_short (needle hay : string) :
  String.length hay < String.length needle -> lastIndexOf needle hay = None.
Proof.
  induction hay as [|c hay IH]; intros Hlt.
  - unfold lastIndexOf. by rewrite prefix_short.
  - rewrite lastIndexOf_cons, IH by (simpl in Hlt; lia). by rewrite prefix_short.
Qed.

Lemma lastIndexOf_suffix (needle x : string) :
  needle <> "" -> lastIndexOf needle (x +:+ needle) = Some (String.length x).
Proof.
  intros Hne. induction x as [|c x IH].
  - rewrite string_app_nil_l. destruct needle as [|c needle]; [done|].
    rewrite lastIndexOf_cons, lastIndexOf_short by (simpl; lia).
    pose proof (prefix_app (String c needle) "") as H.
    rewrite string_app_nil_r in H. by rewrite H.
  - rewrite string_app_cons, lastIndexOf_cons. by rewrite IH.
Qed.

(** *** The orchestration block keeps its delimiters *)

(** Neither the end marker nor the status-table heading can begin inside
    the start marker: the search skips its 37 bytes. *)
Lemma indexOf_end_after_start (b : string) :
  indexOf orchestrationEnd (orchestrationStart +:+ b)
  = Nat.iter 37 (option_map S) (indexOf orchestrationEnd b).
Proof. vm_compute. reflexivity. Qed.

Lemma indexOf_heading_after_start (b : string) :
  indexOf statusTableHeading (orchestrationStart +:+ b)
  = Nat.iter 37 (option_map S) (indexOf statusTableHeading b).
Proof. vm_compute. reflexivity. Qed.

Lemma iter_option_map_Some (n : nat) (x : option nat) (e : nat) :
  Nat.iter n (option_map S) x = Some e -> exists e', x = Some e' /\ e = n + e'.
Proof.
  revert e. induction n as [|n IH]; intros e H; simpl in H.
  - by exists e.
  - destruct (Nat.iter n (option_map S) x) as [k|] eqn:Hk; [|done].
    injection H as <-. destruct (IH k eq_refl) as (e' & -> & ->).
    exists e'. split; [done|]. simpl. lia.
Qed.

Lemma substring_past_start (b : string) (n : nat) :
  substring (orchestrationStart +:+ b) 0 (37 + n)
  = orchestrationStart +:+ substring b 0 n.
Proof.
  unfold substring. rewrite !Nat.sub_0_r.
  exact (substring_0_app orchestrationStart b n).
Qed.

Lemma substringFrom_keeps_suffix (x y : string) (n : nat) :
  n <= String.length x -> substringFrom (x +:+ y) n = substringFrom x n +:+ y.
Proof. intros Hn. unfold substringFrom. by apply substring_to_end_app. Qed.

(** [build] writes the start marker first and the end marker last. *)
Lemma build_delimited (spec : option specification) (p : option plan)
    (originalRequest statusTable : option string) (planningStatus : bool)
    (body : string) :
  build spec p originalRequest statusTable planningStatus = Ok body ->
  exists inner, body = orchestrationStart +:+ inner +:+ orchestrationEnd.
Proof.
  unfold build. intros H.
  destruct spec as [sp|]; destruct (truthy originalRequest);
    destruct p as [pl|]; try destruct (buildPlanSection pl) as [section|e];
    try discriminate H;
    destruct (truthy statusTable || planningStatus);
    injection H as <-;
    match goal with
    | |- exists inner, ?L +:+ nl +:+ orchestrationEnd = _ =>
        assert (exists r, L = orchestrationStart +:+ r) as [r ->]
          by (rewrite ?string_app_assoc; by eexists);
        exists (r +:+ nl); by rewrite !string_app_assoc
    end.
Qed.

(** A status-table update of a delimited body keeps both delimiters in
    place, whatever the new table is. *)
Lemma updateStatusTable_delimited (inner newStatusTable : string) :
  exists inner',
    updateStatusTable (orchestrationStart +:+ inner +:+ orchestrationEnd) newStatusTable
    = orchestrationStart +:+ inner' +:+ orchestrationEnd.
Proof.
  set (body := orchestrationStart +:+ inner +:+ orchestrationEnd).
  destruct (indexOf_app_needle orchestrationEnd (orchestrationStart +:+ inner) "")
    as (e & He & Hle).
  rewrite string_app_nil_r, string_app_assoc in He. fold body in He.
  assert (Htail : substringFrom body e
                  = substringFrom (orchestrationStart +:+ inner) e +:+ orchestrationEnd).
  { unfold body. rewrite <- string_app_assoc. by apply substringFrom_keeps_suffix. }
  pose proof (indexOf_end_after_start (inner +:+ orchestrationEnd)) as Hskip.
  fold body in Hskip. rewrite He in Hskip. symmetry in Hskip.
  apply iter_option_map_Some in Hskip as (e' & _ & ->).
  unfold updateStatusTable. rewrite He.
  destruct (indexOf statusTableHeading body) as [s|] eqn:Hs.
  - pose proof (indexOf_heading_after_start (inner +:+ orchestrationEnd)) as Hh.
    fold body in Hh. rewrite Hs in Hh. symmetry in Hh.
    apply iter_option_map_Some in Hh as (s' & _ & ->).
    rewrite Htail. unfold body at 1. rewrite substring_past_start.
    exists (substring (inner +:+ orchestrationEnd) 0 s' +:+ newStatusTable +:+ nl +:+ nl
              +:+ substringFrom (orchestrationStart +:+ inner) (37 + e')).
    by rewrite !string_app_assoc.
  - rewrite Htail. unfold body at 1. rewrite substring_past_start.
    exists (substring (inner +:+ orchestrationEnd) 0 e' +:+ nl +:+ newStatusTable
              +:+ nl +:+ nl
              +:+ substringFrom (orchestrationStart +:+ inner) (37 + e')).
    by rewrite !string_app_assoc.
Qed.

Lemma outsideMarkers_delimited (inner : string) :
  outsideMarkers (orchestrationStart +:+ inner +:+ orchestrationEnd) = Some ("", "").
Proof.
  unfold outsideMarkers.
  rewrite (indexOf_prefix _ _ (prefix_app orchestrationStart _)).
  rewrite <- string_app_assoc, lastIndexOf_suffix by done.
  f_equal. f_equal.
  unfold substringFrom. rewrite <- string_length_app, Nat.sub_diag.
  apply substring_at_end.
Qed.




(** *** When [build] fails *)

Lemma implementationLines_Ok_iff (tasks : list implementationTask)
    (issues : list issueRef) (i : nat) :
  (exists lines, implementationLines i tasks issues = Ok lines)
  <-> tasks = [] \/ i + length tasks <= length issues.
Proof.
  revert i. induction tasks as [|task tasks IH]; intros i.
  - split; [by left|]. intros _. by eexists.
  - cbn [implementationLines length]. split.
    + intros [lines H]. right.
      destruct (issues !! i) as [issue|] eqn:Hi; [|done].
      apply lookup_lt_Some in Hi.
      destruct (implementationLines (S i) tasks issues) as [rest|e] eqn:Hrest; [|done].
      destruct (proj1 (IH (S i))) as [->|Hle]; [by eexists|simpl; lia|lia].
    + intros [|Hle]; [done|].
      destruct (lookup_lt_is_Some_2 issues i) as [issue ->]; [lia|].
      destruct (proj2 (IH (S i))) as [rest ->]; [|by eexists].
      destruct tasks; [by left|right; simpl in *; lia].
Qed.

Lemma testLines_Ok_iff (tasks : list testTask) (issues : list issueRef) (i : nat) :
  (exists lines, testLines i tasks issues = Ok lines)
  <-> tasks = [] \/ i + length tasks <= length issues.
Proof.
  revert i. induction tasks as [|task tasks IH]; intros i.
  - split; [by left|]. intros _. by eexists.
  - cbn [testLines length]. split.
    + intros [lines H]. right.
      destruct (issues !! i) as [issue|] eqn:Hi; [|done].
      apply lookup_lt_Some in Hi.
      destruct (testLines (S i) tasks issues) as [rest|e] eqn:Hrest; [|done].
      destruct (proj1 (IH (S i))) as [->|Hle]; [by eexists|simpl; lia|lia].
    + intros [|Hle]; [done|].
      destruct (lookup_lt_is_Some_2 issues i) as [issue ->]; [lia|].
      destruct (proj2 (IH (S i))) as [rest ->]; [|by eexists].
      destruct tasks; [by left|right; simpl in *; lia].
Qed.

Lemma buildPlanSection_Ok_iff (p : plan) :
  (exists section, buildPlanSection p = Ok section)
  <-> length (implementationTasks p) <= length (implementationIssues p)
      /\ length (testTasks p) <= length (testIssues p).
Proof.
  unfold buildPlanSection.
  pose proof (implementationLines_Ok_iff (implementationTasks p)
                (implementationIssues p) 0) as Himpl.
  pose proof (testLines_Ok_iff (testTasks p) (testIssues p) 0) as Htest.
  destruct (implementationLines 0 _ _) as [il|e1].
  - destruct (testLines 0 _ _) as [tl|e2].
    + split; [intros _|intros _; by eexists]. split.
      * destruct (proj1 Himpl) as [E|?];
          [by eexists|rewrite E; simpl; lia|simpl in *; lia].
      * destruct (proj1 Htest) as [E|?];
          [by eexists|rewrite E; simpl; lia|simpl in *; lia].
    + split; [intros [? ?]; done|]. intros [_ Hle].
      destruct (proj2 Htest) as [? ?]; [right; simpl; lia|done].
  - split; [intros [? ?]; done|]. intros [Hle _].
    destruct (proj2 Himpl) as [? ?]; [right; simpl; lia|done].
Qed.

(** [build] has one way to fail.  It returns a body unless it is given a
    plan that lists fewer tickets than tasks, for the implementation tasks
    or for the test tasks; then it throws, whatever the other arguments
    are. *)
Theorem build_fails_only_on_a_plan_with_missing_tickets
    (spec : option specification) (p : option plan)
    (originalRequest statusTable : option string) (planningStatus : bool) :
  (exists body, build spec p originalRequest statusTable planningStatus = Ok body)
  <-> forall pl, p = Some pl ->
        length (implementationTasks pl) <= length (implementationIssues pl)
        /\ length (testTasks pl) <= length (testIssues pl).
Proof.
  unfold build. destruct p as [pl|].
  - pose proof (buildPlanSection_Ok_iff pl) as Hplan.
    destruct (buildPlanSection pl) as [section|e].
    + split; [|intros _; by eexists].
      intros _ pl' [= <-]. apply Hplan. by eexists.
    + split; [intros [? ?]; done|]. intros H.
      destruct (proj2 Hplan (H pl eq_refl)) as [? ?]. done.
  - split; [intros _ pl; done|]. intros _. by eexists.
Qed.


(** *** Updating the table again *)

Lemma prefix_extend (p s y : string) :
  String.prefix p s = true -> String.prefix p (s +:+ y) = true.
Proof.
  revert s. induction p as [|a p IH]; intros s H; [by destruct (s +:+ y)|].
  destruct s as [|c s]; [discriminate|].
  rewrite string_app_cons. cbn in *.
  destruct (ascii_dec a c); [by apply IH|done].
Qed.

Lemma prefix_head (a c : ascii) (p s : string) :
  String.prefix (String a p) (String c s) = Ascii.eqb a c && String.prefix p s.
Proof.
  cbn. destruct (ascii_dec a c) as [->|Hne].
  - by rewrite Ascii.eqb_refl.
  - by rewrite (proj2 (Ascii.eqb_neq a c) Hne).
Qed.

(** [hasChar c s]: the character [c] occurs in [s]. *)
Fixpoint hasChar (c : ascii) (s : string) : bool :=
  match s with
  | EmptyString => false
  | String d s' => Ascii.eqb c d || hasChar c s'
  end.

(** A text without the character [c] that begins [x ++ c ++ z] lies within
    [x]. *)
Lemma prefix_before_char (c : ascii) (p x z : string) :
  hasChar c p = false ->
  String.prefix p (x +:+ String c z) = true -> String.prefix p x = true.
Proof.
  revert x. induction p as [|a p IH]; intros x Hp H; [by destruct x|].
  cbn [hasChar] in Hp. apply orb_false_iff in Hp as [Ha Hp].
  destruct x as [|b x].
  - rewrite string_app_nil_l, prefix_head in H.
    apply andb_true_iff in H as [H _]. rewrite Ascii.eqb_sym in H. congruence.
  - rewrite string_app_cons, prefix_head in H. rewrite prefix_head.
    apply andb_true_iff in H as [-> H]. by rewrite (IH x Hp H).
Qed.

Lemma indexOf_None_cons (needle : string) (c : ascii) (hay : string) :
  indexOf needle (String c hay) = None
  <-> String.prefix needle (String c hay) = false /\ indexOf needle hay = None.
Proof.
  rewrite indexOf_cons.
  destruct (String.prefix needle (String c hay)); [by split; [|intros []]|].
  destruct (indexOf needle hay); by split; [|intros []].
Qed.

(** A search that fails in a text fails in each of its prefixes. *)
Lemma indexOf_None_app (needle x z : string) :
  indexOf needle (x +:+ z) = None -> indexOf needle x = None.
Proof.
  induction x as [|c x IH]; intros H.
  - destruct needle as [|a needle]; [by destruct z|reflexivity].
  - rewrite string_app_cons in H. apply indexOf_None_cons in H as [Hpre H].
    apply indexOf_None_cons. split; [|by apply IH].
    destruct (String.prefix needle (String c x)) eqn:E; [|done].
    apply (prefix_extend _ _ z) in E. rewrite string_app_cons in E. congruence.
Qed.

(** The search passes a character that the needle does not hold. *)
Lemma indexOf_past_char (c : ascii) (needle x z : string) :
  hasChar c needle = false ->
  indexOf needle x = None ->
  indexOf needle (x +:+ String c z)
  = option_map (fun k => String.length x + 1 + k) (indexOf needle z).
Proof.
  intros Hc. induction x as [|a x IH]; intros Hx.
  - rewrite string_app_nil_l, indexOf_cons.
    destruct needle as [|b needle]; [done|].
    cbn [hasChar] in Hc. apply orb_false_iff in Hc as [Hb _].
    rewrite prefix_head, Ascii.eqb_sym, Hb. cbn [andb String.length].
    by destruct (indexOf _ z).
  - apply indexOf_None_cons in Hx as [Hpre Hx].
    rewrite string_app_cons, indexOf_cons.
    destruct (String.prefix needle (String a (x +:+ String c z))) eqn:E.
    + rewrite <- string_app_cons in E. apply prefix_before_char in E; congruence.
    + rewrite (IH Hx). cbn [String.length]. by destruct (indexOf needle z).
Qed.

(** What [indexOf] finds: the text splits around the first occurrence. *)
Lemma indexOf_Some_split (needle b : string) (i : nat) :
  indexOf needle b = Some i ->
  exists x y, b = x +:+ needle +:+ y /\ String.length x = i.
Proof.
  revert i. induction b as [|c b IH]; intros i H.
  - unfold indexOf in H. destruct needle; [|done]. injection H as <-.
    by exists "", "".
  - rewrite indexOf_cons in H.
    destruct (String.prefix needle (String c b)) eqn:Hpre.
    + injection H as <-. exists "".
      clear IH. revert Hpre. generalize (String c b). intros s.
      revert s. induction needle as [|a needle IHn]; intros s Hpre.
      * by exists s.
      * destruct s as [|d s]; [done|]. rewrite prefix_head in Hpre.
        apply andb_true_iff in Hpre as [Had Hpre].
        apply Ascii.eqb_eq in Had as ->.
        destruct (IHn s Hpre) as (y & Hy & _). exists y. split; [|done].
        rewrite string_app_nil_l in Hy. by rewrite string_app_nil_l, string_app_cons, <- Hy.
    + destruct (indexOf needle b) as [k|] eqn:Hk; [|done]. injection H as <-.
      destruct (IH k eq_refl) as (x & y & -> & <-).
      by exists (String c x), y.
Qed.

Lemma prefix_empty (s : string) : String.prefix "" s = true.
Proof. by destruct s. Qed.

Lemma prefix_long (p s y : string) :
  String.length p <= String.length s ->
  String.prefix p (s +:+ y) = String.prefix p s.
Proof.
  revert s. induction p as [|a p IH]; intros s Hlen; [by rewrite !prefix_empty|].
  destruct s as [|c s]; [simpl in Hlen; lia|].
  rewrite string_app_cons, !prefix_head, IH; [done|]. simpl in Hlen. lia.
Qed.

(** Where the first occurrence lies does not depend on what follows it. *)
Lemma indexOf_first_stable (needle x y z : string) :
  indexOf needle (x +:+ needle +:+ y) = Some (String.length x) ->
  indexOf needle (x +:+ needle +:+ z) = Some (String.length x).
Proof.
  induction x as [|c x IH]; intros H.
  - rewrite string_app_nil_l. apply indexOf_prefix, prefix_app.
  - rewrite string_app_cons, indexOf_cons in H |- *.
    assert (E : forall w, String c (x +:+ needle +:+ w) = (String c x +:+ needle) +:+ w)
      by (intros w; by rewrite string_app_assoc).
    rewrite E, prefix_long in H by (rewrite string_length_app; lia).
    rewrite E, prefix_long by (rewrite string_length_app; lia).
    destruct (String.prefix needle (String c x +:+ needle)); [done|].
    destruct (indexOf needle (x +:+ needle +:+ y)) as [k|] eqn:Hk; [|done].
    injection H as ->. by rewrite IH.
Qed.

Lemma substring_prefix (x y : string) :
  substring (x +:+ y) 0 (String.length x) = x.
Proof.
  unfold substring. rewrite Nat.sub_0_r.
  pose proof (substring_0_app x y 0) as H. rewrite Nat.add_0_r in H.
  rewrite H. destruct y; simpl; by rewrite string_app_nil_r.
Qed.

Lemma substringFrom_suffix (x y : string) :
  substringFrom (x +:+ y) (String.length x) = y.
Proof.
  rewrite substringFrom_keeps_suffix by lia.
  unfold substringFrom. by rewrite Nat.sub_diag, substring_at_end.
Qed.


(** Before the place where it is first found the needle does not occur. *)
Lemma indexOf_None_before (needle x z : string) (e : nat) :
  needle <> "" ->
  indexOf needle (x +:+ z) = Some e -> String.length x <= e ->
  indexOf needle x = None.
Proof.
  intros Hne. revert e. induction x as [|c x IH]; intros e H Hle.
  - by destruct needle.
  - rewrite string_app_cons, indexOf_cons in H.
    destruct (String.prefix needle (String c (x +:+ z))) eqn:Hpre.
    + injection H as <-. simpl in Hle. lia.
    + destruct (indexOf needle (x +:+ z)) as [k|] eqn:Hk; [|done].
      injection H as <-. apply indexOf_None_cons. split.
      * destruct (String.prefix needle (String c x)) eqn:E; [|done].
        apply (prefix_extend _ _ z) in E. rewrite string_app_cons in E. congruence.
      * apply (IH k eq_refl). simpl in Hle. lia.
Qed.

(** [updateStatusTable] of a body whose end marker is first found after
    [x2], without and with a heading. *)
Lemma updateStatusTable_without_heading (x2 r2 table : string) :
  indexOf statusTableHeading (x2 +:+ r2) = None ->
  indexOf orchestrationEnd (x2 +:+ r2) = Some (String.length x2) ->
  updateStatusTable (x2 +:+ r2) table
  = x2 +:+ nl +:+ table +:+ nl +:+ nl +:+ r2.
Proof.
  intros Hh He. unfold updateStatusTable.
  by rewrite Hh, He, substring_prefix, substringFrom_suffix.
Qed.

Lemma updateStatusTable_with_heading (b x1 r1 x2 r2 table : string) :
  b = x1 +:+ r1 -> b = x2 +:+ r2 ->
  indexOf statusTableHeading b = Some (String.length x1) ->
  indexOf orchestrationEnd b = Some (String.length x2) ->
  updateStatusTable b table = x1 +:+ table +:+ nl +:+ nl +:+ r2.
Proof.
  intros H1 H2 Hh He. unfold updateStatusTable. rewrite Hh, He.
  rewrite H1 at 1. rewrite substring_prefix.
  by rewrite H2, substringFrom_suffix.
Qed.

(** The update of a body that holds a table written by an update. *)
Lemma updateStatusTable_over_table (x t r next : string) (z : string) :
  indexOf statusTableHeading (x +:+ statusTableHeading +:+ z) = Some (String.length x) ->
  indexOf orchestrationEnd x = None ->
  indexOf orchestrationEnd (statusTableHeading +:+ t) = None ->
  updateStatusTable
    (x +:+ (statusTableHeading +:+ t) +:+ nl +:+ nl +:+ orchestrationEnd +:+ r) next
  = x +:+ next +:+ nl +:+ nl +:+ orchestrationEnd +:+ r.
Proof.
  intros Hh Hx Ht.
  set (table := statusTableHeading +:+ t) in *.
  apply (updateStatusTable_with_heading _ x
           (table +:+ nl +:+ nl +:+ orchestrationEnd +:+ r)
           (x +:+ table +:+ nl +:+ nl) (orchestrationEnd +:+ r)).
  - reflexivity.
  - by rewrite !string_app_assoc.
  - unfold table. rewrite string_app_assoc.
    by apply (indexOf_first_stable _ _ z).
  - assert (Hsharp : exists h, statusTableHeading = String "#" h) by (by eexists).
    destruct Hsharp as [h Hheading].
    assert (Htable : table = String "#" (h +:+ t))
      by (unfold table; by rewrite Hheading).
    assert (Hrest : indexOf orchestrationEnd (h +:+ t) = None).
    { rewrite Htable in Ht. by apply indexOf_None_cons in Ht as [_ ?]. }
    rewrite Htable, string_app_cons.
    rewrite (indexOf_past_char "#") by done.
    replace (nl +:+ nl +:+ orchestrationEnd +:+ r)
      with (String (ascii_of_nat 10) (nl +:+ orchestrationEnd +:+ r)) by reflexivity.
    rewrite (indexOf_past_char (ascii_of_nat 10)) by done.
    change (nl +:+ orchestrationEnd +:+ r)
      with ("" +:+ String (ascii_of_nat 10) (orchestrationEnd +:+ r)).
    rewrite (indexOf_past_char (ascii_of_nat 10)) by done.
    rewrite (indexOf_prefix _ _ (prefix_app _ _)).
    cbn [option_map]. f_equal.
    rewrite !string_length_app. unfold nl. cbn [String.length].
    rewrite !string_length_app. lia.
Qed.

(** Updating the table again.  On a body that holds the end marker, and
    whose first table heading, if it has one, comes before the first end
    marker, a status table that does not itself hold the end marker is
    replaced as a whole by the next update: two updates in a row give what
    the second alone gives, so the body does not grow with the number of
    updates. *)
Theorem updateStatusTable_twice_is_last_update (b t next : string) (e : nat) :
  indexOf orchestrationEnd b = Some e ->
  (forall s, indexOf statusTableHeading b = Some s -> s <= e) ->
  includes (statusTableHeading +:+ t) orchestrationEnd = false ->
  updateStatusTable (updateStatusTable b (statusTableHeading +:+ t)) next
  = updateStatusTable b next.
Proof.
  intros He Hle Ht.
  assert (Htable : indexOf orchestrationEnd (statusTableHeading +:+ t) = None).
  { unfold includes in Ht. by destruct (indexOf _ (statusTableHeading +:+ t)). }
  destruct (indexOf_Some_split _ _ _ He) as (x2 & y2 & Hb2 & Hx2).
  assert (Hbefore2 : indexOf orchestrationEnd x2 = None).
  { apply (indexOf_None_before _ _ (orchestrationEnd +:+ y2) e); [done| |lia].
    by rewrite <- Hb2. }
  destruct (indexOf statusTableHeading b) as [s|] eqn:Hh.
  - destruct (indexOf_Some_split _ _ _ Hh) as (x1 & y1 & Hb1 & Hx1).
    specialize (Hle s eq_refl).
    assert (Hbefore1 : indexOf orchestrationEnd x1 = None).
    { apply (indexOf_None_before _ _ (statusTableHeading +:+ y1) e); [done| |lia].
      by rewrite <- Hb1. }
    rewrite <- Hx1 in Hh. rewrite <- Hx2 in He.
    rewrite !(updateStatusTable_with_heading b x1 _ x2 _ _ Hb1 Hb2 Hh He).
    apply (updateStatusTable_over_table _ _ _ _ y1); [|done..].
    by rewrite <- Hb1.
  - subst b. rewrite <- Hx2 in He.
    rewrite !(updateStatusTable_without_heading _ _ _ Hh He).
    pose proof (indexOf_None_app _ _ _ Hh) as Hnone.
    replace (x2 +:+ nl +:+ (statusTableHeading +:+ t) +:+ nl +:+ nl
               +:+ orchestrationEnd +:+ y2)
      with ((x2 +:+ nl) +:+ (statusTableHeading +:+ t) +:+ nl +:+ nl
               +:+ orchestrationEnd +:+ y2)
      by (by rewrite !string_app_assoc).
    rewrite (updateStatusTable_over_table _ _ _ _ "");
      [by rewrite !string_app_assoc| | |done].
    + rewrite string_app_assoc.
      replace (nl +:+ statusTableHeading +:+ "")
        with (String (ascii_of_nat 10) (statusTableHeading +:+ "")) by reflexivity.
      rewrite (indexOf_past_char (ascii_of_nat 10)) by done.
      rewrite (indexOf_prefix _ _ (prefix_app _ _)). cbn [option_map].
      f_equal. rewrite string_length_app. simpl. lia.
    + replace (x2 +:+ nl) with (x2 +:+ String (ascii_of_nat 10) "") by reflexivity.
      by rewrite (indexOf_past_char (ascii_of_nat 10)) by done.
Qed.


Lemma updateStatusTable_twice_is_last_update_witness :
  let b := orchestrationStart +:+ nl +:+ "## Plan" +:+ nl +:+ orchestrationEnd in
  updateStatusTable
    (updateStatusTable b (statusTableHeading +:+ nl +:+ "| old |"))
    (statusTableHeading +:+ nl +:+ "| new |")
  = updateStatusTable b (statusTableHeading +:+ nl +:+ "| new |").
Proof.
  intros b. eapply updateStatusTable_twice_is_last_update.
  - vm_compute. reflexivity.
  - intros s H. vm_compute in H. discriminate.
  - vm_compute. reflexivity.
Defined.


(** *** Reading a body back ([parse]) *)

Definition bytes (l : list nat) : string :=
  string_of_list_ascii (map ascii_of_nat l).

(** The characters [trim] removes, WhiteSpace and LineTerminator of the
    language, in UTF-8: tab, LF, VT, FF, CR, space, U+00A0, U+1680,
    U+2000..U+200A, U+2028, U+2029, U+202F, U+205F, U+3000, U+FEFF. *)
Definition whiteSpace : list string :=
  map bytes
    [ [9]; [10]; [11]; [12]; [13]; [32]; [194; 160]; [225; 154; 128];
      [226; 128; 128]; [226; 128; 129]; [226; 128; 130]; [226; 128; 131];
      [226; 128; 132]; [226; 128; 133]; [226; 128; 134]; [226; 128; 135];
      [226; 128; 136]; [226; 128; 137]; [226; 128; 138];
      [226; 128; 168]; [226; 128; 169]; [226; 128; 175]; [226; 129; 159];
      [227; 128; 128]; [239; 187; 191] ].

Fixpoint dropLength (n : nat) (s : string) : string :=
  match n, s with
  | S n', String _ s' => dropLength n' s'
  | _, _ => s
  end.

(** The rest of [s] after one of the texts [pats] at its head. *)
Fixpoint stripOne (pats : list string) (s : string) : option string :=
  match pats with
  | [] => None
  | p :: pats' =>
      if String.prefix p s then Some (dropLength (String.length p) s)
      else stripOne pats' s
  end.

Fixpoint stripAll (fuel : nat) (pats : list string) (s : string) : string :=
  match fuel with
  | 0 => s
  | S fuel' =>
      match stripOne pats s with
      | Some rest => stripAll fuel' pats rest
      | None => s
      end
  end.

Definition reverse (s : string) : string :=
  string_of_list_ascii (rev (list_ascii_of_string s)).

(** [s.trim()] *)
Definition trim (s : string) : string :=
  let s1 := stripAll (String.length s) whiteSpace s in
  reverse (stripAll (String.length s1) (map reverse whiteSpace) (reverse s1)).

(** [s.substring(a, b)] for any two indices: the larger is the end, and
    both are cut to the length of the string. *)
Definition substringAny (s : string) (a b : nat) : string :=
  String.substring (Nat.min a b) (Nat.max a b - Nat.min a b) s.

Record parsed := mkParsed {
  originalRequest : string;
  orchestrationContent : option string;
  hasOrchestration : bool
}.

(** [parse(issueBody)].  Without an end marker [endIdx] is [-1], and the
    content ends at index [endMarker.length - 1]. *)
Definition parse (issueBody : string) : parsed :=
  match indexOf orchestrationStart issueBody with
  | None => mkParsed (trim issueBody) None false
  | Some startIdx =>
      let contentEnd :=
        match indexOf orchestrationEnd issueBody with
        | Some endIdx => endIdx + String.length orchestrationEnd
        | None => String.length orchestrationEnd - 1
        end in
      mkParsed (trim (substringAny issueBody 0 startIdx))
               (Some (substringAny issueBody startIdx contentEnd))
               true
  end.

Example trim_example :
  trim (bytes [32; 10; 226; 128; 168] +:+ "add  login" +:+ bytes [9; 239; 187; 191; 13])
  = "add  login".
Proof. vm_compute. reflexivity. Qed.

Example parse_plain_request :
  parse ("  Please add login" +:+ nl) = mkParsed "Please add login" None false.
Proof. vm_compute. reflexivity. Qed.

(** The request given to [build] is not what [parse] reads back.  [build]
    puts everything, the quoted request included, between the two markers,
    and [parse] takes the request from the text before the start marker: for
    every body that [build] returns, [parse] reports an orchestration block
    and an empty original request, whatever request was passed to [build]. *)
Theorem parse_of_a_built_body_has_no_request :
  forall (spec : option specification) (p : option plan)
         (request statusTable : option string) (planningStatus : bool)
         (body : string),
    build spec p request statusTable planningStatus = Ok body ->
    originalRequest (parse body) = ""
    /\ hasOrchestration (parse body) = true
    /\ exists x y, body = x +:+ orchestrationEnd +:+ y
                   /\ indexOf orchestrationEnd x = None
                   /\ orchestrationContent (parse body) = Some (x +:+ orchestrationEnd).
Proof.
  intros spec p request table ps body Hbuild.
  apply build_delimited in Hbuild as [inner ->].
  set (body := orchestrationStart +:+ inner +:+ orchestrationEnd).
  assert (Hstart : indexOf orchestrationStart body = Some 0)
    by apply indexOf_prefix, prefix_app.
  destruct (indexOf_app_needle orchestrationEnd (orchestrationStart +:+ inner) "")
    as (e & He & _).
  rewrite string_app_nil_r, string_app_assoc in He. fold body in He.
  destruct (indexOf_Some_split _ _ _ He) as (x & y & Hbody & Hx).
  unfold parse. rewrite Hstart, He. cbn [originalRequest hasOrchestration orchestrationContent].
  split; [reflexivity|]. split; [reflexivity|].
  exists x, y. split; [done|]. split.
  - apply (indexOf_None_before _ _ (orchestrationEnd +:+ y) e); [done| |lia].
    by rewrite <- Hbody.
  - f_equal. unfold substringAny. rewrite Nat.min_0_l, Nat.max_0_l, Nat.sub_0_r.
    rewrite Hbody, <- Hx, <- string_length_app, <- string_app_assoc.
    pose proof (substring_0_app (x +:+ orchestrationEnd) y 0) as H.
    rewrite Nat.add_0_r in H. rewrite H. destruct y; simpl; by rewrite string_app_nil_r.
Qed.

Lemma parse_of_a_built_body_has_no_request_witness :
  exists body,
    build (Some sampleSpec) None (Some "Please add login") None false = Ok body
    /\ originalRequest (parse body) = "".
Proof.
  destruct (build (Some sampleSpec) None (Some "Please add login") None false)
    as [body|e] eqn:Hbuild; [|by vm_compute in Hbuild].
  exists body. split; [reflexivity|].
  by apply (parse_of_a_built_body_has_no_request _ _ _ _ _ _ Hbuild).
Defined.

End IssueBodyManager.

(** ** Test self-heal coordinator (TestRetryCoordinator) *)

Module TestRetryCoordinator.

Record repository := mkRepository { owner : string; repo : string }.

(** A tracker issue as the coordinator reads it; [labels] holds the label
    names. *)
Record issue := mkIssue { number : nat; title : string; labels : list string }.

(** [config.agents.<name>.timeout], [None] when the agent is not configured. *)
Record config := mkConfig {
  craftsmanTimeout : option nat;
  janosTimeout : option nat
}.

(** [{success, attempts}] *)
Record fixResult := mkFixResult { success : bool; attempts : nat }.

(** The calls the coordinator makes on its collaborators, with the
    arguments that identify them. *)
Inductive callRecord :=
| Notify (event : string) (data : list (string * string))
| HandleTestFailure (testIssue : nat) (worktreePath : string) (attemptNumber : nat)
| NotifyTaskUpdate
| ExecuteAgent (agentName : string) (issueNumber : nat) (worktreePath : string)
               (masterIssueNumber : nat)
| PollForCompletion (issueNumber : nat) (timeoutMs : nat)
| RemoveLabel (issueNumber : nat) (label : string)
| GetIssueLabels (issueNumber : nat)
| AddLabels (issueNumber : nat) (labelNames : list string)
| CreateComment (issueNumber : nat) (body : string)
| CloseIssue (issueNumber : nat)
| ResolveDependencies (allTests : list nat).

(** The collaborators (notifier, tracker, agent executor, poller, failure
    handler, dependency resolver, status updater): how each call settles,
    given the calls made before it.  Any of them may throw. *)
Record environment := mkEnvironment {
  settles : list callRecord -> callRecord -> outcome unit;
  fixIssueFor : list callRecord -> callRecord -> outcome nat;
  pollTimedOut : list callRecord -> callRecord -> outcome bool;
  issueLabels : list callRecord -> callRecord -> outcome (list string);
  dependenciesOf : list callRecord -> callRecord -> outcome (gmap nat (list nat))
}.

(** The state threaded through [coordinateTestFix]: the calls made so far
    and the two local variables of the attempt loop. *)
Record state := mkState {
  log : list callRecord;
  attemptNumber : nat;
  testPassed : bool
}.

Definition maxAttempts : nat := 10.

Definition perform {A} (c : callRecord)
    (answer : list callRecord -> callRecord -> outcome A) : M state A :=
  fun s => (answer (log s) c,
            mkState (log s ++ [c]) (attemptNumber s) (testPassed s)).

(** Decimal digits at the head of a string, and [parseInt(digits, 10)]. *)
Definition isDigit (c : ascii) : bool :=
  let n := nat_of_ascii c in (48 <=? n) && (n <=? 57).

Fixpoint leadingDigits (s : string) : string :=
  match s with
  | String c s' => if isDigit c then String c (leadingDigits s') else EmptyString
  | EmptyString => EmptyString
  end.

Fixpoint parseDigits (acc : nat) (s : string) : nat :=
  match s with
  | String c s' => parseDigits (10 * acc + (nat_of_ascii c - 48)) s'
  | EmptyString => acc
  end.

Fixpoint dropChars (n : nat) (s : string) : string :=
  match n, s with
  | S n', String _ s' => dropChars n' s'
  | _, _ => s
  end.

Definition masterPrefix : string := "oc-ralph:master-".

(** [name.match(/oc-ralph:master-(\d+)/)] followed by [parseInt]. *)
Fixpoint matchMasterNumber (name : string) : option nat :=
  let here :=
    if String.prefix masterPrefix name then
      match leadingDigits (dropChars (String.length masterPrefix) name) with
      | EmptyString => None
      | digits => Some (parseDigits 0 digits)
      end
    else None in
  match here with
  | Some n => Some n
  | None => match name with
            | String _ name' => matchMasterNumber name'
            | EmptyString => None
            end
  end.

Definition extractMasterIssueNumber (testIssue : issue) : M state nat :=
  match find (fun l => String.prefix masterPrefix l) (labels testIssue) with
  | Some masterLabel =>
      match matchMasterNumber masterLabel with
      | Some n => ret n
      | None => throw (Error "Could not extract master issue number from test issue")
      end
  | None => throw (Error "Could not extract master issue number from test issue")
  end.

Section Coordinator.

Variable env : environment.
Variable cfg : config.
Variable repository_ : repository.
Variable worktreePath : string.

Definition repoSlug : string := owner repository_ +:+ "/" +:+ repo repository_.

Definition notify (event : string) (data : list (string * string)) : M state unit :=
  perform (Notify event data) (settles env).

Definition notifyTaskUpdate : M state unit := perform NotifyTaskUpdate (settles env).

Definition createComment (issueNumber : nat) (body : string) : M state unit :=
  perform (CreateComment issueNumber body) (settles env).

(** [config.agents.<name>.timeout]: reading it throws when the agent is not
    configured. *)
Definition agentTimeout (timeout : option nat) : M state nat :=
  match timeout with
  | Some t => ret t
  | None => throw (Error "Cannot read properties of undefined (reading 'timeout')")
  end.

Definition createFixIssue (testIssue : issue) (attempt : nat) : M state nat :=
  (let* fixIssue :=
     perform (HandleTestFailure (number testIssue) worktreePath attempt)
             (fixIssueFor env) in
   let* master := extractMasterIssueNumber testIssue in
   let* _ := notify "test-fix-started"
               [ ("masterIssueNumber", natToString master);
                 ("testIssue", natToString (number testIssue));
                 ("fixIssue", natToString fixIssue);
                 ("attemptNumber", natToString attempt);
                 ("maxAttempts", natToString maxAttempts);
                 ("repo", repoSlug) ] in
   let* _ := notifyTaskUpdate in
   ret fixIssue)%js.

(** The [catch] of [runFixAgent] logs and rethrows, so it is the identity. *)
Definition runFixAgent (fixIssue masterIssueNumber : nat) : M state unit :=
  try_catch
    (let* _ := perform (ExecuteAgent "craftsman" fixIssue worktreePath masterIssueNumber)
                       (settles env) in
     let* timeout := agentTimeout (craftsmanTimeout cfg) in
     let* timedOut := perform (PollForCompletion fixIssue (timeout * 1000))
                              (pollTimedOut env) in
     if timedOut : bool then
       throw (Error ("Fix agent timed out after " +:+ natToString timeout +:+ "s"))
     else
       notify "test-fix-completed"
         [ ("masterIssueNumber", natToString masterIssueNumber);
           ("fixIssue", natToString fixIssue);
           ("repo", repoSlug) ])%js
    (fun e => throw e).

Definition isFailureLabel (l : string) : bool :=
  String.eqb l "oc-ralph:test-failed" || String.eqb l "oc-ralph:failed".

Fixpoint removeLabels (issueNumber : nat) (ls : list string) : M state unit :=
  match ls with
  | [] => ret tt
  | l :: ls' =>
      (let* _ := perform (RemoveLabel issueNumber l) (settles env) in
       removeLabels issueNumber ls')%js
  end.

(** [rerunTest]: every exception inside is caught and reported as "not
    passed". *)
Definition rerunTest (testIssue : issue) : M state bool :=
  try_catch
    (let* _ := perform (RemoveLabel (number testIssue) "oc-ralph:agent-complete")
                       (settles env) in
     let* current := perform (GetIssueLabels (number testIssue)) (issueLabels env) in
     let* _ := removeLabels (number testIssue) (List.filter isFailureLabel current) in
     let* master := extractMasterIssueNumber testIssue in
     let* _ := perform (ExecuteAgent "janos" (number testIssue) worktreePath master)
                       (settles env) in
     let* timeout := agentTimeout (janosTimeout cfg) in
     let* timedOut := perform (PollForCompletion (number testIssue) (timeout * 1000))
                              (pollTimedOut env) in
     if timedOut : bool then
       throw (Error ("Test re-run timed out after " +:+ natToString timeout +:+ "s"))
     else
       let* updated := perform (GetIssueLabels (number testIssue)) (issueLabels env) in
       ret (negb (existsb isFailureLabel updated)))%js
    (fun _ => ret false).

Definition handleSuccessfulFix (testIssue : issue) (fixIssue attempt master : nat)
  : M state unit :=
  (let* _ := createComment fixIssue
               ("✅ Test passed after this fix! Attempt " +:+ natToString attempt
                  +:+ "/" +:+ natToString maxAttempts +:+ " was successful.") in
   let* _ := perform (CloseIssue fixIssue) (settles env) in
   let* _ := createComment (number testIssue)
               ("✅ Test fixed successfully after " +:+ natToString attempt
                  +:+ " attempt(s)!") in
   let* _ := notify "test-passed-after-fix"
               [ ("masterIssueNumber", natToString master);
                 ("testIssue", natToString (number testIssue));
                 ("fixIssue", natToString fixIssue);
                 ("attemptNumber", natToString attempt);
                 ("repo", repoSlug) ] in
   notifyTaskUpdate)%js.

Fixpoint rerunEach (testIssue : issue) (dependentTests : list issue) : M state unit :=
  match dependentTests with
  | [] => ret tt
  | depTest :: rest =>
      (let* passed := rerunTest depTest in
       if passed : bool then rerunEach testIssue rest
       else throw (Error ("Fix for test #" +:+ natToString (number testIssue)
                            +:+ " broke dependent test #"
                            +:+ natToString (number depTest))))%js
  end.

Definition rerunDependentTests (testIssue : issue) (allTests : list issue)
  : M state unit :=
  try_catch
    (let* dependencies :=
       perform (ResolveDependencies (map number allTests)) (dependenciesOf env) in
     let dependentTests :=
       List.filter
         (fun t => bool_decide
                     (number testIssue ∈ default [] (dependencies !! number t)))
         allTests in
     rerunEach testIssue dependentTests)%js
    (fun e => throw e).

Definition handleMaxAttemptsReached (testIssue : issue) (master : nat) : M state unit :=
  (let* _ := perform (AddLabels (number testIssue)
                        ["oc-ralph:max-attempts-reached"; "oc-ralph:test-failed"])
                     (settles env) in
   let* _ := createComment (number testIssue)
               ("❌ Maximum fix attempts (" +:+ natToString maxAttempts
                  +:+ ") reached. Test could not be fixed automatically.") in
   let* _ := notify "test-max-attempts-reached"
               [ ("masterIssueNumber", natToString master);
                 ("testIssue", natToString (number testIssue));
                 ("maxAttempts", natToString maxAttempts);
                 ("repo", repoSlug) ] in
   notifyTaskUpdate)%js.

Definition setTestPassed (b : bool) : M state unit :=
  modify (fun s => mkState (log s) (attemptNumber s) b).

Definition incrementAttempt : M state unit :=
  modify (fun s => mkState (log s) (S (attemptNumber s)) (testPassed s)).

(** One pass of the [while] body: the [try] block and its [catch].  The
    result is [Some r] when the pass executes [return r]. *)
Definition attemptBody (testIssue : issue) (allTests : list issue) (master : nat)
  : M state (option fixResult) :=
  try_catch
    (let* s := get in
     let attempt := attemptNumber s in
     let* fixIssue := createFixIssue testIssue attempt in
     let* _ := runFixAgent fixIssue master in
     let* passed := rerunTest testIssue in
     let* _ := setTestPassed passed in
     if passed : bool then
       let* _ := handleSuccessfulFix testIssue fixIssue attempt master in
       let* _ := rerunDependentTests testIssue allTests in
       ret (Some (mkFixResult true attempt))
     else
       let* _ := createComment fixIssue
                   ("❌ Test still failing after this fix attempt. Moving to attempt "
                      +:+ natToString (attempt + 1) +:+ "/"
                      +:+ natToString maxAttempts) in
       let* _ := incrementAttempt in
       ret None)%js
    (fun _ => let* _ := incrementAttempt in ret None)%js.

(** How the [while] loop is left. *)
Inductive loopExit :=
| Returned (r : fixResult)
| ConditionFalse
| OutOfFuel.

(** [while (attemptNumber <= this.maxAttempts && !testPassed)] *)
Fixpoint attemptLoop (fuel : nat) (testIssue : issue) (allTests : list issue)
    (master : nat) : M state loopExit :=
  (let* s := get in
   if (attemptNumber s <=? maxAttempts) && negb (testPassed s) then
     match fuel with
     | 0 => ret OutOfFuel
     | S fuel' =>
         let* r := attemptBody testIssue allTests master in
         match r with
         | Some res => ret (Returned res)
         | None => attemptLoop fuel' testIssue allTests master
         end
     end
   else ret ConditionFalse)%js.

(** [coordinateTestFix]; [None] only if the loop ran out of fuel, which
    [maxAttempts] passes never do (see [coordinateTestFix_total]). *)
Definition coordinateTestFix (testIssue : issue) (allTests : list issue)
    (masterIssueNumber : nat) : M state (option fixResult) :=
  (let* _ := notify "test-failed"
               [ ("masterIssueNumber", natToString masterIssueNumber);
                 ("testIssue", natToString (number testIssue));
                 ("testTitle", title testIssue);
                 ("repo", repoSlug) ] in
   let* _ := modify (fun s => mkState (log s) 1 false) in
   let* exit := attemptLoop maxAttempts testIssue allTests masterIssueNumber in
   match exit with
   | Returned r => ret (Some r)
   | ConditionFalse =>
       let* _ := handleMaxAttemptsReached testIssue masterIssueNumber in
       ret (Some (mkFixResult false maxAttempts))
   | OutOfFuel => ret None
   end)%js.

(** [TestingStage.fixFailedTests]: one entry per failed test; a coordinator
    that throws is recorded as unsuccessful with zero attempts. *)
Fixpoint fixFailedTests (failedTests allTests : list issue) (master : nat)
  : M state (option (list (nat * fixResult))) :=
  match failedTests with
  | [] => ret (Some [])
  | failedTest :: rest =>
      (let* r := try_catch
                   (coordinateTestFix failedTest allTests master)
                   (fun _ => ret (Some (mkFixResult false 0))) in
       let* rs := fixFailedTests rest allTests master in
       match r, rs with
       | Some r, Some rs => ret (Some ((number failedTest, r) :: rs))
       | _, _ => ret None
       end)%js
  end.

(** The check of [TestingStage.execute] on the fix results: the stage
    throws when some test was not fixed. *)
Definition stageFailure (fixResults : list (nat * fixResult)) : option error :=
  let permanentlyFailed := List.filter (fun r => negb (success (snd r))) fixResults in
  if 0 <? length permanentlyFailed then
    Some (Error (natToString (length permanentlyFailed)
                   +:+ " test(s) could not be fixed after maximum attempts"))
  else None.

End Coordinator.

Definition initialState : state := mkState [] 0 false.

(** The fix attempts started: one [handleTestFailure] call opens each. *)
Definition fixAttemptsStarted (l : list callRecord) : list nat :=
  flat_map (fun c => match c with
                     | HandleTestFailure _ _ k => [k]
                     | _ => []
                     end) l.

(** *** Calls that start no fix attempt and leave the loop variables alone *)

Definition sameAttempts (s s' : state) : Prop :=
  fixAttemptsStarted (log s') = fixAttemptsStarted (log s) /\
  attemptNumber s' = attemptNumber s /\
  testPassed s' = testPassed s.

Definition quiet {A} (m : M state A) : Prop :=
  forall s, sameAttempts s (snd (m s)).

Lemma sameAttempts_refl (s : state) : sameAttempts s s.
Proof. by repeat split. Qed.

Lemma sameAttempts_trans (s1 s2 s3 : state) :
  sameAttempts s1 s2 -> sameAttempts s2 s3 -> sameAttempts s1 s3.
Proof.
  intros (H1 & H2 & H3) (H4 & H5 & H6). repeat split; congruence.
Qed.

Lemma quiet_ret {A} (a : A) : quiet (ret a).
Proof. intros s. apply sameAttempts_refl. Qed.

Lemma quiet_throw {A} (e : error) : quiet (throw (A := A) e).
Proof. intros s. apply sameAttempts_refl. Qed.

Lemma quiet_bind {A B} (m : M state A) (k : A -> M state B) :
  quiet m -> (forall a, quiet (k a)) -> quiet (bind m k).
Proof.
  intros Hm Hk s. unfold bind. specialize (Hm s).
  destruct (m s) as [[a|e] s1]; simpl in *; [|done].
  eapply sameAttempts_trans; [exact Hm|]. apply Hk.
Qed.

Lemma quiet_try_catch {A} (m : M state A) (h : error -> M state A) :
  quiet m -> (forall e, quiet (h e)) -> quiet (try_catch m h).
Proof.
  intros Hm Hh s. unfold try_catch. specialize (Hm s).
  destruct (m s) as [[a|e] s1]; simpl in *; [done|].
  eapply sameAttempts_trans; [exact Hm|]. apply Hh.
Qed.

Definition startsNoAttempt (c : callRecord) : Prop :=
  match c with
  | HandleTestFailure _ _ _ => False
  | _ => True
  end.

Lemma quiet_perform {A} (c : callRecord)
    (answer : list callRecord -> callRecord -> outcome A) :
  startsNoAttempt c -> quiet (perform c answer).
Proof.
  intros Hc s. unfold perform, sameAttempts, fixAttemptsStarted. simpl.
  rewrite flat_map_app. simpl. destruct c; try done; by rewrite app_nil_r.
Qed.

Lemma quiet_extractMasterIssueNumber (t : issue) : quiet (extractMasterIssueNumber t).
Proof.
  unfold extractMasterIssueNumber.
  destruct (find _ (labels t)); [destruct (matchMasterNumber _)|];
    auto using @quiet_ret, @quiet_throw.
Qed.

Lemma quiet_agentTimeout (timeout : option nat) : quiet (agentTimeout timeout).
Proof. destruct timeout; [apply quiet_ret|apply quiet_throw]. Qed.

Ltac quiet_step :=
  first
    [ apply quiet_bind; [|intros ?]
    | apply quiet_try_catch; [|intros ?]
    | apply quiet_perform; exact I
    | apply quiet_ret
    | apply quiet_throw
    | apply quiet_extractMasterIssueNumber
    | apply quiet_agentTimeout
    | match goal with |- quiet (if ?b then _ else _) => destruct b end ].

Section CoordinatorFacts.

Variable env : environment.
Variable cfg : config.
Variable repository_ : repository.
Variable worktreePath : string.

Lemma quiet_notify (event : string) (data : list (string * string)) :
  quiet (notify env event data).
Proof. unfold notify. repeat quiet_step. Qed.

Lemma quiet_notifyTaskUpdate : quiet (notifyTaskUpdate env).
Proof. unfold notifyTaskUpdate. repeat quiet_step. Qed.

Lemma quiet_createComment (n : nat) (body : string) : quiet (createComment env n body).
Proof. unfold createComment. repeat quiet_step. Qed.

Lemma quiet_runFixAgent (fixIssue master : nat) :
  quiet (runFixAgent env cfg repository_ worktreePath fixIssue master).
Proof. unfold runFixAgent, notify. repeat quiet_step. Qed.

Lemma quiet_removeLabels (n : nat) (ls : list string) : quiet (removeLabels env n ls).
Proof. induction ls as [|l ls IH]; simpl; repeat quiet_step. exact IH. Qed.

Lemma quiet_rerunTest (t : issue) : quiet (rerunTest env cfg worktreePath t).
Proof.
  unfold rerunTest. repeat quiet_step; try apply quiet_removeLabels.
Qed.

Lemma quiet_handleSuccessfulFix (t : issue) (fixIssue attempt master : nat) :
  quiet (handleSuccessfulFix env repository_ t fixIssue attempt master).
Proof.
  unfold handleSuccessfulFix, notify, notifyTaskUpdate, createComment.
  repeat quiet_step.
Qed.

Lemma quiet_rerunEach (t : issue) (deps : list issue) :
  quiet (rerunEach env cfg worktreePath t deps).
Proof.
  induction deps as [|d deps IH]; simpl; [apply quiet_ret|].
  apply quiet_bind; [apply quiet_rerunTest|]. intros [|]; [exact IH|apply quiet_throw].
Qed.

Lemma quiet_rerunDependentTests (t : issue) (allTests : list issue) :
  quiet (rerunDependentTests env cfg worktreePath t allTests).
Proof.
  unfold rerunDependentTests. repeat quiet_step. apply quiet_rerunEach.
Qed.

Lemma quiet_handleMaxAttemptsReached (t : issue) (master : nat) :
  quiet (handleMaxAttemptsReached env repository_ t master).
Proof.
  unfold handleMaxAttemptsReached, notify, notifyTaskUpdate, createComment.
  repeat quiet_step.
Qed.

(** [rerunTest] never throws. *)
Lemma rerunTest_returns (t : issue) (s : state) :
  exists b, fst (rerunTest env cfg worktreePath t s) = Ok b.
Proof.
  unfold rerunTest, try_catch.
  match goal with |- context [match ?m s with _ => _ end] => destruct (m s) as [[b|e] s1] end.
  - by exists b.
  - by exists false.
Qed.

Variable testIssue : issue.
Variable allTests : list issue.
Variable master : nat.

Abbreviation createFixIssue' := (createFixIssue env repository_ worktreePath testIssue).
Abbreviation runFixAgent' := (runFixAgent env cfg repository_ worktreePath).
Abbreviation rerunTest' := (rerunTest env cfg worktreePath).
Abbreviation attemptBody' :=
  (attemptBody env cfg repository_ worktreePath testIssue allTests master).
Abbreviation attemptLoop' :=
  (fun fuel => attemptLoop env cfg repository_ worktreePath fuel testIssue allTests master).

(** A state reached from [s] by starting exactly the fix attempt [k]. *)
Definition oneMoreAttempt (k : nat) (s s' : state) : Prop :=
  fixAttemptsStarted (log s') = fixAttemptsStarted (log s) ++ [k] /\
  attemptNumber s' = attemptNumber s /\
  testPassed s' = testPassed s.

Lemma oneMoreAttempt_then (k : nat) (s1 s2 s3 : state) :
  oneMoreAttempt k s1 s2 -> sameAttempts s2 s3 -> oneMoreAttempt k s1 s3.
Proof.
  intros (H1 & H2 & H3) (H4 & H5 & H6). repeat split; congruence.
Qed.

Lemma createFixIssue_effect (k : nat) (s : state) :
  oneMoreAttempt k s (snd (createFixIssue' k s)).
Proof.
  unfold createFixIssue. unfold bind at 1. unfold perform at 1.
  set (s1 := mkState (log s ++ [HandleTestFailure (number testIssue) worktreePath k])
                     (attemptNumber s) (testPassed s)).
  assert (H1 : oneMoreAttempt k s s1).
  { unfold oneMoreAttempt, s1, fixAttemptsStarted. simpl.
    by rewrite flat_map_app. }
  destruct (fixIssueFor env (log s) _) as [f|e]; [|exact H1].
  eapply oneMoreAttempt_then; [exact H1|].
  apply (quiet_bind (extractMasterIssueNumber testIssue)); [repeat quiet_step|].
  intros m. apply quiet_bind; [apply quiet_notify|]. intros _.
  apply quiet_bind; [apply quiet_notifyTaskUpdate|]. intros _. apply quiet_ret.
Qed.

(** The fix, the fix agent and the re-run of one attempt. *)
Definition fixAndRerun (k : nat) : M state bool :=
  (let* fixIssue := createFixIssue' k in
   let* _ := runFixAgent' fixIssue master in
   rerunTest' testIssue)%js.

(** What any pass of the loop body does: it never throws, it starts exactly
    one fix attempt, numbered by [attemptNumber], and it either returns a
    success for that attempt or moves [attemptNumber] on by one. *)
Lemma attemptBody_effect (s : state) :
  exists r s',
    attemptBody' s = (Ok r, s') /\
    fixAttemptsStarted (log s') = fixAttemptsStarted (log s) ++ [attemptNumber s] /\
    match r with
    | Some res => res = mkFixResult true (attemptNumber s)
    | None =>
        attemptNumber s' = S (attemptNumber s) /\
        (fst (fixAndRerun (attemptNumber s) s) <> Ok true ->
         testPassed s' = testPassed s \/ testPassed s' = false)
    end.
Proof.
  unfold attemptBody, fixAndRerun, try_catch, bind, get. cbv beta iota.
  pose proof (createFixIssue_effect (attemptNumber s) s) as H1.
  destruct (createFixIssue' (attemptNumber s) s) as [[f|e] s1]; simpl in H1;
    destruct H1 as (Hl1 & Ha1 & Hp1).
  2:{ eexists None, _. split; [reflexivity|]. simpl. rewrite Hl1, Ha1, Hp1. auto. }
  pose proof (quiet_runFixAgent f master s1) as H2.
  destruct (runFixAgent' f master s1) as [[[]|e] s2]; simpl in H2;
    destruct H2 as (Hl2 & Ha2 & Hp2).
  2:{ eexists None, _. split; [reflexivity|]. simpl.
      rewrite Hl2, Hl1, Ha2, Ha1, Hp2, Hp1. auto. }
  pose proof (quiet_rerunTest testIssue s2) as H3.
  destruct (rerunTest' testIssue s2) as [[passed|e] s3]; simpl in H3;
    destruct H3 as (Hl3 & Ha3 & Hp3).
  2:{ eexists None, _. split; [reflexivity|]. simpl.
      rewrite Hl3, Hl2, Hl1, Ha3, Ha2, Ha1, Hp3, Hp2, Hp1. auto. }
  unfold setTestPassed, modify. cbv beta iota.
  set (s4 := mkState (log s3) (attemptNumber s3) passed).
  destruct passed.
  - pose proof (quiet_handleSuccessfulFix testIssue f (attemptNumber s) master s4) as H5.
    destruct (handleSuccessfulFix env repository_ testIssue f (attemptNumber s) master s4)
      as [[[]|e] s5]; simpl in H5; destruct H5 as (Hl5 & Ha5 & Hp5).
    2:{ eexists None, _. split; [reflexivity|]. simpl.
        rewrite Hl5, Ha5. unfold s4. simpl. rewrite Hl3, Hl2, Hl1, Ha3, Ha2, Ha1.
        split; [done|]. split; [done|]. intros Hne. by destruct Hne. }
    pose proof (quiet_rerunDependentTests testIssue allTests s5) as H6.
    destruct (rerunDependentTests env cfg worktreePath testIssue allTests s5)
      as [[[]|e] s6]; simpl in H6; destruct H6 as (Hl6 & Ha6 & Hp6).
    + eexists (Some _), _. split; [reflexivity|]. simpl.
      rewrite Hl6, Hl5. unfold s4. simpl. by rewrite Hl3, Hl2, Hl1.
    + eexists None, _. split; [reflexivity|]. simpl.
      rewrite Hl6, Hl5, Ha6, Ha5. unfold s4. simpl.
      rewrite Hl3, Hl2, Hl1, Ha3, Ha2, Ha1.
      split; [done|]. split; [done|]. intros Hne. by destruct Hne.
  - pose proof (quiet_createComment f
                  ("❌ Test still failing after this fix attempt. Moving to attempt "
                     +:+ natToString (attemptNumber s + 1) +:+ "/"
                     +:+ natToString maxAttempts) s4) as H5.
    destruct (createComment env f _ s4) as [[[]|e] s5]; simpl in H5;
      destruct H5 as (Hl5 & Ha5 & Hp5);
      (eexists None, _; split; [reflexivity|]; simpl;
       rewrite Hl5, Ha5, Hp5; unfold s4; simpl;
       rewrite Hl3, Hl2, Hl1, Ha3, Ha2, Ha1; auto).
Qed.

(** The loop never throws and never runs out of fuel; the attempts it
    starts are numbered consecutively and stay within [maxAttempts]. *)
Lemma attemptLoop_total (fuel : nat) :
  forall s : state,
    maxAttempts + 1 <= attemptNumber s + fuel ->
    exists x s' k,
      attemptLoop' fuel s = (Ok x, s') /\
      x <> OutOfFuel /\
      fixAttemptsStarted (log s')
        = fixAttemptsStarted (log s) ++ seq (attemptNumber s) k /\
      (k = 0 \/ attemptNumber s + k <= maxAttempts + 1).
Proof.
  assert (HM : maxAttempts = 10) by reflexivity.
  induction fuel as [|fuel IH]; intros s Hfuel.
  - exists ConditionFalse, s, 0. simpl. unfold bind, get.
    assert (Hc : (attemptNumber s <=? maxAttempts) = false)
      by (apply Nat.leb_gt; lia).
    rewrite Hc. simpl. rewrite app_nil_r. auto.
  - simpl. unfold bind at 1. unfold get at 1. cbv beta iota.
    destruct ((attemptNumber s <=? maxAttempts) && negb (testPassed s)) eqn:Hc.
    2:{ exists ConditionFalse, s, 0. simpl. rewrite app_nil_r. auto. }
    apply andb_true_iff in Hc as [Hle _]. apply Nat.leb_le in Hle.
    unfold bind. destruct (attemptBody_effect s) as (r & s1 & Hbody & Hlog & Hr).
    rewrite Hbody. destruct r as [res|].
    + exists (Returned res), s1, 1. simpl. split; [done|]. split; [done|].
      split; [done|]. right. lia.
    + destruct Hr as [Hnext _].
      destruct (IH s1) as (x & s' & k & Hrun & Hx & Hlog' & Hk); [lia|].
      exists x, s', (S k). split; [exact Hrun|]. split; [done|]. split.
      * rewrite Hlog', Hlog, Hnext, <- app_assoc. reflexivity.
      * right. destruct Hk as [->|Hk]; lia.
Qed.

(** When no attempt sees the test pass, the loop makes all [maxAttempts]
    attempts and is left because its condition became false. *)
Lemma attemptLoop_never_passing :
  (forall s, fst (fixAndRerun (attemptNumber s) s) <> Ok true) ->
  forall (fuel : nat) (s : state),
    testPassed s = false ->
    attemptNumber s <= maxAttempts + 1 ->
    maxAttempts + 1 <= attemptNumber s + fuel ->
    exists s',
      attemptLoop' fuel s = (Ok ConditionFalse, s') /\
      fixAttemptsStarted (log s')
        = fixAttemptsStarted (log s)
            ++ seq (attemptNumber s) (maxAttempts + 1 - attemptNumber s) /\
      testPassed s' = false /\
      attemptNumber s' = maxAttempts + 1.
Proof.
  assert (HM : maxAttempts = 10) by reflexivity.
  intros Hnever. induction fuel as [|fuel IH]; intros s Hp Hle Hfuel.
  - exists s.
    assert (Hz : maxAttempts + 1 - attemptNumber s = 0) by lia. rewrite Hz.
    simpl. unfold bind, get.
    assert (Hc : (attemptNumber s <=? maxAttempts) = false)
      by (apply Nat.leb_gt; lia).
    rewrite Hc. cbn [andb seq ret]. rewrite app_nil_r.
    split; [done|]. split; [done|]. split; [done|]. lia.
  - cbn [attemptLoop]. unfold bind at 1. unfold get at 1. cbv beta iota. rewrite Hp.
    destruct (attemptNumber s <=? maxAttempts) eqn:Hc; cbn [andb negb].
    2:{ apply Nat.leb_gt in Hc. exists s.
        assert (Hz : maxAttempts + 1 - attemptNumber s = 0) by lia. rewrite Hz.
        cbn [seq]. rewrite app_nil_r.
        split; [done|]. split; [done|]. split; [done|]. lia. }
    apply Nat.leb_le in Hc.
    unfold bind. destruct (attemptBody_effect s) as (r & s1 & Hbody & Hlog & Hr).
    rewrite Hbody. destruct r as [res|].
    + exfalso. clear IH.
      revert Hbody. unfold attemptBody, try_catch, bind, get. cbv beta iota.
      pose proof (Hnever s) as Hne. revert Hne.
      unfold fixAndRerun, bind.
      destruct (createFixIssue' (attemptNumber s) s) as [[f|e] s2]; [|done].
      destruct (runFixAgent' f master s2) as [[[]|e] s3]; [|done].
      destruct (rerunTest' testIssue s3) as [[[|]|e] s4]; simpl; try done.
      unfold createComment, perform.
      by destruct (settles env _ _).
    + destruct Hr as [Hnext Htp]. specialize (Htp (Hnever s)).
      assert (Hp1 : testPassed s1 = false) by (destruct Htp; congruence).
      destruct (IH s1 Hp1) as (s' & Hrun & Hlog' & Hp' & Ha'); [lia|lia|].
      exists s'. split; [exact Hrun|]. split; [|done].
      rewrite Hlog', Hlog, Hnext, <- app_assoc. f_equal.
      replace (maxAttempts + 1 - attemptNumber s)
        with (S (maxAttempts + 1 - S (attemptNumber s))) by lia.
      reflexivity.
Qed.

(** The four calls of [handleMaxAttemptsReached], in order. *)
Definition finalCalls : list callRecord :=
  [ AddLabels (number testIssue)
      ["oc-ralph:max-attempts-reached"; "oc-ralph:test-failed"];
    CreateComment (number testIssue)
      ("❌ Maximum fix attempts (" +:+ natToString maxAttempts
         +:+ ") reached. Test could not be fixed automatically.");
    Notify "test-max-attempts-reached"
      [ ("masterIssueNumber", natToString master);
        ("testIssue", natToString (number testIssue));
        ("maxAttempts", natToString maxAttempts);
        ("repo", repoSlug repository_) ];
    NotifyTaskUpdate ].

(** The notification that opens [coordinateTestFix]. *)
Definition openingCall : callRecord :=
  Notify "test-failed"
    [ ("masterIssueNumber", natToString master);
      ("testIssue", natToString (number testIssue));
      ("testTitle", title testIssue);
      ("repo", repoSlug repository_) ].

(** The collaborator completes the call normally whenever it is made. *)
Definition completes (c : callRecord) : Prop :=
  forall l, settles env l c = Ok tt.

Lemma handleMaxAttemptsReached_completes (s : state) :
  Forall completes finalCalls ->
  handleMaxAttemptsReached env repository_ testIssue master s
  = (Ok tt, mkState (log s ++ finalCalls) (attemptNumber s) (testPassed s)).
Proof.
  intros Hall. unfold finalCalls in Hall.
  apply Forall_cons in Hall as [H1 Hall]. apply Forall_cons in Hall as [H2 Hall].
  apply Forall_cons in Hall as [H3 Hall]. apply Forall_cons in Hall as [H4 _].
  unfold handleMaxAttemptsReached, notify, notifyTaskUpdate, createComment,
    bind, perform. cbv beta iota. simpl log. simpl attemptNumber. simpl testPassed.
  rewrite H1, H2, H3, H4. unfold finalCalls. by rewrite <- !app_assoc.
Qed.

Abbreviation coordinateTestFix' :=
  (coordinateTestFix env cfg repository_ worktreePath testIssue allTests master).

(** Exceptions reach the caller of [coordinateTestFix] only from the
    opening notification and from [handleMaxAttemptsReached]; the loop in
    between always completes, within [maxAttempts] attempts. *)
Lemma coordinateTestFix_attempts (s : state) :
  exists r s' k,
    coordinateTestFix' s = (r, s') /\
    r <> Ok None /\
    k <= maxAttempts /\
    fixAttemptsStarted (log s') = fixAttemptsStarted (log s) ++ seq 1 k.
Proof.
  assert (HM : maxAttempts = 10) by reflexivity.
  unfold coordinateTestFix. unfold bind at 1. unfold notify at 1.
  pose proof (quiet_perform openingCall (settles env) I s) as Hq.
  fold openingCall.
  destruct (perform openingCall (settles env) s) as [[[]|e] s1] eqn:Hopen;
    simpl in Hq; destruct Hq as (Hl1 & _ & _).
  2:{ exists (Throw e), s1, 0. simpl. rewrite app_nil_r. split; [done|].
      split; [done|]. split; [lia|done]. }
  unfold bind at 1. unfold modify at 1. cbv beta iota.
  set (s2 := mkState (log s1) 1 false).
  destruct (attemptLoop_total maxAttempts s2) as (x & s3 & k & Hrun & Hx & Hlog & Hk);
    [simpl; lia|].
  unfold bind at 1. rewrite Hrun. simpl in Hlog, Hk.
  assert (Hk' : k <= maxAttempts) by (destruct Hk; unfold maxAttempts in *; lia).
  destruct x as [res| |]; [| |done].
  - exists (Ok (Some res)), s3, k. split; [done|]. split; [done|]. split; [done|].
    by rewrite Hlog, Hl1.
  - pose proof (quiet_handleMaxAttemptsReached testIssue master s3) as Hq.
    unfold bind.
    destruct (handleMaxAttemptsReached env repository_ testIssue master s3)
      as [[[]|e] s4]; simpl in Hq; destruct Hq as (Hl4 & _ & _).
    + exists (Ok (Some (mkFixResult false maxAttempts))), s4, k.
      split; [done|]. split; [done|]. split; [done|]. by rewrite Hl4, Hlog, Hl1.
    + exists (Throw e), s4, k.
      split; [done|]. split; [done|]. split; [done|]. by rewrite Hl4, Hlog, Hl1.
Qed.

(** When no attempt sees the test pass and the collaborators complete the
    opening notification and the calls of [handleMaxAttemptsReached], the
    coordinator makes [maxAttempts] attempts, then those calls, and returns
    an unsuccessful result. *)
Lemma coordinateTestFix_exhausted (s : state) :
  (forall s, fst (fixAndRerun (attemptNumber s) s) <> Ok true) ->
  completes openingCall ->
  Forall completes finalCalls ->
  exists l,
    coordinateTestFix' s
    = (Ok (Some (mkFixResult false maxAttempts)),
       mkState (l ++ finalCalls) (maxAttempts + 1) false) /\
    fixAttemptsStarted l = fixAttemptsStarted (log s) ++ seq 1 maxAttempts.
Proof.
  assert (HM : maxAttempts = 10) by reflexivity.
  intros Hnever Hopen Hfinal.
  unfold coordinateTestFix. unfold bind at 1. unfold notify at 1.
  fold openingCall. unfold perform at 1. rewrite Hopen.
  unfold bind at 1. unfold modify at 1. cbv beta iota. cbn [log].
  set (s2 := mkState (log s ++ [openingCall]) 1 false).
  destruct (attemptLoop_never_passing Hnever maxAttempts s2)
    as (s3 & Hrun & Hlog & Hp & Ha); [done|simpl; lia|simpl; lia|].
  unfold bind at 1. rewrite Hrun. unfold bind.
  rewrite (handleMaxAttemptsReached_completes s3 Hfinal). simpl.
  exists (log s3). rewrite Ha, Hp. split; [done|].
  rewrite Hlog. unfold s2. simpl. unfold fixAttemptsStarted at 1.
  rewrite flat_map_app. simpl. by rewrite app_nil_r.
Qed.

(** The fix part of an attempt: creating the fix sub-ticket and running
    the fix agent on it. *)
Definition fixPhase (k : nat) : M state unit :=
  (let* fixIssue := createFixIssue' k in runFixAgent' fixIssue master)%js.

Lemma fixAndRerun_rerun_fails :
  (forall s, fst (rerunTest' testIssue s) = Ok false) ->
  forall s, fst (fixAndRerun (attemptNumber s) s) <> Ok true.
Proof.
  intros Hnever s. unfold fixAndRerun, bind.
  destruct (createFixIssue' (attemptNumber s) s) as [[f|e] s1]; [|done].
  destruct (runFixAgent' f master s1) as [[[]|e] s2]; [|done].
  rewrite (Hnever s2). done.
Qed.

Lemma fixAndRerun_fix_throws :
  (forall s, exists e, fst (fixPhase (attemptNumber s) s) = Throw e) ->
  forall s, fst (fixAndRerun (attemptNumber s) s) <> Ok true.
Proof.
  intros Hthrows s. destruct (Hthrows s) as [e He]. revert He.
  unfold fixPhase, fixAndRerun, bind.
  destruct (createFixIssue' (attemptNumber s) s) as [[f|e1] s1]; [|done].
  by destruct (runFixAgent' f master s1) as [[[]|e2] s2].
Qed.

(** An exception in the fix part of an attempt is caught by the loop body
    and costs exactly that attempt. *)
Lemma attemptBody_fix_throws (s : state) (e : error) :
  fst (fixPhase (attemptNumber s) s) = Throw e ->
  exists s',
    attemptBody' s = (Ok None, s') /\
    attemptNumber s' = S (attemptNumber s) /\
    testPassed s' = testPassed s /\
    fixAttemptsStarted (log s') = fixAttemptsStarted (log s) ++ [attemptNumber s].
Proof.
  unfold fixPhase, attemptBody, try_catch, bind, get. cbv beta iota.
  pose proof (createFixIssue_effect (attemptNumber s) s) as H1.
  destruct (createFixIssue' (attemptNumber s) s) as [[f|e1] s1]; simpl in H1;
    destruct H1 as (Hl1 & Ha1 & Hp1).
  2:{ intros _. eexists. split; [reflexivity|]. simpl. by rewrite Hl1, Ha1, Hp1. }
  pose proof (quiet_runFixAgent f master s1) as H2.
  destruct (runFixAgent' f master s1) as [[[]|e2] s2]; simpl in H2;
    destruct H2 as (Hl2 & Ha2 & Hp2); [done|].
  intros _. eexists. split; [reflexivity|]. simpl.
  by rewrite Hl2, Hl1, Ha2, Ha1, Hp2, Hp1.
Qed.

Lemma attemptLoop_no_throw (fuel : nat) (s : state) :
  exists x s', attemptLoop' fuel s = (Ok x, s').
Proof.
  revert s. induction fuel as [|fuel IH]; intros s.
  - simpl. unfold bind, get. destruct (_ && _); by eexists _, _.
  - cbn [attemptLoop]. unfold bind at 1. unfold get at 1. cbv beta iota.
    destruct (_ && _); [|by eexists _, _].
    unfold bind. destruct (attemptBody_effect s) as (r & s1 & Hbody & _).
    rewrite Hbody. destruct r as [res|]; [by eexists _, _|]. apply IH.
Qed.

(** When no attempt sees the test pass, the coordinator either throws (from
    its opening notification or from [handleMaxAttemptsReached]) or returns
    the unsuccessful result. *)
Lemma coordinateTestFix_never_succeeds (s : state) :
  (forall s, fst (fixAndRerun (attemptNumber s) s) <> Ok true) ->
  exists r s',
    coordinateTestFix' s = (r, s') /\
    ((exists e, r = Throw e) \/ r = Ok (Some (mkFixResult false maxAttempts))).
Proof.
  assert (HM : maxAttempts = 10) by reflexivity.
  intros Hnever.
  unfold coordinateTestFix. unfold bind at 1.
  destruct (notify env _ _ s) as [[[]|e] s1].
  2:{ eexists _, _. split; [reflexivity|]. left. by exists e. }
  unfold bind at 1. unfold modify at 1. cbv beta iota.
  set (s2 := mkState (log s1) 1 false).
  destruct (attemptLoop_never_passing Hnever maxAttempts s2)
    as (s3 & Hrun & _); [done|simpl; lia|simpl; lia|].
  unfold bind at 1. rewrite Hrun. unfold bind.
  destruct (handleMaxAttemptsReached env repository_ testIssue master s3)
    as [[[]|e] s4]; eexists _, _; (split; [reflexivity|]);
    [by right|left; by exists e].
Qed.

(** A test that is never fixed makes the testing stage fail, whether the
    coordinator returns or throws. *)
Lemma stage_fails_when_never_fixed (s : state) :
  (forall s, fst (fixAndRerun (attemptNumber s) s) <> Ok true) ->
  exists results s' e,
    fixFailedTests env cfg repository_ worktreePath [testIssue] allTests master s
    = (Ok (Some results), s') /\
    stageFailure results = Some e.
Proof.
  intros Hnever. cbn [fixFailedTests]. unfold bind at 1. unfold try_catch.
  destruct (coordinateTestFix_never_succeeds s Hnever)
    as (r & s1 & Hrun & [[e ->]| ->]); rewrite Hrun;
    eexists _, _, _; split; reflexivity.
Qed.

End CoordinatorFacts.

(** *** The self-heal theorems *)



Definition sampleIssue : issue :=
  mkIssue 7 "Login works" ["oc-ralph:test"; "oc-ralph:master-5"].

Definition sampleRepository : repository := mkRepository "acme" "shop".

Definition sampleConfig : config := mkConfig (Some 600) (Some 600).

(** Collaborators that always complete, with a test that keeps failing. *)
Definition stillFailingEnv : environment :=
  mkEnvironment
    (fun _ _ => Ok tt)
    (fun l _ => Ok (100 + length l))
    (fun _ _ => Ok false)
    (fun _ _ => Ok ["oc-ralph:test"; "oc-ralph:test-failed"])
    (fun _ _ => Ok ∅).

(** Collaborators whose failure handler throws on every call. *)
Definition brokenHandlerEnv : environment :=
  mkEnvironment
    (fun _ _ => Ok tt)
    (fun _ _ => Throw (Error "gh: API rate limit exceeded"))
    (fun _ _ => Ok false)
    (fun _ _ => Ok ["oc-ralph:test"])
    (fun _ _ => Ok ∅).

Example extractMasterIssueNumber_sample :
  fst (extractMasterIssueNumber sampleIssue initialState) = Ok 5.
Proof. reflexivity. Qed.



(** *** The attempt that sees the test pass *)

Section PassingAttempt.

Variable env : environment.
Variable cfg : config.
Variable repository_ : repository.
Variable worktreePath : string.
Variable testIssue : issue.
Variable allTests : list issue.
Variable master : nat.

Abbreviation fixAndRerun' :=
  (fixAndRerun env cfg repository_ worktreePath testIssue master).
Abbreviation attemptBody' :=
  (attemptBody env cfg repository_ worktreePath testIssue allTests master).
Abbreviation attemptLoop' :=
  (fun fuel => attemptLoop env cfg repository_ worktreePath fuel testIssue allTests master).
Abbreviation coordinateTestFix' :=
  (coordinateTestFix env cfg repository_ worktreePath testIssue allTests master).

(** What follows a passing re-run inside the [try] block. *)
Definition successHandling (fixIssue attempt : nat) : M state unit :=
  (let* _ := handleSuccessfulFix env repository_ testIssue fixIssue attempt master in
   rerunDependentTests env cfg worktreePath testIssue allTests)%js.

Lemma quiet_successHandling (fixIssue attempt : nat) :
  quiet (successHandling fixIssue attempt).
Proof.
  unfold successHandling. apply quiet_bind.
  - apply quiet_handleSuccessfulFix.
  - intros _. apply quiet_rerunDependentTests.
Qed.

Definition bump (s : state) : state :=
  mkState (log s) (S (attemptNumber s)) (testPassed s).

Definition withTestPassed (b : bool) (s : state) : state :=
  mkState (log s) (attemptNumber s) b.

(** One pass of the loop body, call by call. *)
Lemma attemptBody_unfold (s : state) :
  attemptBody' s =
  match createFixIssue env repository_ worktreePath testIssue (attemptNumber s) s with
  | (Throw _, s1) => (Ok None, bump s1)
  | (Ok f, s1) =>
      match runFixAgent env cfg repository_ worktreePath f master s1 with
      | (Throw _, s2) => (Ok None, bump s2)
      | (Ok _, s2) =>
          match rerunTest env cfg worktreePath testIssue s2 with
          | (Throw _, s3) => (Ok None, bump s3)
          | (Ok true, s3) =>
              match successHandling f (attemptNumber s) (withTestPassed true s3) with
              | (Ok _, s4) => (Ok (Some (mkFixResult true (attemptNumber s))), s4)
              | (Throw _, s4) => (Ok None, bump s4)
              end
          | (Ok false, s3) =>
              (Ok None,
               bump (snd (createComment env f
                            ("❌ Test still failing after this fix attempt. Moving to attempt "
                               +:+ natToString (attemptNumber s + 1) +:+ "/"
                               +:+ natToString maxAttempts)
                            (withTestPassed false s3))))
          end
      end
  end.
Proof.
  unfold attemptBody, successHandling, try_catch, bind, get. cbv beta iota.
  destruct (createFixIssue env repository_ worktreePath testIssue (attemptNumber s) s)
    as [[f|e] s1]; [|reflexivity].
  destruct (runFixAgent env cfg repository_ worktreePath f master s1)
    as [[[]|e] s2]; [|reflexivity].
  destruct (rerunTest env cfg worktreePath testIssue s2) as [[passed|e] s3];
    [|reflexivity].
  unfold setTestPassed, modify. cbv beta iota. fold (withTestPassed passed s3).
  destruct passed.
  - destruct (handleSuccessfulFix env repository_ testIssue f (attemptNumber s) master
                (withTestPassed true s3)) as [[[]|e] s5]; [|reflexivity].
    destruct (rerunDependentTests env cfg worktreePath testIssue allTests s5)
      as [[[]|e] s6]; reflexivity.
  - destruct (createComment env f _ (withTestPassed false s3)) as [[[]|e] s5];
      reflexivity.
Qed.

Lemma fixAndRerun_unfold (k : nat) (s : state) :
  fst (fixAndRerun' k s) =
  match createFixIssue env repository_ worktreePath testIssue k s with
  | (Throw e, _) => Throw e
  | (Ok f, s1) =>
      match runFixAgent env cfg repository_ worktreePath f master s1 with
      | (Throw e, _) => Throw e
      | (Ok _, s2) => fst (rerunTest env cfg worktreePath testIssue s2)
      end
  end.
Proof.
  unfold fixAndRerun, bind.
  destruct (createFixIssue env repository_ worktreePath testIssue k s)
    as [[f|e] s1]; [|reflexivity].
  destruct (runFixAgent env cfg repository_ worktreePath f master s1)
    as [[[]|e] s2]; reflexivity.
Qed.

(** The state in which the success handling of a passing attempt starts:
    the attempt has been started, the test is recorded as passed, and the
    attempt number is still that of the pass. *)
Definition passedIn (s s1 : state) : Prop :=
  fixAttemptsStarted (log s1) = fixAttemptsStarted (log s) ++ [attemptNumber s] /\
  attemptNumber s1 = attemptNumber s /\ testPassed s1 = true.

(** A pass whose re-run does not pass moves on to the next attempt. *)
Lemma attemptBody_not_passing (s : state) :
  fst (fixAndRerun' (attemptNumber s) s) <> Ok true ->
  exists s',
    attemptBody' s = (Ok None, s') /\
    attemptNumber s' = S (attemptNumber s) /\
    (testPassed s = false -> testPassed s' = false) /\
    fixAttemptsStarted (log s') = fixAttemptsStarted (log s) ++ [attemptNumber s].
Proof.
  rewrite fixAndRerun_unfold, attemptBody_unfold.
  pose proof (createFixIssue_effect env repository_ worktreePath testIssue
                (attemptNumber s) s) as H1.
  destruct (createFixIssue env repository_ worktreePath testIssue (attemptNumber s) s)
    as [[f|e] s1]; simpl in H1; destruct H1 as (Hl1 & Ha1 & Hp1).
  2:{ intros _. eexists. split; [reflexivity|]. unfold bump. simpl.
      rewrite Hl1, Ha1, Hp1. auto. }
  pose proof (quiet_runFixAgent env cfg repository_ worktreePath f master s1) as H2.
  destruct (runFixAgent env cfg repository_ worktreePath f master s1)
    as [[[]|e] s2]; simpl in H2; destruct H2 as (Hl2 & Ha2 & Hp2).
  2:{ intros _. eexists. split; [reflexivity|]. unfold bump. simpl.
      rewrite Hl2, Hl1, Ha2, Ha1, Hp2, Hp1. auto. }
  pose proof (quiet_rerunTest env cfg worktreePath testIssue s2) as H3.
  destruct (rerunTest env cfg worktreePath testIssue s2) as [[[|]|e] s3];
    simpl in H3; destruct H3 as (Hl3 & Ha3 & Hp3); simpl.
  - intros Hne. by destruct Hne.
  - intros _.
    pose proof (quiet_createComment env f
                  ("❌ Test still failing after this fix attempt. Moving to attempt "
                     +:+ natToString (attemptNumber s + 1) +:+ "/"
                     +:+ natToString maxAttempts) (withTestPassed false s3)) as H5.
    destruct H5 as (Hl5 & Ha5 & Hp5).
    eexists. split; [reflexivity|]. unfold bump. simpl. simpl in Hl5.
    rewrite Hl5, Hl3, Hl2, Hl1, Ha3, Ha2, Ha1. auto.
  - intros _. eexists. split; [reflexivity|]. unfold bump. simpl.
    rewrite Hl3, Hl2, Hl1, Ha3, Ha2, Ha1, Hp3, Hp2, Hp1. auto.
Qed.

(** A pass whose re-run passes goes on to the success handling, and its
    result is decided there. *)
Lemma attemptBody_passing (s : state) :
  fst (fixAndRerun' (attemptNumber s) s) = Ok true ->
  exists f s1,
    passedIn s s1 /\
    attemptBody' s =
    match successHandling f (attemptNumber s) s1 with
    | (Ok _, s2) => (Ok (Some (mkFixResult true (attemptNumber s))), s2)
    | (Throw _, s2) => (Ok None, bump s2)
    end.
Proof.
  rewrite fixAndRerun_unfold, attemptBody_unfold.
  pose proof (createFixIssue_effect env repository_ worktreePath testIssue
                (attemptNumber s) s) as H1.
  destruct (createFixIssue env repository_ worktreePath testIssue (attemptNumber s) s)
    as [[f|e] s1]; simpl in H1; destruct H1 as (Hl1 & Ha1 & Hp1); [|done].
  pose proof (quiet_runFixAgent env cfg repository_ worktreePath f master s1) as H2.
  destruct (runFixAgent env cfg repository_ worktreePath f master s1)
    as [[[]|e] s2]; simpl in H2; destruct H2 as (Hl2 & Ha2 & Hp2); [|done].
  pose proof (quiet_rerunTest env cfg worktreePath testIssue s2) as H3.
  destruct (rerunTest env cfg worktreePath testIssue s2) as [[[|]|e] s3];
    simpl in H3; destruct H3 as (Hl3 & Ha3 & Hp3); simpl; try done.
  intros _. exists f, (withTestPassed true s3). split; [|done].
  unfold passedIn, withTestPassed. simpl.
  rewrite Hl3, Hl2, Hl1, Ha3, Ha2, Ha1. auto.
Qed.

(** The loop up to the first attempt whose re-run passes, when the success
    handling completes. *)
Lemma attemptLoop_until_pass (k base : nat) :
  k <= maxAttempts ->
  (forall s, length (fixAttemptsStarted (log s)) + 1 < base + k ->
             fst (fixAndRerun' (attemptNumber s) s) <> Ok true) ->
  (forall s, length (fixAttemptsStarted (log s)) + 1 = base + k ->
             fst (fixAndRerun' (attemptNumber s) s) = Ok true) ->
  (forall f j s, exists s', successHandling f j s = (Ok tt, s')) ->
  forall (n fuel : nat) (s : state),
    attemptNumber s + n = k -> 1 <= attemptNumber s ->
    testPassed s = false ->
    length (fixAttemptsStarted (log s)) + 1 = base + attemptNumber s ->
    n < fuel ->
    exists s',
      attemptLoop' fuel s = (Ok (Returned (mkFixResult true k)), s') /\
      fixAttemptsStarted (log s')
        = fixAttemptsStarted (log s) ++ seq (attemptNumber s) (S n).
Proof.
  intros Hk Hfail Hpass Hdone.
  induction n as [|n IH]; intros fuel s Hj H1 Hp Hlen Hfuel;
    (destruct fuel as [|fuel]; [lia|]);
    cbn [attemptLoop]; unfold bind at 1; unfold get at 1; cbv beta iota;
    rewrite Hp;
    (assert (Hc : (attemptNumber s <=? maxAttempts) = true)
       by (apply Nat.leb_le; lia));
    rewrite Hc; cbn [andb negb]; unfold bind.
  - destruct (attemptBody_passing s) as (f & s1 & (Hl1 & Ha1 & Hp1) & Hbody).
    { apply Hpass. lia. }
    rewrite Hbody. destruct (Hdone f (attemptNumber s) s1) as [s2 Hs2].
    pose proof (quiet_successHandling f (attemptNumber s) s1) as (Hl2 & _ & _).
    rewrite Hs2 in *. cbn [snd] in Hl2.
    exists s2. replace k with (attemptNumber s) by lia. split; [done|].
    cbn [seq]. by rewrite Hl2, Hl1.
  - destruct (attemptBody_not_passing s) as (s1 & Hbody & Ha1 & Hp1 & Hl1).
    { apply Hfail. lia. }
    rewrite Hbody.
    destruct (IH fuel s1) as (s' & Hrun & Hlog); try lia.
    + by apply Hp1.
    + rewrite Hl1, length_app. simpl. lia.
    + exists s'. split; [exact Hrun|].
      rewrite Hlog, Hl1, Ha1, <- app_assoc. reflexivity.
Qed.

(** A pass whose re-run passes but whose success handling throws ends the
    loop: the test is recorded as passed, so the condition is false. *)
Lemma attemptLoop_pass_then_throw (fuel : nat) (s : state) :
  fst (fixAndRerun' (attemptNumber s) s) = Ok true ->
  (forall f j s, exists e, fst (successHandling f j s) = Throw e) ->
  attemptNumber s <= maxAttempts -> testPassed s = false ->
  exists s',
    attemptLoop' (S fuel) s = (Ok ConditionFalse, s') /\
    attemptNumber s' = S (attemptNumber s) /\ testPassed s' = true /\
    fixAttemptsStarted (log s') = fixAttemptsStarted (log s) ++ [attemptNumber s].
Proof.
  intros Hpass Hthrow Hle Hp.
  cbn [attemptLoop]. unfold bind at 1. unfold get at 1. cbv beta iota.
  rewrite Hp.
  assert (Hc : (attemptNumber s <=? maxAttempts) = true) by (by apply Nat.leb_le).
  rewrite Hc. cbn [andb negb]. unfold bind.
  destruct (attemptBody_passing s Hpass) as (f & s1 & (Hl1 & Ha1 & Hp1) & Hbody).
  rewrite Hbody. destruct (Hthrow f (attemptNumber s) s1) as [e He].
  pose proof (quiet_successHandling f (attemptNumber s) s1) as (Hl2 & Ha2 & Hp2).
  destruct (successHandling f (attemptNumber s) s1) as [[[]|e'] s2];
    cbn [fst snd] in *; [done|].
  assert (Hexit : attemptLoop' fuel (bump s2) = (Ok ConditionFalse, bump s2)).
  { destruct fuel; cbn [attemptLoop]; unfold bind, get; cbv beta iota;
      unfold bump at 1 2; cbn [attemptNumber testPassed];
      rewrite Hp2, Hp1, andb_false_r; reflexivity. }
  rewrite Hexit. exists (bump s2). split; [done|].
  unfold bump. cbn [log attemptNumber testPassed].
  rewrite Ha2, Ha1, Hp2, Hp1, Hl2, Hl1. auto.
Qed.

End PassingAttempt.

(** The coordinator returns at the first attempt whose re-run passes.  If
    the re-run does not pass in the attempts before the [k]-th, passes in
    the [k]-th ([k <= 10]), and the success handling (closing the fix
    ticket, the comments, the notification, re-running the dependent tests)
    completes, the coordinator starts exactly the attempts [1 .. k] and
    returns [{success: true, attempts: k}]. *)
Theorem coordinateTestFix_returns_at_first_passing_attempt
    (env : environment) (cfg : config) (repository_ : repository)
    (worktreePath : string) (testIssue : issue) (allTests : list issue)
    (master : nat) (s : state) (k : nat) :
  1 <= k <= 10 ->
  completes env (openingCall repository_ testIssue master) ->
  (forall s', length (fixAttemptsStarted (log s')) + 1
                < length (fixAttemptsStarted (log s)) + k ->
              fst (fixAndRerun env cfg repository_ worktreePath testIssue master
                     (attemptNumber s') s') <> Ok true) ->
  (forall s', length (fixAttemptsStarted (log s')) + 1
                = length (fixAttemptsStarted (log s)) + k ->
              fst (fixAndRerun env cfg repository_ worktreePath testIssue master
                     (attemptNumber s') s') = Ok true) ->
  (forall f j s', exists s'',
      successHandling env cfg repository_ worktreePath testIssue allTests master
        f j s' = (Ok tt, s'')) ->
  exists s',
    coordinateTestFix env cfg repository_ worktreePath testIssue allTests master s
      = (Ok (Some (mkFixResult true k)), s') /\
    fixAttemptsStarted (log s') = fixAttemptsStarted (log s) ++ seq 1 k.
Proof.
  assert (HM : maxAttempts = 10) by reflexivity.
  intros Hk Hopen Hfail Hpass Hdone.
  unfold coordinateTestFix. unfold bind at 1. unfold notify at 1.
  fold (openingCall repository_ testIssue master). unfold perform at 1.
  rewrite Hopen. unfold bind at 1. unfold modify at 1. cbv beta iota. cbn [log].
  set (s2 := mkState (log s ++ [openingCall repository_ testIssue master]) 1 false).
  assert (Hlog2 : fixAttemptsStarted (log s2) = fixAttemptsStarted (log s)).
  { unfold s2, fixAttemptsStarted. cbn [log]. rewrite flat_map_app. cbn.
    by rewrite app_nil_r. }
  destruct (attemptLoop_until_pass env cfg repository_ worktreePath testIssue allTests
              master k (length (fixAttemptsStarted (log s)))
              ltac:(lia) Hfail Hpass Hdone (k - 1) maxAttempts s2)
    as (s3 & Hrun & Hlog); try (unfold s2; cbn [attemptNumber testPassed]; lia).
  { rewrite Hlog2. unfold s2. cbn [attemptNumber]. lia. }
  unfold bind at 1. rewrite Hrun. exists s3. split; [done|].
  rewrite Hlog, Hlog2. unfold s2. cbn [attemptNumber].
  replace (S (k - 1)) with k by lia. done.
Qed.



Definition passingEnv : environment :=
  mkEnvironment
    (fun _ _ => Ok tt)
    (fun l _ => Ok (100 + length l))
    (fun _ _ => Ok false)
    (fun _ _ => Ok ["oc-ralph:test"; "oc-ralph:agent-complete"])
    (fun _ _ => Ok ∅).

(** As [passingEnv], with a resolver that cannot list the dependent tests. *)
Definition noDependentsEnv : environment :=
  mkEnvironment
    (fun _ _ => Ok tt)
    (fun l _ => Ok (100 + length l))
    (fun _ _ => Ok false)
    (fun _ _ => Ok ["oc-ralph:test"; "oc-ralph:agent-complete"])
    (fun _ _ => Throw (Error "this.dependencyResolver.resolveDependencies is not a function")).

Lemma coordinateTestFix_returns_at_first_passing_attempt_witness :
  exists s',
    coordinateTestFix passingEnv sampleConfig sampleRepository "/tmp/wt"
      sampleIssue [sampleIssue] 5 initialState
    = (Ok (Some (mkFixResult true 1)), s') /\
    fixAttemptsStarted (log s') = [1].
Proof.
  apply (coordinateTestFix_returns_at_first_passing_attempt passingEnv sampleConfig
           sampleRepository "/tmp/wt" sampleIssue [sampleIssue] 5 initialState 1).
  - lia.
  - intros l. reflexivity.
  - intros s' Hlt. simpl in Hlt. lia.
  - intros s' _. vm_compute. reflexivity.
  - intros f j s'. eexists. reflexivity.
Defined.



(** *** The master number on a ticket's labels *)

(** The labels [TestFailureHandler.createFixSubIssue] puts on a fix
    ticket. *)
Definition fixIssueLabels (masterIssueNumber testIssueNumber attemptNumber : nat)
  : list string :=
  [ "oc-ralph:sub-issue"; "oc-ralph:fix-attempt"; "oc-ralph:implementation";
    "oc-ralph:master-" +:+ natToString masterIssueNumber;
    "oc-ralph:test-" +:+ natToString testIssueNumber;
    "oc-ralph:attempt-" +:+ natToString attemptNumber ].

Lemma parseDigits_string_of_uint (d : Decimal.uint) (acc : nat) :
  parseDigits acc (NilEmpty.string_of_uint d) = Nat.of_uint_acc d acc.
Proof.
  revert acc.
  induction d; intros acc; cbn [NilEmpty.string_of_uint parseDigits Nat.of_uint_acc];
    [reflexivity|rewrite IHd; f_equal; rewrite Nat.tail_mul_spec..];
    match goal with
    | |- context [nat_of_ascii ?c - 48] =>
        let v := eval vm_compute in (nat_of_ascii c - 48) in
        change (nat_of_ascii c - 48) with v
    end; lia.
Qed.

Lemma leadingDigits_string_of_uint (d : Decimal.uint) :
  leadingDigits (NilEmpty.string_of_uint d) = NilEmpty.string_of_uint d.
Proof. induction d; cbn; by rewrite ?IHd. Qed.

Lemma parseDigits_natToString (n : nat) : parseDigits 0 (natToString n) = n.
Proof.
  unfold natToString. rewrite parseDigits_string_of_uint.
  exact (DecimalNat.Unsigned.of_to n).
Qed.

Lemma natToString_nonempty (n : nat) : natToString n <> "".
Proof.
  unfold natToString. intros H.
  pose proof (DecimalNat.Unsigned.of_to n) as Hn.
  destruct (Nat.to_uint n) eqn:E; try discriminate H.
  cbn in Hn. subst n. discriminate E.
Qed.

Lemma matchMasterNumber_unfold (name : string) :
  matchMasterNumber name =
  match (if String.prefix masterPrefix name then
           match leadingDigits (dropChars (String.length masterPrefix) name) with
           | EmptyString => None
           | digits => Some (parseDigits 0 digits)
           end
         else None) with
  | Some n => Some n
  | None => match name with
            | String _ name' => matchMasterNumber name'
            | EmptyString => None
            end
  end.
Proof. by destruct name. Qed.

Lemma matchMasterNumber_written (n : nat) :
  matchMasterNumber (masterPrefix +:+ natToString n) = Some n.
Proof.
  rewrite matchMasterNumber_unfold.
  assert (Hpre : String.prefix masterPrefix (masterPrefix +:+ natToString n) = true)
    by apply IssueBodyManager.prefix_app.
  rewrite Hpre.
  assert (Hdrop : dropChars (String.length masterPrefix) (masterPrefix +:+ natToString n)
                  = natToString n) by reflexivity.
  rewrite Hdrop. unfold natToString at 1. rewrite leadingDigits_string_of_uint.
  fold (natToString n). pose proof (natToString_nonempty n) as Hne.
  destruct (natToString n) as [|c s] eqn:E; [done|].
  by rewrite <- E, parseDigits_natToString.
Qed.

(** The master number is read back from the labels.  On a ticket whose
    first label beginning with [oc-ralph:master-] is
    [oc-ralph:master-${n}], as written by [createFixSubIssue],
    [extractMasterIssueNumber] returns [n], whatever the other labels are. *)
Theorem extractMasterIssueNumber_reads_the_written_label
    (n : nat) (before after : list string) (num : nat) (ttl : string) (st : state) :
  Forall (fun l => String.prefix masterPrefix l = false) before ->
  extractMasterIssueNumber
    (mkIssue num ttl (before ++ (masterPrefix +:+ natToString n) :: after)) st
  = (Ok n, st).
Proof.
  intros Hbefore. unfold extractMasterIssueNumber. cbn [labels].
  assert (Hfind : find (fun l => String.prefix masterPrefix l)
                       (before ++ (masterPrefix +:+ natToString n) :: after)
                  = Some (masterPrefix +:+ natToString n)).
  { induction Hbefore as [|l ls Hl _ IH]; cbn [app find].
    - by rewrite IssueBodyManager.prefix_app.
    - by rewrite Hl. }
  by rewrite Hfind, matchMasterNumber_written.
Qed.

Lemma extractMasterIssueNumber_reads_the_written_label_witness :
  extractMasterIssueNumber (mkIssue 31 "[Fix] login test" (fixIssueLabels 12 30 2))
                           (mkState [] 0 false)
  = (Ok 12, mkState [] 0 false).
Proof.
  apply (extractMasterIssueNumber_reads_the_written_label 12
           ["oc-ralph:sub-issue"; "oc-ralph:fix-attempt"; "oc-ralph:implementation"]
           ["oc-ralph:test-" +:+ natToString 30; "oc-ralph:attempt-" +:+ natToString 2]).
  repeat constructor.
Defined.

End TestRetryCoordinator.

(** ** Status reporter: debounced progress (StatusUpdater) *)

Module StatusUpdater.

(** The [progress] argument of [updateTaskProgress] and the pending object
    it is merged into; a field is [None] when it is [undefined]. *)
Record progress := mkProgress {
  agentMessage : option string;
  toolsUsed : option nat;
  retryCount : option nat;
  lastRetryTime : option string
}.

(** [{}] *)
Definition emptyProgress : progress := mkProgress None None None None.

Definition orElse {A} (new old : option A) : option A :=
  match new with
  | Some v => Some v
  | None => old
  end.

(** The four [if (progress.x !== undefined) pending.x = progress.x]. *)
Definition mergeProgress (pending p : progress) : progress :=
  mkProgress (orElse (agentMessage p) (agentMessage pending))
             (orElse (toolsUsed p) (toolsUsed pending))
             (orElse (retryCount p) (retryCount pending))
             (orElse (lastRetryTime p) (lastRetryTime pending)).

(** *** The HTML-comment markers *)

Definition nl : string := String (ascii_of_nat 10) EmptyString.

Definition commentOpen (key : string) : string := "<!-- " +:+ key +:+ ": ".
Definition commentClose : string := " -->".

Fixpoint dropChars (n : nat) (s : string) : string :=
  match n, s with
  | S n', String _ s' => dropChars n' s'
  | _, _ => s
  end.

Fixpoint takeChars (n : nat) (s : string) : string :=
  match n, s with
  | S n', String c s' => String c (takeChars n' s')
  | _, _ => EmptyString
  end.

(** A line terminator begins here: LF, CR, U+2028 or U+2029 (in UTF-8).
    The regular expression's [.] matches anything else. *)
Definition lineTerminatorAt (s : string) : bool :=
  String.prefix (String (ascii_of_nat 10) "") s
  || String.prefix (String (ascii_of_nat 13) "") s
  || String.prefix
       (String (ascii_of_nat 226) (String (ascii_of_nat 128)
          (String (ascii_of_nat 168) ""))) s
  || String.prefix
       (String (ascii_of_nat 226) (String (ascii_of_nat 128)
          (String (ascii_of_nat 169) ""))) s.

(** [(.*?) -->]: the length of the shortest run of non-terminators that is
    followed by the closing [ -->]. *)
Fixpoint lazyUntilClose (s : string) : option nat :=
  if String.prefix commentClose s then Some 0
  else if lineTerminatorAt s then None
  else match s with
       | EmptyString => None
       | String _ s' => option_map S (lazyUntilClose s')
       end.

(** A match of [<!-- key: (.*?) -->] starting at the head of [s]: its length
    and the text of group 1. *)
Definition matchCommentAt (key s : string) : option (nat * string) :=
  if String.prefix (commentOpen key) s then
    let rest := dropChars (String.length (commentOpen key)) s in
    match lazyUntilClose rest with
    | Some j =>
        Some (String.length (commentOpen key) + j + String.length commentClose,
              takeChars j rest)
    | None => None
    end
  else None.

(** [commentRegex.test(body)] *)
Fixpoint hasComment (key s : string) : bool :=
  match matchCommentAt key s with
  | Some _ => true
  | None => match s with
            | EmptyString => false
            | String _ s' => hasComment key s'
            end
  end.

(** The replacement text for one match: in the replacement string [$$],
    [$&], [$`], [$'] and the references [$1] and [$01] to the only group are
    substituted, any other [$] stays as it is. *)
Fixpoint expandReplacement (template matched before after group1 : string) : string :=
  match template with
  | EmptyString => EmptyString
  | String c t1 =>
      if Ascii.eqb c "$" then
        match t1 with
        | String d t2 =>
            if Ascii.eqb d "$" then
              "$" +:+ expandReplacement t2 matched before after group1
            else if Ascii.eqb d "&" then
              matched +:+ expandReplacement t2 matched before after group1
            else if Ascii.eqb d "`" then
              before +:+ expandReplacement t2 matched before after group1
            else if Ascii.eqb d "'" then
              after +:+ expandReplacement t2 matched before after group1
            else if Ascii.eqb d "1" then
              group1 +:+ expandReplacement t2 matched before after group1
            else if Ascii.eqb d "0" then
              match t2 with
              | String d' t3 =>
                  if Ascii.eqb d' "1" then
                    group1 +:+ expandReplacement t3 matched before after group1
                  else String c (String d
                         (expandReplacement t2 matched before after group1))
              | EmptyString => String c (String d EmptyString)
              end
            else String c (expandReplacement t1 matched before after group1)
        | EmptyString => String c EmptyString
        end
      else String c (expandReplacement t1 matched before after group1)
  end.

(** [body.replace(commentRegex, newComment)] with the global flag: every
    match, left to right, is replaced; [before] is the text of the original
    string that precedes the current position. *)
Fixpoint replaceComments (fuel : nat) (key template before s : string) : string :=
  match fuel with
  | 0 => s
  | S fuel' =>
      match matchCommentAt key s with
      | Some (len, group1) =>
          let matched := takeChars len s in
          let after := dropChars len s in
          expandReplacement template matched before after group1
            +:+ replaceComments fuel' key template (before +:+ matched) after
      | None =>
          match s with
          | EmptyString => EmptyString
          | String c s' =>
              String c (replaceComments fuel' key template
                          (before +:+ String c EmptyString) s')
          end
      end
  end.

(** [_updateHTMLComment(body, key, value)] *)
Definition updateHTMLComment (body key value : string) : string :=
  let newComment := "<!-- " +:+ key +:+ ": " +:+ value +:+ " -->" in
  if hasComment key body then
    replaceComments (S (String.length body)) key newComment "" body
  else body +:+ nl +:+ newComment.

(** The four conditional marker updates of [_flushProgressUpdate]. *)
Definition applyPending (pending : progress) (body : string) : string :=
  let body := match agentMessage pending with
              | Some v => updateHTMLComment body "agent-message" v
              | None => body
              end in
  let body := match toolsUsed pending with
              | Some n => updateHTMLComment body "tools-used" (natToString n)
              | None => body
              end in
  let body := match retryCount pending with
              | Some n => updateHTMLComment body "retry-count" (natToString n)
              | None => body
              end in
  match lastRetryTime pending with
  | Some v => updateHTMLComment body "last-retry-time" v
  | None => body
  end.

Example updateHTMLComment_appends :
  updateHTMLComment "Task body" "tools-used" "3"
  = "Task body" +:+ nl +:+ "<!-- tools-used: 3 -->".
Proof. vm_compute. reflexivity. Qed.

Example updateHTMLComment_replaces :
  updateHTMLComment ("a <!-- tools-used: 3 --> b <!-- tools-used: 4 --> c")
                    "tools-used" "5"
  = "a <!-- tools-used: 5 --> b <!-- tools-used: 5 --> c".
Proof. vm_compute. reflexivity. Qed.

Example updateHTMLComment_dollar :
  updateHTMLComment "x <!-- agent-message: old --> y" "agent-message" "cost $10 ($$)"
  = "x <!-- agent-message: cost old0 ($) --> y".
Proof. vm_compute. reflexivity. Qed.

(** *** The reporter, its timers and the tracker *)

(** The reporter's two maps, the runtime's clock and active timers (handle
    to due time and the sub-ticket whose flush it runs), the bodies of the
    existing tickets ([None] for a [null] body), and the [updateIssue] calls
    made so far. *)
Record world := mkWorld {
  now : Z;
  nextTimerId : nat;
  activeTimers : gmap nat (Z * nat);
  pendingProgressUpdates : gmap nat progress;
  progressUpdateTimers : gmap nat nat;
  issueBodies : gmap nat (option string);
  updateIssueCalls : list (nat * string)
}.

Definition debounceMs : Z := 500.

(** [updateTaskProgress(issueNumber, progress)], run at time [now]. *)
Definition updateTaskProgress (issueNumber : nat) (p : progress) (w : world) : world :=
  let pending :=
    mergeProgress (default emptyProgress (pendingProgressUpdates w !! issueNumber)) p in
  let cleared :=
    match progressUpdateTimers w !! issueNumber with
    | Some h => delete h (activeTimers w)
    | None => activeTimers w
    end in
  let timer := nextTimerId w in
  mkWorld (now w) (S timer)
          (<[timer := ((now w + debounceMs)%Z, issueNumber)]> cleared)
          (<[issueNumber := pending]> (pendingProgressUpdates w))
          (<[issueNumber := timer]> (progressUpdateTimers w))
          (issueBodies w)
          (updateIssueCalls w).

(** [_flushProgressUpdate(issueNumber)].  [getIssue] throws for a ticket
    that does not exist; the [catch] then leaves the pending entry in place.
    [updateIssue] rewrites the body only when the new body is non-empty. *)
Definition flushProgressUpdate (issueNumber : nat) (w : world) : world :=
  match pendingProgressUpdates w !! issueNumber with
  | None => w
  | Some pending =>
      match issueBodies w !! issueNumber with
      | None => w
      | Some issueBody =>
          let body := applyPending pending (default "" issueBody) in
          mkWorld (now w) (nextTimerId w) (activeTimers w)
                  (delete issueNumber (pendingProgressUpdates w))
                  (delete issueNumber (progressUpdateTimers w))
                  (if String.eqb body "" then issueBodies w
                   else <[issueNumber := Some body]> (issueBodies w))
                  (updateIssueCalls w ++ [(issueNumber, body)])
      end
  end.

(** The timer the runtime runs next: the earliest due, the oldest handle
    first among equals. *)
Definition firesBefore (x y : nat * (Z * nat)) : bool :=
  (x.2.1 <? y.2.1)%Z || ((x.2.1 =? y.2.1)%Z && (x.1 <? y.1)).

Definition earliestTimer (timers : list (nat * (Z * nat))) : option (nat * (Z * nat)) :=
  foldr (fun x acc => match acc with
                      | None => Some x
                      | Some y => if firesBefore x y then Some x else Some y
                      end) None timers.

Definition nextDue (T : Z) (w : world) : option (nat * (Z * nat)) :=
  match earliestTimer (map_to_list (activeTimers w)) with
  | Some x => if (x.2.1 <=? T)%Z then Some x else None
  | None => None
  end.

(** The timer [h] expires: the clock reaches its due time and its callback
    runs. *)
Definition fireTimer (h : nat) (due : Z) (issueNumber : nat) (w : world) : world :=
  flushProgressUpdate issueNumber
    (mkWorld (Z.max (now w) due) (nextTimerId w) (delete h (activeTimers w))
             (pendingProgressUpdates w) (progressUpdateTimers w)
             (issueBodies w) (updateIssueCalls w)).

(** Run the timers due by time [T], earliest first.  A callback sets no
    timer, so one unit of fuel per active timer is enough. *)
Fixpoint runDueTimers (fuel : nat) (T : Z) (w : world) : world :=
  match fuel with
  | 0 => w
  | S fuel' =>
      match nextDue T w with
      | None => w
      | Some (h, (due, issueNumber)) =>
          runDueTimers fuel' T (fireTimer h due issueNumber w)
      end
  end.

(** Time passes until [T]. *)
Definition advanceTo (T : Z) (w : world) : world :=
  let w' := runDueTimers (size (activeTimers w)) T w in
  mkWorld (Z.max (now w') T) (nextTimerId w') (activeTimers w')
          (pendingProgressUpdates w') (progressUpdateTimers w')
          (issueBodies w') (updateIssueCalls w').

(** A call [updateTaskProgress(issueNumber, p)] arriving at time [t]. *)
Definition callAt (issueNumber : nat) (c : Z * progress) (w : world) : world :=
  updateTaskProgress issueNumber (snd c) (advanceTo (fst c) w).

Definition runCalls (issueNumber : nat) (calls : list (Z * progress)) (w : world)
  : world :=
  fold_left (fun w c => callAt issueNumber c w) calls w.

(** The reporter as constructed, over a tracker holding the given bodies. *)
Definition initialWorld (bodies : gmap nat (option string)) : world :=
  mkWorld 0 0 ∅ ∅ ∅ bodies [].

(** The bodies written to sub-ticket [n], in order. *)
Definition writesTo (n : nat) (w : world) : list string :=
  map snd (List.filter (fun c => Nat.eqb (fst c) n) (updateIssueCalls w)).

(** The last value supplied for a key in a sequence of calls. *)
Definition lastSupplied {A} (field : progress -> option A) (ps : list progress)
  : option A :=
  fold_left (fun acc p => orElse (field p) acc) ps None.

(** The per-key last write of a sequence of calls. *)
Definition perKeyLast (ps : list progress) : progress :=
  mkProgress (lastSupplied agentMessage ps) (lastSupplied toolsUsed ps)
             (lastSupplied retryCount ps) (lastSupplied lastRetryTime ps).

(** Each call arrives after the one before it and less than the debounce
    delay later. *)
Fixpoint withinWindow (previous : Z) (calls : list (Z * progress)) : Prop :=
  match calls with
  | [] => True
  | c :: rest =>
      (previous <= fst c < previous + debounceMs)%Z /\ withinWindow (fst c) rest
  end.

(** Every active timer is the one its sub-ticket is registered with. *)
Definition timersRegistered (w : world) : Prop :=
  forall h due m,
    activeTimers w !! h = Some (due, m) -> progressUpdateTimers w !! m = Some h.

Definition burstStart : Z * progress :=
  (100%Z, mkProgress (Some "reading files") (Some 1) None None).

Definition burstRest : list (Z * progress) :=
  [ (300%Z, mkProgress None (Some 2) None None);
    (790%Z, mkProgress (Some "writing tests") None (Some 1) (Some "2026-01-01T00:00:00Z")) ].

Example burst_single_write :
  writesTo 42 (advanceTo 1290 (runCalls 42 (burstStart :: burstRest) (initialWorld {[ 42 := Some "Task" ]})))
  = [ "Task" +:+ nl +:+ "<!-- agent-message: writing tests -->" +:+ nl
        +:+ "<!-- tools-used: 2 -->" +:+ nl +:+ "<!-- retry-count: 1 -->" +:+ nl
        +:+ "<!-- last-retry-time: 2026-01-01T00:00:00Z -->" ].
Proof. vm_compute. reflexivity. Qed.

Example burst_not_yet :
  writesTo 42 (advanceTo 1289 (runCalls 42 (burstStart :: burstRest) (initialWorld {[ 42 := Some "Task" ]})))
  = [].
Proof. vm_compute. reflexivity. Qed.

Example two_windows_two_writes :
  length (writesTo 42
            (advanceTo 5000
               (runCalls 42 [(100%Z, mkProgress None (Some 1) None None);
                              (700%Z, mkProgress None (Some 2) None None)]
                  (initialWorld {[ 42 := Some "Task" ]})))) = 2.
Proof. vm_compute. reflexivity. Qed.

(** *** Merging *)

Lemma fold_mergeProgress (ps : list progress) (acc : progress) :
  fold_left mergeProgress ps acc
  = mkProgress
      (fold_left (fun a p => orElse (agentMessage p) a) ps (agentMessage acc))
      (fold_left (fun a p => orElse (toolsUsed p) a) ps (toolsUsed acc))
      (fold_left (fun a p => orElse (retryCount p) a) ps (retryCount acc))
      (fold_left (fun a p => orElse (lastRetryTime p) a) ps (lastRetryTime acc)).
Proof.
  revert acc. induction ps as [|p ps IH]; intros acc.
  - now destruct acc.
  - cbn [fold_left]. rewrite IH. reflexivity.
Qed.

Lemma perKeyLast_merge (ps : list progress) :
  fold_left mergeProgress ps emptyProgress = perKeyLast ps.
Proof. now rewrite fold_mergeProgress. Qed.

Lemma lastSupplied_snoc {A} (field : progress -> option A) ps p :
  lastSupplied field (ps ++ [p]) = orElse (field p) (lastSupplied field ps).
Proof. unfold lastSupplied. now rewrite fold_left_app. Qed.

(** *** Timers *)

Lemma earliestTimer_elem timers x :
  earliestTimer timers = Some x -> x ∈ timers.
Proof.
  revert x. induction timers as [|y timers IH]; intros x; cbn.
  - discriminate.
  - fold (earliestTimer timers).
    destruct (earliestTimer timers) as [z|] eqn:E.
    + destruct (firesBefore y z); intros [= <-].
      * left.
      * right. now apply IH.
    + intros [= <-]. left.
Qed.

Lemma earliestTimer_min timers x y :
  earliestTimer timers = Some x -> y ∈ timers -> (x.2.1 <= y.2.1)%Z.
Proof.
  revert x. induction timers as [|z timers IH]; intros x; cbn.
  - discriminate.
  - fold (earliestTimer timers).
    destruct (earliestTimer timers) as [u|] eqn:E.
    + intros Hx Hy.
      assert (Hu : y ∈ timers -> (u.2.1 <= y.2.1)%Z) by (intros; now apply IH).
      unfold firesBefore in Hx.
      apply elem_of_cons in Hy as [-> | Hy].
      * destruct ((z.2.1 <? u.2.1)%Z || ((z.2.1 =? u.2.1)%Z && (z.1 <? u.1))) eqn:F;
          injection Hx as <-; [lia|].
        apply orb_false_iff in F as [F _]. apply Z.ltb_ge in F. exact F.
      * specialize (Hu Hy).
        destruct ((z.2.1 <? u.2.1)%Z || ((z.2.1 =? u.2.1)%Z && (z.1 <? u.1))) eqn:F;
          injection Hx as <-; [|exact Hu].
        apply orb_true_iff in F as [F | F].
        -- apply Z.ltb_lt in F. lia.
        -- apply andb_true_iff in F as [F _]. apply Z.eqb_eq in F. lia.
    + intros [= <-] Hy. destruct timers as [|? ?]; [|cbn in E].
      * apply list_elem_of_singleton in Hy as ->. lia.
      * fold (earliestTimer timers) in E.
        destruct (earliestTimer timers); [destruct (firesBefore _ _)|]; discriminate.
Qed.

Lemma earliestTimer_None timers : earliestTimer timers = None -> timers = [].
Proof.
  destruct timers as [|x timers]; [reflexivity|]. cbn.
  fold (earliestTimer timers).
  destruct (earliestTimer timers); [destruct (firesBefore _ _)|]; discriminate.
Qed.

Lemma nextDue_Some T w h due m :
  nextDue T w = Some (h, (due, m)) ->
  activeTimers w !! h = Some (due, m) /\ (due <= T)%Z.
Proof.
  unfold nextDue.
  destruct (earliestTimer (map_to_list (activeTimers w))) as [x|] eqn:E; [|discriminate].
  destruct (x.2.1 <=? T)%Z eqn:F; [|discriminate].
  intros [= ->]. apply earliestTimer_elem in E.
  apply elem_of_map_to_list in E. split; [exact E|].
  apply Z.leb_le in F. exact F.
Qed.

Lemma nextDue_None T w h due m :
  nextDue T w = None -> activeTimers w !! h = Some (due, m) -> (T < due)%Z.
Proof.
  unfold nextDue. intros HN Hh.
  apply elem_of_map_to_list in Hh.
  destruct (earliestTimer (map_to_list (activeTimers w))) as [x|] eqn:E.
  - destruct (x.2.1 <=? T)%Z eqn:F; [discriminate|].
    apply Z.leb_gt in F.
    pose proof (earliestTimer_min _ _ _ E Hh) as Hmin. cbn in Hmin. lia.
  - apply earliestTimer_None in E. rewrite E in Hh. inversion Hh.
Qed.

(** *** Flushing leaves the other sub-tickets alone *)

(** What the reporter and the tracker hold about sub-ticket [n]. *)
Definition viewOf (n : nat) (w : world)
  : option progress * option nat * option (option string) * list string :=
  (pendingProgressUpdates w !! n, progressUpdateTimers w !! n,
   issueBodies w !! n, writesTo n w).

Lemma writesTo_snoc n (log : list (nat * string)) m body :
  map snd (List.filter (fun c => Nat.eqb (fst c) n) (log ++ [(m, body)]))
  = map snd (List.filter (fun c => Nat.eqb (fst c) n) log)
    ++ (if Nat.eqb m n then [body] else []).
Proof.
  rewrite List.filter_app, map_app. cbn.
  now destruct (Nat.eqb m n).
Qed.

Lemma flushProgressUpdate_other m n w :
  m <> n -> viewOf n (flushProgressUpdate m w) = viewOf n w.
Proof.
  intros Hmn. unfold flushProgressUpdate, viewOf, writesTo.
  destruct (pendingProgressUpdates w !! m) as [pending|]; [|reflexivity].
  destruct (issueBodies w !! m) as [issueBody|]; [|reflexivity].
  cbn. rewrite !lookup_delete_ne by exact Hmn.
  rewrite writesTo_snoc.
  destruct (Nat.eqb_spec m n) as [?|_]; [contradiction|].
  rewrite app_nil_r.
  destruct (String.eqb _ _); [reflexivity|].
  now rewrite lookup_insert_ne by exact Hmn.
Qed.

Lemma flushProgressUpdate_frame m w :
  activeTimers (flushProgressUpdate m w) = activeTimers w
  /\ now (flushProgressUpdate m w) = now w.
Proof.
  unfold flushProgressUpdate.
  destruct (pendingProgressUpdates w !! m); [|now split].
  destruct (issueBodies w !! m); now split.
Qed.

Lemma fireTimer_activeTimers h due m w :
  activeTimers (fireTimer h due m w) = delete h (activeTimers w).
Proof. unfold fireTimer. now rewrite (proj1 (flushProgressUpdate_frame _ _)). Qed.

Lemma fireTimer_now h due m w :
  now (fireTimer h due m w) = Z.max (now w) due.
Proof. unfold fireTimer. now rewrite (proj2 (flushProgressUpdate_frame _ _)). Qed.

Lemma fireTimer_other h due m n w :
  m <> n -> viewOf n (fireTimer h due m w) = viewOf n w.
Proof.
  intros Hmn. unfold fireTimer. now rewrite flushProgressUpdate_other.
Qed.

Lemma fireTimer_registered h due m w :
  timersRegistered w ->
  activeTimers w !! h = Some (due, m) ->
  timersRegistered (fireTimer h due m w).
Proof.
  intros Hreg Hh h' due' m' Hact.
  rewrite fireTimer_activeTimers in Hact.
  apply lookup_delete_Some in Hact as [Hne Hact].
  assert (Hm : m <> m').
  { intros <-. apply Hreg in Hh, Hact. congruence. }
  pose proof (fireTimer_other h due m m' w Hm) as Hview.
  unfold viewOf in Hview.
  assert (E : progressUpdateTimers (fireTimer h due m w) !! m'
              = progressUpdateTimers w !! m') by congruence.
  rewrite E. exact (Hreg _ _ _ Hact).
Qed.

(** The flush of a sub-ticket with pending fields whose ticket exists. *)
Lemma flushProgressUpdate_writes n w pending b :
  pendingProgressUpdates w !! n = Some pending ->
  issueBodies w !! n = Some b ->
  let body := applyPending pending (default "" b) in
  viewOf n (flushProgressUpdate n w)
  = (None, None,
     Some (if String.eqb body "" then b else Some body),
     writesTo n w ++ [body]).
Proof.
  intros Hp Hb body. unfold flushProgressUpdate, viewOf, writesTo.
  rewrite Hp, Hb. cbn. rewrite !lookup_delete_eq.
  rewrite writesTo_snoc, Nat.eqb_refl. fold body.
  destruct (String.eqb body ""); [now rewrite Hb|].
  now rewrite lookup_insert_eq.
Qed.

(** *** Time passing *)

(** Sub-ticket [n] has merged fields [pending] waiting for a timer due at
    [due]; its ticket holds [b] and [written] has been written to it. *)
Definition armed (n : nat) (pending : progress) (due : Z) (b : option string)
    (written : list string) (w : world) : Prop :=
  timersRegistered w /\
  exists h, viewOf n w = (Some pending, Some h, Some b, written)
            /\ activeTimers w !! h = Some (due, n).

Lemma runDueTimers_now fuel T w :
  (now w <= T)%Z -> (now (runDueTimers fuel T w) <= T)%Z.
Proof.
  revert w. induction fuel as [|fuel IH]; intros w Hnow; cbn; [exact Hnow|].
  destruct (nextDue T w) as [[h [due m]]|] eqn:E; [|exact Hnow].
  apply IH. rewrite fireTimer_now.
  apply nextDue_Some in E as [_ Hdue]. lia.
Qed.

Lemma runDueTimers_unregistered fuel T w n :
  timersRegistered w ->
  progressUpdateTimers w !! n = None ->
  timersRegistered (runDueTimers fuel T w)
  /\ viewOf n (runDueTimers fuel T w) = viewOf n w.
Proof.
  revert w. induction fuel as [|fuel IH]; intros w Hreg Hn; cbn; [now split|].
  destruct (nextDue T w) as [[h [due m]]|] eqn:E; [|now split].
  apply nextDue_Some in E as [Hh _].
  assert (Hm : m <> n).
  { intros ->. apply Hreg in Hh. congruence. }
  pose proof (fireTimer_other h due m n w Hm) as Hview.
  destruct (IH (fireTimer h due m w)) as [Hreg' Hview'].
  - now apply fireTimer_registered.
  - unfold viewOf in Hview. congruence.
  - split; [exact Hreg'|]. now rewrite Hview'.
Qed.

Lemma runDueTimers_armed fuel T w n pending due b written :
  armed n pending due b written w ->
  (T < due)%Z ->
  armed n pending due b written (runDueTimers fuel T w).
Proof.
  revert w. induction fuel as [|fuel IH]; intros w Harmed HT; cbn; [exact Harmed|].
  destruct (nextDue T w) as [[h' [due' m]]|] eqn:E; [|exact Harmed].
  apply nextDue_Some in E as [Hh' Hdue'].
  destruct Harmed as [Hreg [h [Hview Hh]]].
  assert (Hm : m <> n).
  { intros ->. pose proof (Hreg _ _ _ Hh') as R.
    unfold viewOf in Hview. assert (h' = h) as -> by congruence.
    rewrite Hh in Hh'. injection Hh' as ->. lia. }
  apply IH; [|exact HT]. split; [now apply fireTimer_registered|].
  exists h. split.
  - now rewrite fireTimer_other.
  - rewrite fireTimer_activeTimers, lookup_delete_ne; [exact Hh|].
    intros ->. rewrite Hh in Hh'. congruence.
Qed.

Lemma runDueTimers_expires fuel T w n pending due b written :
  armed n pending due b written w ->
  (due <= T)%Z ->
  size (activeTimers w) <= fuel ->
  let body := applyPending pending (default "" b) in
  timersRegistered (runDueTimers fuel T w)
  /\ viewOf n (runDueTimers fuel T w)
     = (None, None, Some (if String.eqb body "" then b else Some body),
        written ++ [body]).
Proof.
  intros Harmed HT Hfuel body. revert w Harmed Hfuel.
  induction fuel as [|fuel IH]; intros w [Hreg [h [Hview Hh]]] Hfuel.
  - apply Nat.le_0_r, map_size_empty_iff in Hfuel.
    rewrite Hfuel, lookup_empty in Hh. discriminate.
  - cbn. destruct (nextDue T w) as [[h' [due' m]]|] eqn:E.
    2:{ pose proof (nextDue_None _ _ _ _ _ E Hh). lia. }
    apply nextDue_Some in E as [Hh' Hdue'].
    destruct (Nat.eq_dec m n) as [->|Hm].
    + assert (Hfired : viewOf n (fireTimer h' due' n w)
                       = (None, None,
                          Some (if String.eqb body "" then b else Some body),
                          written ++ [body])).
      { unfold fireTimer, viewOf in *.
        pose proof (flushProgressUpdate_writes n
          (mkWorld (Z.max (now w) due') (nextTimerId w) (delete h' (activeTimers w))
             (pendingProgressUpdates w) (progressUpdateTimers w)
             (issueBodies w) (updateIssueCalls w)) pending b) as F.
        unfold viewOf, writesTo in *. cbn in F.
        rewrite F by congruence. repeat f_equal. congruence. }
      destruct (runDueTimers_unregistered fuel T (fireTimer h' due' n w) n)
        as [Hreg' Hview'].
      * now apply fireTimer_registered.
      * unfold viewOf in Hfired. congruence.
      * split; [exact Hreg'|]. now rewrite Hview'.
    + apply IH.
      * split; [now apply fireTimer_registered|]. exists h. split.
        -- now rewrite fireTimer_other.
        -- rewrite fireTimer_activeTimers, lookup_delete_ne; [exact Hh|].
           intros ->. rewrite Hh in Hh'. congruence.
      * rewrite fireTimer_activeTimers.
        assert (Hsize : size (activeTimers w) = S (size (delete h' (activeTimers w)))).
        { rewrite <- (insert_delete_id (activeTimers w) h' (due', m)) at 1 by exact Hh'.
          rewrite map_size_insert_None; [reflexivity|]. apply lookup_delete_eq. }
        lia.
Qed.

Lemma advanceTo_view T w n :
  viewOf n (advanceTo T w) = viewOf n (runDueTimers (size (activeTimers w)) T w).
Proof. reflexivity. Qed.

Lemma advanceTo_now T w : (now w <= T)%Z -> now (advanceTo T w) = T.
Proof.
  intros H. unfold advanceTo. cbn.
  pose proof (runDueTimers_now (size (activeTimers w)) T w H). lia.
Qed.

Lemma advanceTo_registered T w :
  timersRegistered (runDueTimers (size (activeTimers w)) T w) ->
  timersRegistered (advanceTo T w).
Proof. intros H. exact H. Qed.

(** *** Calls *)

Lemma updateTaskProgress_arms n p w b written :
  timersRegistered w ->
  issueBodies w !! n = Some b ->
  writesTo n w = written ->
  armed n (mergeProgress (default emptyProgress (pendingProgressUpdates w !! n)) p)
        (now w + debounceMs) b written (updateTaskProgress n p w).
Proof.
  intros Hreg Hb Hw. split.
  - intros h' due' m' Hact. unfold updateTaskProgress in *. cbn in *.
    apply lookup_insert_Some in Hact as [[<- [= <- <-]]|[Hne Hact]].
    + apply lookup_insert_eq.
    + assert (Hold : activeTimers w !! h' = Some (due', m')
                     /\ progressUpdateTimers w !! n <> Some h').
      { destruct (progressUpdateTimers w !! n) as [h|].
        - apply lookup_delete_Some in Hact as [Hh Hact]. split; congruence.
        - split; [exact Hact|discriminate]. }
      destruct Hold as [Hold Hn].
      pose proof (Hreg _ _ _ Hold) as R.
      rewrite lookup_insert_ne; [exact R|]. intros <-. contradiction.
  - exists (nextTimerId w). unfold viewOf, writesTo, updateTaskProgress in *. cbn.
    rewrite !lookup_insert_eq. split; [|reflexivity]. now rewrite Hb, Hw.
Qed.

Lemma callAt_first n c w b written :
  timersRegistered w ->
  viewOf n w = (None, None, Some b, written) ->
  (now w <= fst c)%Z ->
  armed n (mergeProgress emptyProgress (snd c)) (fst c + debounceMs) b written
        (callAt n c w)
  /\ now (callAt n c w) = fst c.
Proof.
  intros Hreg Hview Hnow. unfold callAt.
  destruct (runDueTimers_unregistered (size (activeTimers w)) (fst c) w n Hreg)
    as [Hreg' Hview'].
  { unfold viewOf in Hview. congruence. }
  rewrite <- advanceTo_view, Hview in Hview'.
  apply advanceTo_registered in Hreg'.
  pose proof (advanceTo_now (fst c) w Hnow) as Hnow'.
  split; [|cbn; exact Hnow'].
  unfold viewOf in Hview'.
  pose proof (updateTaskProgress_arms n (snd c) (advanceTo (fst c) w) b written Hreg')
    as Harm.
  rewrite Hnow' in Harm.
  replace (pendingProgressUpdates (advanceTo (fst c) w) !! n) with (@None progress)
    in Harm by congruence.
  apply Harm; congruence.
Qed.

Lemma callAt_again n c w pending due b written :
  armed n pending due b written w ->
  (now w <= fst c < due)%Z ->
  armed n (mergeProgress pending (snd c)) (fst c + debounceMs) b written
        (callAt n c w)
  /\ now (callAt n c w) = fst c.
Proof.
  intros Harmed [Hnow Hdue]. unfold callAt.
  pose proof (runDueTimers_armed (size (activeTimers w)) (fst c) w n
                pending due b written Harmed Hdue) as [Hreg' [h [Hview' _]]].
  rewrite <- advanceTo_view in Hview'.
  apply advanceTo_registered in Hreg'.
  pose proof (advanceTo_now (fst c) w Hnow) as Hnow'.
  split; [|cbn; exact Hnow'].
  unfold viewOf in Hview'.
  pose proof (updateTaskProgress_arms n (snd c) (advanceTo (fst c) w) b written Hreg')
    as Harm.
  rewrite Hnow' in Harm.
  replace (pendingProgressUpdates (advanceTo (fst c) w) !! n) with (Some pending)
    in Harm by congruence.
  apply Harm; congruence.
Qed.

Lemma last_cons {A} (x d : A) (l : list A) : List.last (x :: l) d = List.last l x.
Proof.
  revert x d. induction l as [|y l IH]; intros x d; [reflexivity|].
  change (List.last (x :: y :: l) d) with (List.last (y :: l) d).
  rewrite IH. symmetry. apply IH.
Qed.

Lemma runCalls_armed n rest w pending previous b written :
  armed n pending (fst previous + debounceMs) b written w ->
  now w = fst previous ->
  withinWindow (fst previous) rest ->
  armed n (fold_left mergeProgress (map snd rest) pending)
        (fst (List.last rest previous) + debounceMs) b written
        (runCalls n rest w)
  /\ now (runCalls n rest w) = fst (List.last rest previous).
Proof.
  revert w pending previous.
  induction rest as [|c rest IH]; intros w pending previous Harmed Hnow Hwin.
  - now split.
  - destruct Hwin as [Hc Hwin]. cbn [runCalls fold_left map].
    destruct (callAt_again n c w pending _ b written Harmed) as [Harmed' Hnow'].
    { lia. }
    rewrite last_cons. now apply IH.
Qed.

(** *** The debounce guarantee *)



(** *** More than one window *)

Lemma mergeProgress_empty (p : progress) : mergeProgress emptyProgress p = p.
Proof. destruct p as [[a|] [t|] [r|] [l|]]; reflexivity. Qed.



(** *** Fields that could not be written *)

(** No timer is waiting to flush sub-ticket [n]. *)
Definition noTimerFor (n : nat) (w : world) : Prop :=
  forall h due, activeTimers w !! h <> Some (due, n).

Lemma runDueTimers_noTimerFor fuel T w n :
  timersRegistered w -> noTimerFor n w ->
  timersRegistered (runDueTimers fuel T w)
  /\ viewOf n (runDueTimers fuel T w) = viewOf n w
  /\ noTimerFor n (runDueTimers fuel T w).
Proof.
  revert w. induction fuel as [|fuel IH]; intros w Hreg Hnone; cbn; [done|].
  destruct (nextDue T w) as [[h [due m]]|] eqn:E; [|done].
  apply nextDue_Some in E as [Hh _].
  assert (Hm : m <> n).
  { intros ->. by apply (Hnone h due). }
  destruct (IH (fireTimer h due m w)) as (Hreg' & Hview' & Hnone').
  - by apply fireTimer_registered.
  - intros h' due' Hh'. rewrite fireTimer_activeTimers in Hh'.
    apply lookup_delete_Some in Hh' as [_ Hh']. by apply (Hnone h' due').
  - split; [done|]. split; [|done]. by rewrite Hview', fireTimer_other.
Qed.

(** Merged fields are waiting for a timer, but the ticket cannot be
    fetched. *)
Definition stuck (n : nat) (pending : progress) (due : Z)
    (written : list string) (w : world) : Prop :=
  timersRegistered w /\
  exists h, viewOf n w = (Some pending, Some h, None, written)
            /\ activeTimers w !! h = Some (due, n).

Lemma updateTaskProgress_stuck n p w :
  timersRegistered w ->
  issueBodies w !! n = None ->
  stuck n (mergeProgress (default emptyProgress (pendingProgressUpdates w !! n)) p)
        (now w + debounceMs) (writesTo n w) (updateTaskProgress n p w).
Proof.
  intros Hreg Hb. split.
  - intros h' due' m' Hact. unfold updateTaskProgress in *. cbn in *.
    apply lookup_insert_Some in Hact as [[<- [= <- <-]]|[Hne Hact]].
    + apply lookup_insert_eq.
    + assert (Hold : activeTimers w !! h' = Some (due', m')
                     /\ progressUpdateTimers w !! n <> Some h').
      { destruct (progressUpdateTimers w !! n) as [h|].
        - apply lookup_delete_Some in Hact as [Hh Hact]. split; congruence.
        - split; [exact Hact|discriminate]. }
      destruct Hold as [Hold Hn].
      pose proof (Hreg _ _ _ Hold) as R.
      rewrite lookup_insert_ne; [exact R|]. intros <-. contradiction.
  - exists (nextTimerId w). unfold viewOf, writesTo, updateTaskProgress in *. cbn.
    rewrite !lookup_insert_eq. split; [|reflexivity]. now rewrite Hb.
Qed.

Lemma runDueTimers_stuck fuel T w n pending due written :
  stuck n pending due written w ->
  (due <= T)%Z ->
  size (activeTimers w) <= fuel ->
  exists h,
    viewOf n (runDueTimers fuel T w) = (Some pending, Some h, None, written)
    /\ noTimerFor n (runDueTimers fuel T w).
Proof.
  intros Hstuck HT. revert w Hstuck.
  induction fuel as [|fuel IH]; intros w [Hreg [h [Hview Hh]]] Hfuel.
  - apply Nat.le_0_r, map_size_empty_iff in Hfuel.
    rewrite Hfuel, lookup_empty in Hh. discriminate.
  - cbn. destruct (nextDue T w) as [[h' [due' m]]|] eqn:E.
    2:{ pose proof (nextDue_None _ _ _ _ _ E Hh). lia. }
    apply nextDue_Some in E as [Hh' Hdue'].
    destruct (Nat.eq_dec m n) as [->|Hm].
    + assert (Hsame : h' = h).
      { pose proof (Hreg _ _ _ Hh') as R. unfold viewOf in Hview. congruence. }
      subst h'.
      assert (Hfired : viewOf n (fireTimer h due' n w) = viewOf n w).
      { assert (Hp : pendingProgressUpdates w !! n = Some pending)
          by (unfold viewOf in Hview; congruence).
        assert (Hb : issueBodies w !! n = None)
          by (unfold viewOf in Hview; congruence).
        unfold fireTimer, flushProgressUpdate.
        cbn [pendingProgressUpdates issueBodies]. rewrite Hp, Hb. reflexivity. }
      destruct (runDueTimers_noTimerFor fuel T (fireTimer h due' n w) n)
        as (_ & Hview' & Hnone').
      * by apply fireTimer_registered.
      * intros h2 due2 H2. rewrite fireTimer_activeTimers in H2.
        apply lookup_delete_Some in H2 as [Hne H2].
        pose proof (Hreg _ _ _ H2) as R. unfold viewOf in Hview. congruence.
      * exists h. split; [|done]. by rewrite Hview', Hfired.
    + apply IH.
      * split; [by apply fireTimer_registered|]. exists h. split.
        -- by rewrite fireTimer_other.
        -- rewrite fireTimer_activeTimers, lookup_delete_ne; [exact Hh|].
           intros ->. rewrite Hh in Hh'. congruence.
      * rewrite fireTimer_activeTimers.
        assert (Hsize : size (activeTimers w) = S (size (delete h' (activeTimers w)))).
        { rewrite <- (insert_delete_id (activeTimers w) h' (due', m)) at 1 by exact Hh'.
          rewrite map_size_insert_None; [reflexivity|]. apply lookup_delete_eq. }
        lia.
Qed.

(** Progress reported for a ticket that cannot be fetched is not written
    and not dropped: when the timer expires the flush fails, nothing is
    written, and the merged fields stay pending with no timer left to flush
    them. *)
Theorem progress_for_an_unreadable_ticket_stays_pending
    (n : nat) (w : world) (c : Z * progress) (T : Z) :
  timersRegistered w ->
  noTimerFor n w ->
  issueBodies w !! n = None ->
  (now w <= fst c)%Z ->
  (fst c + debounceMs <= T)%Z ->
  let w' := advanceTo T (callAt n c w) in
  writesTo n w' = writesTo n w /\
  pendingProgressUpdates w' !! n
    = Some (mergeProgress (default emptyProgress (pendingProgressUpdates w !! n))
                          (snd c)) /\
  noTimerFor n w'.
Proof.
  intros Hreg Hnone Hb Hnow HT w'.
  destruct (runDueTimers_noTimerFor (size (activeTimers w)) (fst c) w n Hreg Hnone)
    as (Hreg1 & Hview1 & _).
  rewrite <- advanceTo_view in Hview1. apply advanceTo_registered in Hreg1.
  pose proof (advanceTo_now (fst c) w Hnow) as Hnow1.
  assert (Hp1 : pendingProgressUpdates (advanceTo (fst c) w) !! n
                = pendingProgressUpdates w !! n)
    by (unfold viewOf in Hview1; congruence).
  assert (Hw1 : writesTo n (advanceTo (fst c) w) = writesTo n w)
    by (unfold viewOf in Hview1; congruence).
  assert (Hb1 : issueBodies (advanceTo (fst c) w) !! n = None)
    by (unfold viewOf in Hview1; congruence).
  pose proof (updateTaskProgress_stuck n (snd c) (advanceTo (fst c) w) Hreg1 Hb1)
    as Hstuck.
  rewrite Hnow1, Hp1, Hw1 in Hstuck. fold (callAt n c w) in Hstuck.
  destruct (runDueTimers_stuck (size (activeTimers (callAt n c w))) T (callAt n c w) n
              _ _ _ Hstuck HT (le_n _)) as (h & Hview2 & Hnone2).
  rewrite <- advanceTo_view in Hview2. fold w' in Hview2.
  split; [unfold viewOf in Hview2; congruence|].
  split; [unfold viewOf in Hview2; congruence|]. exact Hnone2.
Qed.

Lemma progress_for_an_unreadable_ticket_stays_pending_witness :
  let w' := advanceTo 1000 (callAt 9 (100%Z, mkProgress None (Some 4) None None)
                              (initialWorld ∅)) in
  writesTo 9 w' = [] /\
  pendingProgressUpdates w' !! 9 = Some (mkProgress None (Some 4) None None).
Proof.
  destruct (progress_for_an_unreadable_ticket_stays_pending 9 (initialWorld ∅)
              (100%Z, mkProgress None (Some 4) None None) 1000) as (H1 & H2 & _).
  - intros h due m H. cbn in H. rewrite lookup_empty in H. discriminate.
  - intros h due H. cbn in H. rewrite lookup_empty in H. discriminate.
  - reflexivity.
  - cbn. lia.
  - cbn. unfold debounceMs. lia.
  - split; [exact H1|exact H2].
Defined.

(** Fields left pending by a flush that failed are not lost: they are
    merged with the next call for the ticket and written by its flush. *)
Theorem leftover_fields_are_written_with_the_next_call
    (n : nat) (w : world) (leftover : progress) (b : option string)
    (c : Z * progress) (T : Z) :
  timersRegistered w ->
  noTimerFor n w ->
  pendingProgressUpdates w !! n = Some leftover ->
  issueBodies w !! n = Some b ->
  (now w <= fst c)%Z ->
  (fst c + debounceMs <= T)%Z ->
  writesTo n (advanceTo T (callAt n c w))
  = writesTo n w ++ [applyPending (mergeProgress leftover (snd c)) (default "" b)]
  /\ pendingProgressUpdates (advanceTo T (callAt n c w)) !! n = None.
Proof.
  intros Hreg Hnone Hp Hb Hnow HT.
  destruct (runDueTimers_noTimerFor (size (activeTimers w)) (fst c) w n Hreg Hnone)
    as (Hreg1 & Hview1 & _).
  rewrite <- advanceTo_view in Hview1. apply advanceTo_registered in Hreg1.
  pose proof (advanceTo_now (fst c) w Hnow) as Hnow1.
  assert (Hp1 : pendingProgressUpdates (advanceTo (fst c) w) !! n = Some leftover)
    by (unfold viewOf in Hview1; congruence).
  assert (Hw1 : writesTo n (advanceTo (fst c) w) = writesTo n w)
    by (unfold viewOf in Hview1; congruence).
  assert (Hb1 : issueBodies (advanceTo (fst c) w) !! n = Some b)
    by (unfold viewOf in Hview1; congruence).
  pose proof (updateTaskProgress_arms n (snd c) (advanceTo (fst c) w) b (writesTo n w)
                Hreg1 Hb1 Hw1) as Harmed.
  rewrite Hnow1, Hp1 in Harmed.
  cbn [default] in Harmed. unfold id in Harmed. fold (callAt n c w) in Harmed.
  destruct (runDueTimers_expires (size (activeTimers (callAt n c w))) T (callAt n c w) n
              _ _ _ _ Harmed HT (le_n _)) as [_ Hview2].
  rewrite <- advanceTo_view in Hview2.
  split; unfold viewOf in Hview2; congruence.
Qed.

Lemma leftover_fields_are_written_with_the_next_call_witness :
  let w := mkWorld 1000 1 ∅ {[ 9 := mkProgress (Some "building") None None None ]}
                   {[ 9 := 0 ]} {[ 9 := Some "Task" ]} [] in
  writesTo 9 (advanceTo 2000 (callAt 9 (1200%Z, mkProgress None (Some 4) None None) w))
  = [ "Task" +:+ nl +:+ "<!-- agent-message: building -->" +:+ nl
        +:+ "<!-- tools-used: 4 -->" ].
Proof.
  intros w.
  destruct (leftover_fields_are_written_with_the_next_call 9 w
              (mkProgress (Some "building") None None None) (Some "Task")
              (1200%Z, mkProgress None (Some 4) None None) 2000) as [H _].
  - intros h due m H. cbn in H. rewrite lookup_empty in H. discriminate.
  - intros h due H. cbn in H. rewrite lookup_empty in H. discriminate.
  - reflexivity.
  - reflexivity.
  - cbn. lia.
  - cbn. unfold debounceMs. lia.
  - rewrite H. vm_compute. reflexivity.
Defined.

(** *** Reading a marker back ([parseHTMLComment]) *)

(** [commentRegex.exec(body)]: group 1 of the first match. *)
Fixpoint findComment (key s : string) : option string :=
  match matchCommentAt key s with
  | Some (_, group1) => Some group1
  | None => match s with
            | EmptyString => None
            | String _ s' => findComment key s'
            end
  end.

(** [StatusUpdater.parseHTMLComment(body, key)]; [None] is [null], also for
    the body of a ticket. *)
Definition parseHTMLComment (body : option string) (key : string) : option string :=
  match body with
  | None => None
  | Some b => if String.eqb b "" then None else findComment key b
  end.

(** The keys are spliced into the regular expression as they are; this is
    the text they stand for when they hold nothing but lower-case letters
    and hyphens, as the four keys of the reporter do. *)
Definition plainKey (key : string) : bool :=
  forallb (fun c => let n := nat_of_ascii c in
                    ((97 <=? n) && (n <=? 122)) || (n =? 45))
          (list_ascii_of_string key).

Fixpoint hasLineTerminator (s : string) : bool :=
  lineTerminatorAt s
  || match s with
     | EmptyString => false
     | String _ s' => hasLineTerminator s'
     end.

Example parseHTMLComment_example :
  parseHTMLComment (Some "x <!-- tools-used: 3 --> y <!-- tools-used: 4 -->") "tools-used"
  = Some "3".
Proof. vm_compute. reflexivity. Qed.

Fixpoint hasNewline (s : string) : bool :=
  match s with
  | EmptyString => false
  | String c s' => Ascii.eqb c (ascii_of_nat 10) || hasNewline s'
  end.

Lemma prefix_app_r (p s y : string) :
  String.prefix p s = true -> String.prefix p (s +:+ y) = true.
Proof.
  revert s. induction p as [|a p IH]; intros s H; [by destruct (s +:+ y)|].
  destruct s as [|c s]; [discriminate|].
  rewrite IssueBodyManager.string_app_cons. cbn in *.
  destruct (ascii_dec a c); [by apply IH|done].
Qed.

(** A text without a line feed that begins [r ++ LF ++ x] lies within [r]. *)
Lemma prefix_before_newline (p r x : string) :
  hasNewline p = false ->
  String.prefix p (r +:+ nl +:+ x) = true -> String.prefix p r = true.
Proof.
  revert r. induction p as [|a p IH]; intros r Hp H; [by destruct r|].
  cbn in Hp. apply orb_false_iff in Hp as [Ha Hp].
  destruct r as [|c r].
  - exfalso. change ("" +:+ nl +:+ x) with (String (ascii_of_nat 10) x) in H.
    cbn in H. destruct (ascii_dec a (ascii_of_nat 10)) as [->|]; [|done].
    by rewrite Ascii.eqb_refl in Ha.
  - rewrite IssueBodyManager.string_app_cons in H. cbn in *.
    destruct (ascii_dec a c); [by apply IH|done].
Qed.

Lemma prefix_length (p s : string) :
  String.prefix p s = true -> String.length p <= String.length s.
Proof.
  revert s. induction p as [|a p IH]; intros s H; [simpl; lia|].
  destruct s as [|c s]; [discriminate|]. cbn in *.
  destruct (ascii_dec a c); [|done]. apply IH in H. lia.
Qed.

Lemma dropChars_app (k : nat) (s y : string) :
  k <= String.length s -> dropChars k (s +:+ y) = dropChars k s +:+ y.
Proof.
  revert s. induction k as [|k IH]; intros s Hk; [by destruct s|].
  destruct s as [|c s]; [simpl in Hk; lia|].
  rewrite IssueBodyManager.string_app_cons. cbn. apply IH. simpl in Hk. lia.
Qed.

Lemma dropChars_length_app (s y : string) : dropChars (String.length s) (s +:+ y) = y.
Proof.
  induction s as [|c s IH]; [by destruct y|].
  rewrite IssueBodyManager.string_app_cons. exact IH.
Qed.

Lemma takeChars_length_app (s y : string) : takeChars (String.length s) (s +:+ y) = s.
Proof.
  induction s as [|c s IH]; [by destruct y|].
  rewrite IssueBodyManager.string_app_cons. cbn. by rewrite IH.
Qed.

Lemma lineTerminatorAt_app (s y : string) :
  lineTerminatorAt s = true -> lineTerminatorAt (s +:+ y) = true.
Proof.
  unfold lineTerminatorAt. rewrite !orb_true_iff.
  intros [[[H|H]|H]|H]; [left; left; left|left; left; right|left; right|right];
    by apply prefix_app_r.
Qed.

Lemma lazyUntilClose_unfold (s : string) :
  lazyUntilClose s =
  if String.prefix commentClose s then Some 0
  else if lineTerminatorAt s then None
  else match s with
       | EmptyString => None
       | String _ s' => option_map S (lazyUntilClose s')
       end.
Proof. by destruct s. Qed.

(** A search for the closing [ -->] that failed keeps failing when a new
    line is appended. *)
Lemma lazyUntilClose_newline (r x : string) :
  lazyUntilClose r = None -> lazyUntilClose (r +:+ nl +:+ x) = None.
Proof.
  induction r as [|c r IH]; intros H.
  - by destruct x.
  - rewrite lazyUntilClose_unfold in H.
    rewrite IssueBodyManager.string_app_cons, lazyUntilClose_unfold.
    destruct (String.prefix commentClose (String c r)) eqn:Hpre; [discriminate|].
    assert (Hpre' : String.prefix commentClose (String c (r +:+ nl +:+ x)) = false).
    { destruct (String.prefix commentClose (String c (r +:+ nl +:+ x))) eqn:E; [|done].
      rewrite <- IssueBodyManager.string_app_cons in E.
      apply prefix_before_newline in E; [congruence|reflexivity]. }
    rewrite Hpre'.
    destruct (lineTerminatorAt (String c r)) eqn:Hlt.
    + rewrite <- IssueBodyManager.string_app_cons.
      by rewrite (lineTerminatorAt_app _ _ Hlt).
    + destruct (lazyUntilClose r) as [k|]; [discriminate|].
      rewrite (IH eq_refl). by case_match.
Qed.

Lemma hasNewline_app (a b : string) :
  hasNewline (a +:+ b) = hasNewline a || hasNewline b.
Proof.
  induction a as [|c a IH]; [reflexivity|].
  rewrite IssueBodyManager.string_app_cons. cbn. by rewrite IH, orb_assoc.
Qed.

Lemma plainKey_no_newline (key : string) : plainKey key = true -> hasNewline key = false.
Proof.
  unfold plainKey. induction key as [|c key IH]; [reflexivity|].
  cbn [list_ascii_of_string forallb hasNewline]. intros H.
  apply andb_true_iff in H as [Hc Hrest]. rewrite (IH Hrest), orb_false_r.
  destruct (Ascii.eqb_spec c (ascii_of_nat 10)) as [->|]; [|done].
  by vm_compute in Hc.
Qed.

Lemma commentOpen_no_newline (key : string) :
  plainKey key = true -> hasNewline (commentOpen key) = false.
Proof.
  intros H. unfold commentOpen. rewrite !hasNewline_app, (plainKey_no_newline key H).
  reflexivity.
Qed.

Lemma matchCommentAt_newline (key r x : string) :
  plainKey key = true ->
  matchCommentAt key r = None -> matchCommentAt key (r +:+ nl +:+ x) = None.
Proof.
  intros Hkey. unfold matchCommentAt.
  destruct (String.prefix (commentOpen key) r) eqn:Hpre.
  - rewrite (prefix_app_r _ _ _ Hpre).
    rewrite dropChars_app by (by apply prefix_length).
    destruct (lazyUntilClose (dropChars _ r)) as [j|] eqn:Hlazy; [discriminate|].
    intros _. by rewrite (lazyUntilClose_newline _ _ Hlazy).
  - intros _.
    destruct (String.prefix (commentOpen key) (r +:+ nl +:+ x)) eqn:E; [|done].
    apply prefix_before_newline in E; [congruence|]. by apply commentOpen_no_newline.
Qed.

Lemma findComment_skip (key body x : string) :
  plainKey key = true ->
  hasComment key body = false ->
  findComment key (body +:+ nl +:+ x) = findComment key (nl +:+ x).
Proof.
  intros Hkey. induction body as [|c body IH]; intros H; [reflexivity|].
  cbn [hasComment] in H.
  destruct (matchCommentAt key (String c body)) as [m|] eqn:Hm; [discriminate|].
  rewrite IssueBodyManager.string_app_cons. cbn [findComment].
  rewrite <- IssueBodyManager.string_app_cons.
  rewrite (matchCommentAt_newline key _ x Hkey Hm). by apply IH.
Qed.


Lemma prefix_cons (a c : ascii) (p s : string) :
  String.prefix (String a p) (String c s) = Ascii.eqb a c && String.prefix p s.
Proof.
  cbn. destruct (ascii_dec a c) as [->|Hne].
  - by rewrite Ascii.eqb_refl.
  - by rewrite (proj2 (Ascii.eqb_neq a c) Hne).
Qed.

Lemma prefix_nil (s : string) : String.prefix "" s = true.
Proof. by destruct s. Qed.

Lemma prefix_app_self (p y : string) : String.prefix p (p +:+ y) = true.
Proof.
  induction p as [|a p IH]; [apply prefix_nil|].
  by rewrite IssueBodyManager.string_app_cons, prefix_cons, Ascii.eqb_refl.
Qed.

(** Whether [p] begins a text is settled by the first [length p] characters. *)
Lemma prefix_app_long (p s y : string) :
  String.length p <= String.length s ->
  String.prefix p (s +:+ y) = String.prefix p s.
Proof.
  revert s. induction p as [|a p IH]; intros s Hlen; [by rewrite !prefix_nil|].
  destruct s as [|c s]; [simpl in Hlen; lia|].
  rewrite IssueBodyManager.string_app_cons, !prefix_cons, IH; [done|].
  simpl in Hlen. lia.
Qed.

Lemma prefix_split (p s : string) :
  String.prefix p s = true -> s = p +:+ dropChars (String.length p) s.
Proof.
  revert s. induction p as [|a p IH]; intros s H; [by destruct s|].
  destruct s as [|c s]; [discriminate|].
  rewrite prefix_cons in H. apply andb_true_iff in H as [Hac H].
  apply Ascii.eqb_eq in Hac as ->.
  rewrite IssueBodyManager.string_app_cons. cbn [String.length dropChars].
  by rewrite <- (IH _ H).
Qed.

(** The closing [ -->] begins with its only blank, so an occurrence cannot
    begin inside [v] and end inside a [ -->] that follows [v]. *)
Lemma prefix_close_app (v rest : string) :
  v <> "" ->
  String.prefix commentClose (v +:+ commentClose +:+ rest) =
  String.prefix commentClose v.
Proof.
  intros Hv. unfold commentClose.
  destruct v as [|a [|b [|c [|d v]]]]; [done|..];
    rewrite ?IssueBodyManager.string_app_cons, ?IssueBodyManager.string_app_nil_l;
    change (" -->" +:+ rest) with (String " " (String "-" (String "-" (String ">" rest))));
    rewrite ?prefix_cons, ?prefix_nil; cbn [String.prefix];
    change (Ascii.eqb "-" " ") with false; change (Ascii.eqb ">" " ") with false;
    rewrite ?andb_false_r; reflexivity.
Qed.

Lemma lineTerminatorAt_close (c : ascii) (v rest : string) :
  lineTerminatorAt (String c v +:+ commentClose +:+ rest)
  = lineTerminatorAt (String c v).
Proof.
  unfold lineTerminatorAt, commentClose.
  destruct v as [|b [|d v]];
    rewrite ?IssueBodyManager.string_app_cons, ?IssueBodyManager.string_app_nil_l;
    change (" -->" +:+ rest) with (String " " (String "-" (String "-" (String ">" rest))));
    rewrite ?prefix_cons, ?prefix_nil; cbn [String.prefix];
    change (Ascii.eqb (ascii_of_nat 128) " ") with false;
    change (Ascii.eqb (ascii_of_nat 168) " ") with false;
    change (Ascii.eqb (ascii_of_nat 169) " ") with false;
    rewrite ?andb_false_r, ?andb_true_r; reflexivity.
Qed.

Lemma includes_tail (c : ascii) (v needle : string) :
  includes (String c v) needle = false ->
  String.prefix needle (String c v) = false /\ includes v needle = false.
Proof.
  unfold includes. cbn [indexOf].
  destruct (String.prefix needle (String c v)); [done|].
  by destruct (indexOf needle v).
Qed.

(** The lazy group stops at the end of a value that holds neither a line
    terminator nor the closing text. *)
Lemma lazyUntilClose_value (value rest : string) :
  hasLineTerminator value = false ->
  includes value commentClose = false ->
  lazyUntilClose (value +:+ commentClose +:+ rest) = Some (String.length value).
Proof.
  induction value as [|c v IH]; intros Hlt Hinc.
  - rewrite IssueBodyManager.string_app_nil_l, lazyUntilClose_unfold.
    by rewrite prefix_app_self.
  - apply includes_tail in Hinc as [Hpre Hinc].
    cbn [hasLineTerminator] in Hlt. apply orb_false_iff in Hlt as [Hhere Hlt].
    rewrite lazyUntilClose_unfold, prefix_close_app, Hpre by done.
    rewrite lineTerminatorAt_close, Hhere.
    rewrite IssueBodyManager.string_app_cons, (IH Hlt Hinc). reflexivity.
Qed.

(** A line terminator in the value, with no closing text before it, stops
    the group. *)
Lemma lazyUntilClose_multiline (value rest : string) :
  hasLineTerminator value = true ->
  includes value commentClose = false ->
  lazyUntilClose (value +:+ commentClose +:+ rest) = None.
Proof.
  induction value as [|c v IH]; intros Hlt Hinc; [discriminate|].
  apply includes_tail in Hinc as [Hpre Hinc].
  rewrite lazyUntilClose_unfold, prefix_close_app, Hpre by done.
  rewrite lineTerminatorAt_close.
  cbn [hasLineTerminator] in Hlt.
  destruct (lineTerminatorAt (String c v)); [done|].
  rewrite IssueBodyManager.string_app_cons, (IH Hlt Hinc). reflexivity.
Qed.

Lemma newComment_eq (key value : string) :
  "<!-- " +:+ key +:+ ": " +:+ value +:+ " -->"
  = commentOpen key +:+ (value +:+ commentClose).
Proof.
  unfold commentOpen, commentClose.
  by rewrite !IssueBodyManager.string_app_assoc.
Qed.

Lemma matchCommentAt_marker (key value rest : string) :
  hasLineTerminator value = false ->
  includes value commentClose = false ->
  matchCommentAt key (commentOpen key +:+ (value +:+ commentClose +:+ rest))
  = Some (String.length (commentOpen key) + String.length value
          + String.length commentClose, value).
Proof.
  intros Hlt Hinc. unfold matchCommentAt.
  rewrite prefix_app_self, dropChars_length_app, (lazyUntilClose_value _ _ Hlt Hinc).
  by rewrite takeChars_length_app.
Qed.

Lemma matchCommentAt_nl (key x : string) : matchCommentAt key (nl +:+ x) = None.
Proof.
  unfold matchCommentAt, commentOpen, nl.
  by rewrite !IssueBodyManager.string_app_cons, prefix_cons.
Qed.


Lemma findComment_unfold (key s : string) :
  findComment key s =
  match matchCommentAt key s with
  | Some (_, group1) => Some group1
  | None => match s with
            | EmptyString => None
            | String _ s' => findComment key s'
            end
  end.
Proof. by destruct s. Qed.

Lemma findComment_nl (key x : string) :
  findComment key (nl +:+ x) = findComment key x.
Proof.
  rewrite findComment_unfold, matchCommentAt_nl.
  unfold nl. by rewrite IssueBodyManager.string_app_cons.
Qed.

Lemma findComment_None_iff (key s : string) :
  findComment key s = None <-> hasComment key s = false.
Proof.
  induction s as [|c s IH]; cbn [findComment hasComment];
    destruct (matchCommentAt key _) as [[len g]|]; try done.
Qed.

(** The test [!body] adds nothing for a string: the empty body holds no
    marker. *)
Lemma parseHTMLComment_Some (b key : string) :
  parseHTMLComment (Some b) key = findComment key b.
Proof.
  unfold parseHTMLComment. destruct (String.eqb_spec b "") as [->|]; [|done].
  unfold findComment, matchCommentAt, commentOpen.
  by rewrite IssueBodyManager.string_app_cons.
Qed.

(** Reading back a marker that was appended to a body without one. *)
Lemma findComment_appended (body key value : string) :
  plainKey key = true ->
  hasComment key body = false ->
  hasLineTerminator value = false ->
  includes value commentClose = false ->
  findComment key (body +:+ nl +:+ commentOpen key +:+ (value +:+ commentClose))
  = Some value.
Proof.
  intros Hkey Hno Hlt Hinc.
  rewrite (findComment_skip _ _ _ Hkey Hno), findComment_nl, findComment_unfold.
  rewrite <- (IssueBodyManager.string_app_nil_r commentClose).
  by rewrite (matchCommentAt_marker _ _ _ Hlt Hinc).
Qed.


(** **** Replacing a marker that is there *)

Lemma includes_char_nil (ch : ascii) : includes "" (String ch "") = false.
Proof. reflexivity. Qed.

Lemma includes_char_cons (ch d : ascii) (s : string) :
  includes (String d s) (String ch "")
  = Ascii.eqb ch d || includes s (String ch "").
Proof.
  unfold includes. cbn [indexOf]. rewrite prefix_cons, prefix_nil, andb_true_r.
  destruct (Ascii.eqb ch d); [done|]. by destruct (indexOf _ s).
Qed.

Lemma includes_char_app (ch : ascii) (a b : string) :
  includes (a +:+ b) (String ch "")
  = includes a (String ch "") || includes b (String ch "").
Proof.
  induction a as [|c a IH]; [by rewrite IssueBodyManager.string_app_nil_l|].
  by rewrite IssueBodyManager.string_app_cons, !includes_char_cons, IH, orb_assoc.
Qed.

(** A plain key holds only lower-case letters and hyphens. *)
Lemma plainKey_excludes (key : string) (ch : ascii) :
  plainKey key = true ->
  (let n := nat_of_ascii ch in ((97 <=? n) && (n <=? 122)) || (n =? 45)) = false ->
  includes key (String ch "") = false.
Proof.
  unfold plainKey. intros Hkey Hch. induction key as [|c key IH]; [reflexivity|].
  cbn [list_ascii_of_string forallb] in Hkey.
  apply andb_true_iff in Hkey as [Hc Hkey].
  rewrite includes_char_cons, (IH Hkey), orb_false_r.
  destruct (Ascii.eqb_spec ch c) as [->|]; [|done]. cbv zeta in Hch. congruence.
Qed.

Lemma commentOpen_cons (key : string) :
  commentOpen key = String "<" ("!-- " +:+ key +:+ ": ").
Proof. reflexivity. Qed.

Lemma commentOpen_length (key : string) : 7 <= String.length (commentOpen key).
Proof. unfold commentOpen. rewrite !IssueBodyManager.string_length_app. simpl. lia. Qed.

Lemma matchCommentAt_nil (key : string) : matchCommentAt key "" = None.
Proof. unfold matchCommentAt. by rewrite commentOpen_cons. Qed.

(** In the replacement string only [$] is special. *)
Lemma expandReplacement_plain (template matched before after group1 : string) :
  includes template "$" = false ->
  expandReplacement template matched before after group1 = template.
Proof.
  induction template as [|c t IH]; [reflexivity|].
  rewrite includes_char_cons. intros H. apply orb_false_iff in H as [Hc Ht].
  cbn [expandReplacement]. rewrite Ascii.eqb_sym, Hc. by rewrite (IH Ht).
Qed.

Lemma newComment_plain (key value : string) :
  plainKey key = true ->
  includes value "$" = false ->
  includes (commentOpen key +:+ (value +:+ commentClose)) "$" = false.
Proof.
  intros Hkey Hvalue. unfold commentOpen, commentClose.
  rewrite !includes_char_app, Hvalue, (plainKey_excludes key "$" Hkey); reflexivity.
Qed.

(** Two occurrences of a text whose first character occurs nowhere else in
    it do not overlap. *)
Lemma prefix_overlap (ch : ascii) (p q z : string) :
  includes p (String ch "") = false ->
  String.prefix p (q +:+ String ch z) = true ->
  String.length p <= String.length q.
Proof.
  revert q. induction p as [|a p IH]; intros q Hp H; [simpl; lia|].
  rewrite includes_char_cons in Hp. apply orb_false_iff in Hp as [Ha Hp].
  destruct q as [|b q].
  - rewrite IssueBodyManager.string_app_nil_l, prefix_cons in H.
    apply andb_true_iff in H as [H _]. rewrite Ascii.eqb_sym in H. congruence.
  - rewrite IssueBodyManager.string_app_cons, prefix_cons in H.
    apply andb_true_iff in H as [_ H]. specialize (IH q Hp H). simpl. lia.
Qed.

(** Every line terminator begins with one of three bytes. *)
Definition startsTerminator (c : ascii) : bool :=
  let n := nat_of_ascii c in (n =? 10) || (n =? 13) || (n =? 226).

Fixpoint noTerminatorStart (s : string) : bool :=
  match s with
  | EmptyString => true
  | String c s' => negb (startsTerminator c) && noTerminatorStart s'
  end.

Lemma lineTerminatorAt_head (c : ascii) (z : string) :
  startsTerminator c = false -> lineTerminatorAt (String c z) = false.
Proof.
  intros Hc. unfold lineTerminatorAt. rewrite !prefix_cons.
  destruct (Ascii.eqb_spec (ascii_of_nat 10) c) as [<-|]; [by vm_compute in Hc|].
  destruct (Ascii.eqb_spec (ascii_of_nat 13) c) as [<-|]; [by vm_compute in Hc|].
  destruct (Ascii.eqb_spec (ascii_of_nat 226) c) as [<-|]; [by vm_compute in Hc|].
  reflexivity.
Qed.

Lemma noTerminatorStart_app (a b : string) :
  noTerminatorStart (a +:+ b) = noTerminatorStart a && noTerminatorStart b.
Proof.
  induction a as [|c a IH]; [by rewrite IssueBodyManager.string_app_nil_l|].
  rewrite IssueBodyManager.string_app_cons. cbn [noTerminatorStart].
  by rewrite IH, andb_assoc.
Qed.

Lemma plainKey_noTerminatorStart (key : string) :
  plainKey key = true -> noTerminatorStart key = true.
Proof.
  unfold plainKey. induction key as [|c key IH]; [reflexivity|].
  cbn [list_ascii_of_string forallb noTerminatorStart]. intros H.
  apply andb_true_iff in H as [Hc Hkey]. rewrite (IH Hkey), andb_true_r.
  unfold startsTerminator. cbv zeta in *.
  destruct (Nat.eqb_spec (nat_of_ascii c) 10) as [E|_]; [by rewrite E in Hc|].
  destruct (Nat.eqb_spec (nat_of_ascii c) 13) as [E|_]; [by rewrite E in Hc|].
  destruct (Nat.eqb_spec (nat_of_ascii c) 226) as [E|_]; [by rewrite E in Hc|].
  reflexivity.
Qed.

Lemma commentOpen_noTerminatorStart (key : string) :
  plainKey key = true -> noTerminatorStart (commentOpen key) = true.
Proof.
  intros H. unfold commentOpen.
  rewrite !noTerminatorStart_app, (plainKey_noTerminatorStart key H). reflexivity.
Qed.

Lemma lazyUntilClose_cons (c : ascii) (s : string) :
  lazyUntilClose (String c s) =
  if String.prefix commentClose (String c s) then Some 0
  else if lineTerminatorAt (String c s) then None
  else option_map S (lazyUntilClose s).
Proof. reflexivity. Qed.

(** A search that succeeds from [x] succeeds from any text placed before
    [x] in which no line terminator begins. *)
Lemma lazyUntilClose_through (p x : string) :
  noTerminatorStart p = true ->
  lazyUntilClose x <> None -> lazyUntilClose (p +:+ x) <> None.
Proof.
  induction p as [|c p IH]; intros Hp Hx; [by rewrite IssueBodyManager.string_app_nil_l|].
  cbn [noTerminatorStart] in Hp. apply andb_true_iff in Hp as [Hc Hp].
  apply negb_true_iff in Hc.
  rewrite IssueBodyManager.string_app_cons, lazyUntilClose_cons.
  destruct (String.prefix commentClose _); [done|].
  rewrite (lineTerminatorAt_head _ _ Hc).
  specialize (IH Hp Hx). by destruct (lazyUntilClose (p +:+ x)).
Qed.

Lemma lineTerminatorAt_app_long (s y : string) :
  3 <= String.length s -> lineTerminatorAt (s +:+ y) = lineTerminatorAt s.
Proof.
  intros Hlen. unfold lineTerminatorAt.
  by rewrite !prefix_app_long by (simpl; lia).
Qed.

(** Whether the search from a point before a marker fails does not depend
    on what follows the opening text of the marker, as long as a closing
    text can be reached from there. *)
Lemma lazyUntilClose_insensitive (p q x y : string) :
  4 <= String.length p ->
  noTerminatorStart p = true ->
  lazyUntilClose x <> None ->
  lazyUntilClose (q +:+ p +:+ x) = None ->
  lazyUntilClose (q +:+ p +:+ y) = None.
Proof.
  intros Hlen Hp Hx. induction q as [|c q IH]; intros H.
  - rewrite IssueBodyManager.string_app_nil_l in H.
    by destruct (lazyUntilClose_through p x Hp Hx).
  - assert (E : forall z, String c q +:+ p +:+ z = (String c q +:+ p) +:+ z)
      by (intros z; by rewrite IssueBodyManager.string_app_assoc).
    assert (Hlong : 4 <= String.length (String c q +:+ p))
      by (rewrite IssueBodyManager.string_length_app; lia).
    assert (Hpre : String.prefix commentClose (String c q +:+ p +:+ y)
                   = String.prefix commentClose (String c q +:+ p +:+ x))
      by (rewrite !E, (prefix_app_long _ (String c q +:+ p) y),
                      (prefix_app_long _ (String c q +:+ p) x);
          [done|change (String.length commentClose) with 4; lia..]).
    assert (Hterm : lineTerminatorAt (String c q +:+ p +:+ y)
                    = lineTerminatorAt (String c q +:+ p +:+ x))
      by (rewrite !E, (lineTerminatorAt_app_long (String c q +:+ p) y),
                      (lineTerminatorAt_app_long (String c q +:+ p) x);
          [done|lia..]).
    rewrite IssueBodyManager.string_app_cons in *.
    rewrite lazyUntilClose_cons in H. rewrite lazyUntilClose_cons, Hpre, Hterm.
    destruct (String.prefix commentClose _); [done|].
    destruct (lineTerminatorAt _); [done|].
    destruct (lazyUntilClose (q +:+ p +:+ x)); [discriminate|].
    by rewrite IH.
Qed.

(** No match begins before a marker in the new body if none began there in
    the old one. *)
Lemma matchCommentAt_insensitive (key q x y : string) :
  plainKey key = true ->
  lazyUntilClose x <> None ->
  matchCommentAt key (q +:+ commentOpen key +:+ x) = None ->
  matchCommentAt key (q +:+ commentOpen key +:+ y) = None.
Proof.
  intros Hkey Hx. unfold matchCommentAt.
  assert (Hpre : String.prefix (commentOpen key) (q +:+ commentOpen key +:+ y)
                 = String.prefix (commentOpen key) (q +:+ commentOpen key +:+ x)).
  { rewrite <- !IssueBodyManager.string_app_assoc.
    rewrite (prefix_app_long _ (q +:+ commentOpen key) y),
            (prefix_app_long _ (q +:+ commentOpen key) x);
      [done|rewrite IssueBodyManager.string_length_app; lia..]. }
  rewrite Hpre.
  destruct (String.prefix (commentOpen key) (q +:+ commentOpen key +:+ x)) eqn:Hopen;
    [|done].
  destruct q as [|b q].
  - rewrite !IssueBodyManager.string_app_nil_l, !dropChars_length_app.
    by destruct (lazyUntilClose x).
  - assert (Hlen : String.length (commentOpen key) <= String.length (String b q)).
    { rewrite commentOpen_cons in Hopen |- *.
      remember ("!-- " +:+ key +:+ ": ") as o eqn:Ho.
      rewrite !IssueBodyManager.string_app_cons, prefix_cons in Hopen.
      apply andb_true_iff in Hopen as [_ Hopen].
      apply prefix_overlap in Hopen; [simpl; lia|].
      subst o. rewrite !includes_char_app, (plainKey_excludes key "<" Hkey); reflexivity. }
    rewrite !dropChars_app by exact Hlen.
    destruct (lazyUntilClose (_ +:+ commentOpen key +:+ x)) eqn:E; [discriminate|].
    intros _.
    rewrite (lazyUntilClose_insensitive _ _ x y); [done| |by apply commentOpen_noTerminatorStart|done|done].
    pose proof (commentOpen_length key). lia.
Qed.

Section Replace.
Variables (key value : string).
Hypothesis plain : plainKey key = true.
Hypothesis oneLine : hasLineTerminator value = false.
Hypothesis noClose : includes value commentClose = false.
Hypothesis noDollar : includes value "$" = false.

Let newComment : string := "<!-- " +:+ key +:+ ": " +:+ value +:+ " -->".

Lemma replaceComments_head (fuel len : nat) (g before s : string) :
  matchCommentAt key s = Some (len, g) ->
  replaceComments (S fuel) key newComment before s
  = commentOpen key +:+ (value +:+ commentClose
      +:+ replaceComments fuel key newComment (before +:+ takeChars len s)
            (dropChars len s)).
Proof.
  intros Hm. cbn [replaceComments]. rewrite Hm. unfold newComment.
  rewrite newComment_eq, expandReplacement_plain by (by apply newComment_plain).
  by rewrite !IssueBodyManager.string_app_assoc.
Qed.

Lemma replaceComments_tail (fuel : nat) (c : ascii) (before s : string) :
  matchCommentAt key (String c s) = None ->
  replaceComments (S fuel) key newComment before (String c s)
  = String c (replaceComments fuel key newComment (before +:+ String c "") s).
Proof. intros Hm. cbn [replaceComments]. by rewrite Hm. Qed.

Lemma matchCommentAt_split (len : nat) (g s : string) :
  matchCommentAt key s = Some (len, g) ->
  exists x, s = commentOpen key +:+ x /\ lazyUntilClose x <> None.
Proof.
  unfold matchCommentAt.
  destruct (String.prefix (commentOpen key) s) eqn:Hpre; [|done].
  destruct (lazyUntilClose _) as [j|] eqn:Hlazy; [|done]. intros _.
  eexists. split; [by apply prefix_split|]. by rewrite Hlazy.
Qed.

Lemma matchCommentAt_replaced (s : string) :
  forall (fuel : nat) (before q : string),
    String.length s < fuel ->
    hasComment key s = true ->
    matchCommentAt key (q +:+ s) = None ->
    matchCommentAt key (q +:+ replaceComments fuel key newComment before s) = None.
Proof.
  induction s as [|c s IH]; intros fuel before q Hfuel Hhas Hq.
  - cbn [hasComment] in Hhas. by rewrite matchCommentAt_nil in Hhas.
  - destruct fuel as [|fuel]; [lia|].
    cbn [hasComment] in Hhas.
    destruct (matchCommentAt key (String c s)) as [[len g]|] eqn:Hm.
    + rewrite (replaceComments_head _ _ _ _ _ Hm).
      destruct (matchCommentAt_split _ _ _ Hm) as (x & Hs & Hx).
      rewrite Hs in Hq.
      by apply (matchCommentAt_insensitive key q x _ plain Hx).
    + rewrite (replaceComments_tail _ _ _ _ Hm).
      replace (q +:+ String c (replaceComments fuel key newComment
                                 (before +:+ String c "") s))
        with ((q +:+ String c "") +:+ replaceComments fuel key newComment
                                        (before +:+ String c "") s)
        by (by rewrite IssueBodyManager.string_app_assoc).
      apply IH; [simpl in Hfuel; lia|done|].
      by rewrite IssueBodyManager.string_app_assoc.
Qed.

Lemma findComment_replaced (s : string) :
  forall (fuel : nat) (before : string),
    String.length s < fuel ->
    hasComment key s = true ->
    findComment key (replaceComments fuel key newComment before s) = Some value.
Proof.
  induction s as [|c s IH]; intros fuel before Hfuel Hhas.
  - cbn [hasComment] in Hhas. by rewrite matchCommentAt_nil in Hhas.
  - destruct fuel as [|fuel]; [lia|].
    cbn [hasComment] in Hhas.
    destruct (matchCommentAt key (String c s)) as [[len g]|] eqn:Hm.
    + rewrite (replaceComments_head _ _ _ _ _ Hm), findComment_unfold.
      by rewrite (matchCommentAt_marker _ _ _ oneLine noClose).
    + rewrite (replaceComments_tail _ _ _ _ Hm), findComment_unfold.
      assert (Hnone : matchCommentAt key
                        (String c (replaceComments fuel key newComment
                                     (before +:+ String c "") s)) = None).
      { apply (matchCommentAt_replaced s fuel _ (String c ""));
          [simpl in Hfuel; lia|done|exact Hm]. }
      rewrite Hnone. apply IH; [simpl in Hfuel; lia|done].
Qed.
End Replace.


(** Writing a marker and reading it back.  A value on one line that does
    not hold the closing [ -->] is returned by [parseHTMLComment] after
    [_updateHTMLComment] has written it under a key of lower-case letters and
    hyphens, whether the body had such a marker or not; where a marker is
    replaced the value must not hold a [$], which [String.prototype.replace]
    would expand. *)
Theorem updateHTMLComment_then_parseHTMLComment (body key value : string) :
  plainKey key = true ->
  hasLineTerminator value = false ->
  includes value commentClose = false ->
  (hasComment key body = true -> includes value "$" = false) ->
  parseHTMLComment (Some (updateHTMLComment body key value)) key = Some value.
Proof.
  intros Hkey Hline Hclose Hdollar.
  rewrite parseHTMLComment_Some. unfold updateHTMLComment.
  destruct (hasComment key body) eqn:Hhas.
  - apply findComment_replaced; auto.
  - rewrite newComment_eq. by apply findComment_appended.
Qed.

Lemma updateHTMLComment_then_parseHTMLComment_witness :
  parseHTMLComment
    (Some (updateHTMLComment "Task <!-- tools-used: 3 --> done" "tools-used" "4"))
    "tools-used"
  = Some "4".
Proof.
  apply updateHTMLComment_then_parseHTMLComment.
  - reflexivity.
  - reflexivity.
  - reflexivity.
  - intros _. reflexivity.
Defined.

Lemma findComment_no_open (key s : string) :
  includes s "<" = false -> findComment key s = None.
Proof.
  induction s as [|c s IH]; intros H.
  - by rewrite findComment_unfold, matchCommentAt_nil.
  - rewrite includes_char_cons in H. apply orb_false_iff in H as [Hc Hs].
    rewrite findComment_unfold. unfold matchCommentAt.
    rewrite commentOpen_cons, prefix_cons, Hc. cbn [andb]. by apply IH.
Qed.

Lemma hasComment_multiline (body key value : string) :
  plainKey key = true ->
  hasComment key body = false ->
  hasLineTerminator value = true ->
  includes value commentClose = false ->
  includes value "<" = false ->
  hasComment key (body +:+ nl +:+ commentOpen key +:+ (value +:+ commentClose))
  = false.
Proof.
  intros Hkey Hno Hline Hclose Hopen. apply findComment_None_iff.
  rewrite (findComment_skip _ _ _ Hkey Hno), findComment_nl, findComment_unfold.
  assert (Hm : matchCommentAt key (commentOpen key +:+ (value +:+ commentClose)) = None).
  { unfold matchCommentAt. rewrite prefix_app_self, dropChars_length_app.
    rewrite <- (IssueBodyManager.string_app_nil_r commentClose).
    by rewrite (lazyUntilClose_multiline _ _ Hline Hclose). }
  rewrite Hm, commentOpen_cons, IssueBodyManager.string_app_cons.
  apply findComment_no_open.
  rewrite !includes_char_app, Hopen, (plainKey_excludes key "<" Hkey); reflexivity.
Qed.

(** A value of several lines is written but never found again.  Appended
    to a body without a marker for the key, a value that holds a line
    terminator (and neither [ -->] nor [<]) gives a marker that the pattern
    does not match: [parseHTMLComment] returns null for the key, and the
    next [_updateHTMLComment] appends a second marker instead of replacing
    the first. *)
Theorem multi_line_value_is_not_read_back (body key value : string) :
  plainKey key = true ->
  hasComment key body = false ->
  hasLineTerminator value = true ->
  includes value commentClose = false ->
  includes value "<" = false ->
  parseHTMLComment (Some (updateHTMLComment body key value)) key = None
  /\ forall next : string,
       updateHTMLComment (updateHTMLComment body key value) key next
       = (body +:+ nl +:+ "<!-- " +:+ key +:+ ": " +:+ value +:+ " -->")
           +:+ nl +:+ "<!-- " +:+ key +:+ ": " +:+ next +:+ " -->".
Proof.
  intros Hkey Hno Hline Hclose Hopen.
  pose proof (hasComment_multiline _ _ _ Hkey Hno Hline Hclose Hopen) as Hstill.
  assert (E : updateHTMLComment body key value
              = body +:+ nl +:+ commentOpen key +:+ (value +:+ commentClose))
    by (unfold updateHTMLComment; by rewrite Hno, newComment_eq).
  rewrite E. split.
  - rewrite parseHTMLComment_Some. by apply findComment_None_iff.
  - intros next. unfold updateHTMLComment. by rewrite Hstill, !newComment_eq.
Qed.

Lemma multi_line_value_is_not_read_back_witness :
  let value := "step 1" +:+ nl +:+ "step 2" in
  parseHTMLComment (Some (updateHTMLComment "Task" "agent-message" value))
                   "agent-message" = None
  /\ updateHTMLComment (updateHTMLComment "Task" "agent-message" value)
                       "agent-message" "done"
     = "Task" +:+ nl +:+ "<!-- agent-message: step 1" +:+ nl +:+ "step 2 -->"
         +:+ nl +:+ "<!-- agent-message: done -->".
Proof.
  intros value.
  destruct (multi_line_value_is_not_read_back "Task" "agent-message" value)
    as [Hread Hnext]; try reflexivity.
  split; [exact Hread|]. rewrite Hnext. reflexivity.
Defined.

End StatusUpdater.

(** ** Test results (TestResultAggregator) *)

Module TestResultAggregator.

(** A ticket as the tracker returns it; [labels] are the names of its
    labels. *)
Record issue := mkIssue { number : nat; title : string; labels : list string }.

(** One entry of [summary.details]. *)
Record detail := mkDetail {
  detailIssueNumber : nat;
  detailTitle : string;
  detailPassed : bool;
  detailFixAttempts : nat;
  detailMaxAttemptsReached : bool
}.

(** [passRate] is the number [0] for an empty run and the text of
    [toFixed(1)] otherwise. *)
Inductive rate :=
| RateZero
| RateText (text : string).

Record summary := mkSummary {
  passed : nat;
  failed : nat;
  total : nat;
  passRate : rate;
  details : list detail
}.

Record status := mkStatus {
  statusPassed : bool;
  statusFixAttempts : nat;
  statusMaxAttemptsReached : bool
}.

Section Aggregator.
(** The two reads of the tracker, and the formatting of the pass rate
    [(passed / total * 100).toFixed(1)]. *)
Variable getIssue : nat -> outcome issue.
Variable getIssuesByLabel : string -> outcome (list issue).
Variable toFixed1 : nat -> nat -> string.

Definition hasLabel (name : string) (i : issue) : bool :=
  existsb (String.eqb name) (labels i).

Definition countFixAttempts (testIssueNumber : nat) : nat :=
  match getIssuesByLabel ("oc-ralph:test-" +:+ natToString testIssueNumber) with
  | Ok allIssues => length (List.filter (hasLabel "oc-ralph:fix-attempt") allIssues)
  | Throw _ => 0
  end.

Definition determineTestStatus (testIssue : issue) : status :=
  let hasFailed :=
    existsb (fun l => String.eqb l "oc-ralph:test-failed"
                      || String.eqb l "oc-ralph:failed"
                      || String.eqb l "oc-ralph:max-attempts-reached")
            (labels testIssue) in
  let maxAttemptsReached := hasLabel "oc-ralph:max-attempts-reached" testIssue in
  let fixAttempts := countFixAttempts (number testIssue) in
  mkStatus (negb hasFailed) fixAttempts maxAttemptsReached.

(** The [for ... of] loop of [aggregateResults]. *)
Fixpoint aggregateLoop (testIssues : list issue) (passed failed : nat)
    (details : list detail) : outcome (nat * nat * list detail) :=
  match testIssues with
  | [] => Ok (passed, failed, details)
  | testIssue :: rest =>
      match getIssue (number testIssue) with
      | Throw e => Throw e
      | Ok freshIssue =>
          let status := determineTestStatus freshIssue in
          aggregateLoop rest
            (if statusPassed status then S passed else passed)
            (if statusPassed status then failed else S failed)
            (details ++ [mkDetail (number freshIssue) (title freshIssue)
                                  (statusPassed status) (statusFixAttempts status)
                                  (statusMaxAttemptsReached status)])
      end
  end.

Definition aggregateResults (testIssues : list issue) : outcome summary :=
  match aggregateLoop testIssues 0 0 [] with
  | Throw e => Throw e
  | Ok (passed, failed, details) =>
      Ok (mkSummary passed failed (length testIssues)
            (if 0 <? length testIssues then RateText (toFixed1 passed (length testIssues))
             else RateZero)
            details)
  end.

(** The entry written for a ticket: taken from the ticket as fetched, not
    from the ticket as listed. *)
Definition reports (testIssue : issue) (d : detail) : Prop :=
  exists freshIssue,
    getIssue (number testIssue) = Ok freshIssue
    /\ detailIssueNumber d = number freshIssue
    /\ detailTitle d = title freshIssue
    /\ detailPassed d
       = negb (hasLabel "oc-ralph:test-failed" freshIssue
               || hasLabel "oc-ralph:failed" freshIssue
               || hasLabel "oc-ralph:max-attempts-reached" freshIssue)
    /\ detailMaxAttemptsReached d = hasLabel "oc-ralph:max-attempts-reached" freshIssue.

Definition countPassed (ds : list detail) : nat := length (List.filter detailPassed ds).

Lemma existsb_failure_labels (i : issue) :
  existsb (fun l => String.eqb l "oc-ralph:test-failed"
                    || String.eqb l "oc-ralph:failed"
                    || String.eqb l "oc-ralph:max-attempts-reached")
          (labels i)
  = hasLabel "oc-ralph:test-failed" i || hasLabel "oc-ralph:failed" i
    || hasLabel "oc-ralph:max-attempts-reached" i.
Proof.
  unfold hasLabel. induction (labels i) as [|l ls IH]; [reflexivity|].
  cbn [existsb]. rewrite IH.
  rewrite (String.eqb_sym l "oc-ralph:test-failed"),
          (String.eqb_sym l "oc-ralph:failed"),
          (String.eqb_sym l "oc-ralph:max-attempts-reached").
  destruct (String.eqb "oc-ralph:test-failed" l),
           (String.eqb "oc-ralph:failed" l),
           (String.eqb "oc-ralph:max-attempts-reached" l),
           (existsb (String.eqb "oc-ralph:test-failed") ls),
           (existsb (String.eqb "oc-ralph:failed") ls),
           (existsb (String.eqb "oc-ralph:max-attempts-reached") ls); reflexivity.
Qed.

Lemma countPassed_snoc (ds : list detail) (d : detail) :
  countPassed (ds ++ [d]) = countPassed ds + (if detailPassed d then 1 else 0).
Proof.
  unfold countPassed. rewrite List.filter_app, length_app. cbn [List.filter].
  by destruct (detailPassed d).
Qed.

Lemma aggregateLoop_Ok (testIssues : list issue) :
  forall (p f : nat) (ds : list detail) (p' f' : nat) (ds' : list detail),
    aggregateLoop testIssues p f ds = Ok (p', f', ds') ->
    exists new,
      ds' = ds ++ new
      /\ Forall2 reports testIssues new
      /\ p' = p + countPassed new
      /\ p' + f' = p + f + length testIssues.
Proof.
  induction testIssues as [|t rest IH]; intros p f ds p' f' ds' H.
  - injection H as <- <- <-. exists []. rewrite app_nil_r.
    split; [done|]. split; [constructor|]. unfold countPassed. simpl. lia.
  - cbn [aggregateLoop] in H.
    destruct (getIssue (number t)) as [fresh|e] eqn:Hget; [|done].
    apply IH in H as (new & -> & Hall & -> & Hsum).
    set (d := mkDetail _ _ _ _ _) in *.
    exists (d :: new). rewrite <- app_assoc. split; [done|]. split; [|split].
    + constructor; [|done]. exists fresh. unfold d. cbn.
      by rewrite existsb_failure_labels.
    + unfold countPassed at 2. cbn [List.filter detailPassed d].
      destruct (statusPassed (determineTestStatus fresh)); cbn [length];
        unfold countPassed; lia.
    + cbn [length]. destruct (statusPassed (determineTestStatus fresh)); lia.
Qed.

Lemma aggregateLoop_Throw (testIssues : list issue) :
  forall (p f : nat) (ds : list detail) (e : error),
    aggregateLoop testIssues p f ds = Throw e ->
    exists before t after,
      testIssues = before ++ t :: after
      /\ Forall (fun t' => exists fresh, getIssue (number t') = Ok fresh) before
      /\ getIssue (number t) = Throw e.
Proof.
  induction testIssues as [|t rest IH]; intros p f ds e H; [done|].
  cbn [aggregateLoop] in H.
  destruct (getIssue (number t)) as [fresh|e'] eqn:Hget.
  - apply IH in H as (before & t' & after & -> & Hbefore & Hthrow).
    exists (t :: before), t', after. split; [done|]. split; [|done].
    constructor; [by exists fresh|done].
  - injection H as <-. exists [], t, rest. by repeat split.
Qed.

End Aggregator.

(** What [aggregateResults] returns.  If every ticket of the list can be
    fetched the summary has one entry per ticket, in order, built from the
    ticket as fetched; [passed] counts the entries that passed, [passed] and
    [failed] add up to [total], the length of the list, and a ticket marked
    as having reached the maximum of attempts is never reported as passed.
    Counting the fix attempts cannot make the aggregation fail.  Otherwise
    it throws what [getIssue] threw for the first ticket it could not
    fetch. *)
Theorem aggregateResults_counts
    (getIssue : nat -> outcome issue)
    (getIssuesByLabel : string -> outcome (list issue))
    (toFixed1 : nat -> nat -> string) (testIssues : list issue) :
  match aggregateResults getIssue getIssuesByLabel toFixed1 testIssues with
  | Ok s =>
      Forall2 (reports getIssue) testIssues (details s)
      /\ total s = length testIssues
      /\ passed s = countPassed (details s)
      /\ passed s + failed s = total s
      /\ Forall (fun d => detailMaxAttemptsReached d = true -> detailPassed d = false)
                (details s)
  | Throw e =>
      exists before t after,
        testIssues = before ++ t :: after
        /\ Forall (fun t' => exists fresh, getIssue (number t') = Ok fresh) before
        /\ getIssue (number t) = Throw e
  end.
Proof.
  unfold aggregateResults.
  destruct (aggregateLoop getIssue getIssuesByLabel testIssues 0 0 [])
    as [[[p f] ds]|e] eqn:Hloop.
  - apply aggregateLoop_Ok in Hloop as (new & -> & Hall & -> & Hsum).
    cbn [details total passed failed app].
    split; [done|]. split; [done|]. split; [lia|]. split; [lia|].
    clear Hsum. induction Hall as [|t d ts ds (fresh & _ & _ & _ & Hp & Hm) _ IH];
      constructor; [|done].
    rewrite Hp, Hm. intros ->. by rewrite !orb_true_r.
  - by apply aggregateLoop_Throw in Hloop.
Qed.

End TestResultAggregator.

(** ** Worktree registry (WorktreeManager) *)

Module WorktreeManager.

(** One entry of [.oc-ralph/worktrees.json]. *)
Record entry := mkEntry {
  worktreePath : string;
  branchName : string;
  createdAt : string
}.

(** The state file: absent, present but not readable as JSON, or holding
    the object the manager wrote, keyed by ticket number.  The file is taken
    to lie outside every worktree, and writing it to succeed. *)
Inductive stateFile :=
| Missing
| Unreadable
| Stored (state : gmap nat entry).

Record created := mkCreated { createdBranch : string; createdPath : string }.

Section Manager.
(** The rest of the machine (directories, the git repository, the clock)
    and the operations of [fs] and [gitOps] on it. *)
Variable E : Type.
Variable existsSync : string -> E -> bool.
Variables mkdirSync rmSync : string -> E -> E.
Variable createBranch : string -> string -> E -> outcome unit * E.
Variable addWorktree : string -> string -> E -> outcome unit * E.
Variable removeWorktree : string -> E -> outcome unit * E.
Variable toISOString : E -> string.
Variable pathJoin : string -> string -> string.
Variables basePath repo : string.

Record world := mkWorld { file : stateFile; machine : E }.

Definition loadWorktreeState (w : world) : gmap nat entry :=
  match file w with
  | Stored state => state
  | Missing | Unreadable => ∅
  end.

Definition saveWorktreeState (state : gmap nat entry) (w : world) : world :=
  mkWorld (Stored state) (machine w).

Definition storeWorktreePath (issueNumber : nat) (path branch : string)
    (w : world) : world :=
  let state := loadWorktreeState w in
  saveWorktreeState
    (<[issueNumber := mkEntry path branch (toISOString (machine w))]> state) w.

Definition notFound (issueNumber : nat) : error :=
  Error ("Worktree path not found for issue " +:+ natToString issueNumber).

Definition getWorktreePath (issueNumber : nat) (w : world) : outcome string :=
  match loadWorktreeState w !! issueNumber with
  | None => Throw (notFound issueNumber)
  | Some e => Ok (worktreePath e)
  end.

Definition removeWorktreePath (issueNumber : nat) (w : world) : world :=
  saveWorktreeState (delete issueNumber (loadWorktreeState w)) w.

Definition ensureBasePath (w : world) : world :=
  if existsSync basePath (machine w) then w
  else mkWorld (file w) (mkdirSync basePath (machine w)).

Definition getBranchName (issueNumber : nat) : string :=
  "oc-ralph/issue-" +:+ natToString issueNumber.

Definition createWorktree (issueNumber : nat) (baseBranch : string) (w : world)
  : outcome created * world :=
  let w := ensureBasePath w in
  let branch := "oc-ralph/issue-" +:+ natToString issueNumber in
  let path := pathJoin basePath (repo +:+ "-" +:+ natToString issueNumber) in
  match createBranch branch baseBranch (machine w) with
  | (Throw e, m) => (Throw e, mkWorld (file w) m)
  | (Ok _, m) =>
      match addWorktree path branch m with
      | (Throw e, m) => (Throw e, mkWorld (file w) m)
      | (Ok _, m) =>
          (Ok (mkCreated branch path),
           storeWorktreePath issueNumber path branch (mkWorld (file w) m))
      end
  end.

(** [cleanupWorktree]: whatever is thrown inside is logged and dropped. *)
Definition cleanupWorktree (issueNumber : nat) (w : world) : outcome unit * world :=
  match getWorktreePath issueNumber w with
  | Throw _ => (Ok tt, w)
  | Ok path =>
      match removeWorktree path (machine w) with
      | (Throw _, m) => (Ok tt, mkWorld (file w) m)
      | (Ok _, m) =>
          let w := removeWorktreePath issueNumber (mkWorld (file w) m) in
          (Ok tt,
           if existsSync path (machine w)
           then mkWorld (file w) (rmSync path (machine w)) else w)
      end
  end.

Definition worktreeExists (issueNumber : nat) (w : world) : outcome bool :=
  match getWorktreePath issueNumber w with
  | Throw _ => Ok false
  | Ok path => Ok (existsSync path (machine w))
  end.

Lemma ensureBasePath_file (w : world) : file (ensureBasePath w) = file w.
Proof. unfold ensureBasePath. by destruct (existsSync _ _). Qed.

Lemma getWorktreePath_file (n : nat) (w w' : world) :
  file w = file w' -> getWorktreePath n w = getWorktreePath n w'.
Proof. unfold getWorktreePath, loadWorktreeState. by intros ->. Qed.

(** Creating a worktree registers it.  When [createWorktree] returns, the
    path it returns is the one [getWorktreePath] gives for the ticket from
    then on, and the tickets already registered keep their paths, unless the
    state file could not be read: then it is replaced, and only the new
    ticket is registered.  When [createWorktree] throws, the state file is
    as before. *)
Theorem createWorktree_registers_the_path
    (n : nat) (baseBranch : string) (w : world) :
  match createWorktree n baseBranch w with
  | (Ok r, w') =>
      createdPath r = pathJoin basePath (repo +:+ "-" +:+ natToString n)
      /\ getWorktreePath n w' = Ok (createdPath r)
      /\ (forall m, m <> n -> getWorktreePath m w' = getWorktreePath m w)
      /\ (file w = Unreadable ->
          forall m, m <> n -> getWorktreePath m w' = Throw (notFound m))
  | (Throw e, w') => file w' = file w
  end.
Proof.
  unfold createWorktree.
  pose proof (ensureBasePath_file w) as Hfile.
  set (w0 := ensureBasePath w) in *.
  destruct (createBranch _ baseBranch (machine w0)) as [[[]|e] m1]; [|exact Hfile].
  destruct (addWorktree _ _ m1) as [[[]|e] m2]; [|exact Hfile].
  cbn [createdPath]. split; [reflexivity|].
  unfold getWorktreePath, storeWorktreePath, saveWorktreeState, loadWorktreeState. cbn [file machine]. rewrite Hfile.
  split; [by rewrite lookup_insert_eq|]. split.
  - intros m Hm. by rewrite lookup_insert_ne.
  - intros -> m Hm. by rewrite lookup_insert_ne, lookup_empty.
Qed.

(** Cleaning up.  [cleanupWorktree] never throws.  For a registered ticket
    whose worktree git removes, the ticket is no longer registered
    afterwards ([getWorktreePath] throws, [worktreeExists] answers false);
    when git refuses, the registration stays.  The other tickets keep their
    paths in both cases. *)
Theorem cleanupWorktree_unregisters_on_success (n : nat) (w : world) (path : string) :
  getWorktreePath n w = Ok path ->
  exists w',
    cleanupWorktree n w = (Ok tt, w')
    /\ (forall m, m <> n -> getWorktreePath m w' = getWorktreePath m w)
    /\ match fst (removeWorktree path (machine w)) with
       | Ok _ => getWorktreePath n w' = Throw (notFound n)
                 /\ worktreeExists n w' = Ok false
       | Throw _ => getWorktreePath n w' = Ok path
       end.
Proof.
  intros Hget. unfold cleanupWorktree. rewrite Hget.
  destruct (removeWorktree path (machine w)) as [[[]|e] m1]; cbn [fst].
  - eexists. split; [reflexivity|].
    assert (Hfile : forall w1 : world,
              file w1 = Stored (delete n (loadWorktreeState w)) ->
              (forall m, m <> n -> getWorktreePath m w1 = getWorktreePath m w)
              /\ getWorktreePath n w1 = Throw (notFound n)
              /\ worktreeExists n w1 = Ok false).
    { intros w1 Hw1.
      assert (Hload : loadWorktreeState w1 = delete n (loadWorktreeState w))
        by (unfold loadWorktreeState at 1; by rewrite Hw1).
      unfold worktreeExists, getWorktreePath.
      rewrite Hload, lookup_delete_eq. split; [|done].
      intros m Hm. by rewrite lookup_delete_ne. }
    destruct (existsSync path _); apply Hfile; reflexivity.
  - eexists. split; [reflexivity|]. split; [done|]. exact Hget.
Qed.

End Manager.

Arguments file {E} w.
Arguments machine {E} w.

Lemma cleanupWorktree_unregisters_on_success_witness :
  let w := mkWorld unit (Stored {[ 7 := mkEntry "/tmp/wt/app-7" "oc-ralph/issue-7" "t" ]}) tt in
  exists w',
    cleanupWorktree unit (fun _ _ => true) (fun _ m => m) (fun _ m => (Ok tt, m)) 7 w
    = (Ok tt, w')
    /\ getWorktreePath unit 7 w' = Throw (notFound 7).
Proof.
  intros w.
  destruct (cleanupWorktree_unregisters_on_success unit
              (fun _ _ => true) (fun _ m => m) (fun _ m => (Ok tt, m)) 7 w
              "/tmp/wt/app-7" eq_refl) as (w' & Hrun & _ & Hgone).
  exists w'. split; [exact Hrun|]. exact (proj1 Hgone).
Defined.

End WorktreeManager.

(** ** Running the implementation tasks (ImplementationStage) *)

Module ImplementationStage.

Import DependencyResolver.

Record results := mkResults { completed : nat; failed : nat; total : nat }.

Section Stage.

Variable localeCompare : string -> string -> Z.

(** [fulfilled t]: the promise of [executeTask(t.issueNumber, ...)] is
    fulfilled.  The tasks of a batch are started together and awaited with
    [Promise.allSettled]. *)
Variable fulfilled : task -> bool.

(** [executeBatch]: the numbers of fulfilled and of rejected tasks. *)
Definition executeBatch (batch : list task) : nat * nat :=
  fold_left (fun r t => if fulfilled t then (S (fst r), snd r) else (fst r, S (snd r)))
            batch (0, 0).

(** The loop over the batches, with the tasks started so far. *)
Fixpoint batchesLoop (batches : list (list task)) (completed failed : nat)
    (started : list task) : nat * nat * list task :=
  match batches with
  | [] => (completed, failed, started)
  | batch :: rest =>
      let batchResults := executeBatch batch in
      let completed := completed + fst batchResults in
      let failed := failed + snd batchResults in
      if 0 <? snd batchResults then (completed, failed, started ++ batch)
      else batchesLoop rest completed failed (started ++ batch)
  end.

(** [execute]: the results, or what the resolver threw, and the tasks
    started, in order. *)
Definition execute (tasks : list task) : option (outcome results * list task) :=
  match resolve localeCompare tasks with
  | None => None
  | Some (Throw e) => Some (Throw e, [])
  | Some (Ok batches) =>
      let '(completed, failed, started) := batchesLoop batches 0 0 [] in
      Some (Ok (mkResults completed failed (length tasks)), started)
  end.

Definition rejected (t : task) : bool := negb (fulfilled t).

Lemma executeBatch_counts (batch : list task) :
  executeBatch batch
  = (length (List.filter fulfilled batch), length (List.filter rejected batch)).
Proof.
  unfold executeBatch.
  assert (H : forall c f,
             fold_left (fun r t => if fulfilled t then (S (fst r), snd r)
                                   else (fst r, S (snd r))) batch (c, f)
             = (c + length (List.filter fulfilled batch),
                f + length (List.filter rejected batch))).
  { induction batch as [|t batch IH]; intros c f; cbn [fold_left List.filter length].
    - f_equal; lia.
    - unfold rejected at 1. destruct (fulfilled t); cbn [fst snd negb length];
        rewrite IH; f_equal; lia. }
  apply H.
Qed.

Lemma filter_rejected_nil (batch : list task) :
  length (List.filter rejected batch) = 0 -> Forall (fun t => fulfilled t = true) batch.
Proof.
  induction batch as [|t batch IH]; [constructor|].
  cbn [List.filter]. unfold rejected at 1.
  destruct (fulfilled t) eqn:E; cbn [negb length]; [|lia].
  intros H. constructor; [done|by apply IH].
Qed.

(** The batches run: a prefix of the batches, all of them but possibly the
    last without a rejected task, and all the batches when there is no
    rejected task at all. *)
Lemma batchesLoop_spec (batches : list (list task)) :
  forall (c f : nat) (st : list task) (c' f' : nat) (st' : list task),
    batchesLoop batches c f st = (c', f', st') ->
    exists ran rest,
      batches = ran ++ rest
      /\ st' = st ++ concat ran
      /\ c' = c + length (List.filter fulfilled (concat ran))
      /\ f' = f + length (List.filter rejected (concat ran))
      /\ (forall i b, S i < length ran -> ran !! i = Some b ->
                      Forall (fun t => fulfilled t = true) b)
      /\ (f' = f -> rest = []).
Proof.
  induction batches as [|b bs IH]; intros c f st c' f' st' H.
  - injection H as <- <- <-. exists [], []. cbn. rewrite app_nil_r.
    repeat split; lia.
  - cbn [batchesLoop] in H. rewrite executeBatch_counts in H. cbn [fst snd] in H.
    destruct (0 <? length (List.filter rejected b)) eqn:Hfail.
    + injection H as <- <- <-. apply Nat.ltb_lt in Hfail.
      exists [b], bs. cbn [concat app length]. rewrite app_nil_r.
      split; [done|]. split; [done|]. split; [done|]. split; [done|].
      split; [intros i b0 Hi; lia|]. intros Heq. lia.
    + apply Nat.ltb_ge in Hfail.
      apply IH in H as (ran & rest & -> & -> & -> & -> & Hfull & Hall).
      exists (b :: ran), rest. cbn [concat app length].
      rewrite !List.filter_app, !length_app, <- app_assoc.
      split; [done|]. split; [done|]. split; [lia|]. split; [lia|]. split.
      * intros [|i] b0 Hi Hb0; cbn in Hb0.
        -- injection Hb0 as <-. apply filter_rejected_nil. lia.
        -- apply (Hfull i); [lia|done].
      * intros Heq. apply Hall. lia.
Qed.

Lemma elem_of_concat_inv (bs : list (list task)) (t : task) :
  t ∈ concat bs -> exists i b, bs !! i = Some b /\ t ∈ b.
Proof.
  induction bs as [|b0 bs IH]; cbn [concat]; intros H.
  - by apply not_elem_of_nil in H.
  - apply elem_of_app in H as [H|H].
    + by exists 0, b0.
    + destruct (IH H) as (i & b & Hi & Hb). by exists (S i), b.
Qed.

Lemma app_eq_split (A B pre post : list task) (t : task) :
  A ++ B = pre ++ t :: post -> t ∉ A -> exists B', pre = A ++ B'.
Proof.
  revert pre. induction A as [|a A IH]; intros pre H Hnin; [by exists pre|].
  destruct pre as [|p pre]; cbn in H.
  - injection H as -> _. exfalso. apply Hnin. by left.
  - injection H as -> H. destruct (IH pre H) as [B' ->].
    + intros Hin. apply Hnin. by right.
    + by exists B'.
Qed.

End Stage.


End ImplementationStage.
